(** * Keras_Text: masks, positional embeddings, masked loss, decoding loop and
      the character table of the sequence-modelling notebooks.

    The notebooks are Python over TensorFlow/Keras and NumPy.  Tensors are
    embedded as nested lists (rank 1: [list A], rank 2: [list (list A)],
    rank 3: [list (list (list A))]); integer tensors hold [Z], boolean
    tensors [bool], and floating-point tensors hold exact rationals [Qc]
    (nothing below depends on rounding); the tensors of the masked loss,
    where infinities and NaN matter, hold [float32] values.  Python
    exceptions are values of [exn]; a computation that may raise returns a
    [result]. *)

From Stdlib Require Import ZArith QArith Qround Qcanon String Ascii DecimalString.
From stdpp Require Import base numbers strings sorting gmap list.

Open Scope Z_scope.
Open Scope nat_scope.

(** ** Exceptions, results and traced computations *)

Inductive exn : Type :=
| UnboundLocalError (name : string)
| KeyError
| IndexError
| ValueError
| TypeError
| InvalidArgumentError.

Inductive result (A : Type) : Type :=
| Ok (a : A)
| Raise (e : exn).
Arguments Ok {A} a.
Arguments Raise {A} e.

#[global] Instance result_ret : MRet result := λ A a, Ok a.
#[global] Instance result_bind : MBind result := λ A B f m,
  match m with
  | Ok a => f a
  | Raise e => Raise e
  end.
#[global] Instance result_fmap : FMap result := λ A B f m,
  match m with
  | Ok a => Ok (f a)
  | Raise e => Raise e
  end.

Definition is_Ok {A} (r : result A) : Prop :=
  match r with Ok _ => True | Raise _ => False end.

(** [of_option e o]: a lookup that raises [e] when the key or index is absent. *)
Definition of_option {A} (e : exn) (o : option A) : result A :=
  match o with
  | Some a => Ok a
  | None => Raise e
  end.

(** A computation that also emits observable events (layer invocations, loop
    iterations): the events emitted up to the point where it returned or
    raised, and its outcome. *)
Definition traced (E A : Type) : Type := (list E * result A)%type.

Definition tret {E A} (a : A) : traced E A := ([], Ok a).

Definition tbind {E A B} (m : traced E A) (f : A → traced E B) : traced E B :=
  match m with
  | (l, Ok a) => let '(l', r) := f a in (l ++ l', r)
  | (l, Raise e) => (l, Raise e)
  end.

Definition emit {E} (ev : E) : traced E unit := ([ev], Ok tt).

Definition lift {E A} (r : result A) : traced E A := ([], r).

Declare Scope traced_scope.
Delimit Scope traced_scope with traced.
Notation "x ⇐ m ;; k" := (tbind m (λ x, k))
  (at level 100, m at next level, right associativity) : traced_scope.
Notation "m ;;; k" := (tbind m (λ _, k))
  (at level 100, right associativity) : traced_scope.

(** Reading a Python local: a name that no executed statement has bound
    raises [UnboundLocalError]. *)
Definition load_local {A} (name : string) (binding : option A) : result A :=
  of_option (UnboundLocalError name) binding.

(** ** Float32 values *)

(** A float32 value as far as the arithmetic of the loss tells values apart:
    a finite number, taken exactly, an infinity with its sign, or NaN. *)
Inductive float32 : Type :=
| Finite (q : Qc)
| Infinity (positive : bool)
| NaN.

(** [x + y]: NaN is absorbing and the two infinities cancel into NaN. *)
Definition fadd (x y : float32) : float32 :=
  match x, y with
  | NaN, _ | _, NaN => NaN
  | Infinity s, Infinity s' => if decide (s = s') then Infinity s else NaN
  | Infinity s, Finite _ | Finite _, Infinity s => Infinity s
  | Finite a, Finite b => Finite (a + b)%Qc
  end.

(** [x * y]: NaN is absorbing and an infinity times zero is NaN. *)
Definition fmul (x y : float32) : float32 :=
  match x, y with
  | NaN, _ | _, NaN => NaN
  | Infinity s, Infinity s' => Infinity (bool_decide (s = s'))
  | Infinity s, Finite q | Finite q, Infinity s =>
      if decide (q = 0%Qc) then NaN
      else Infinity (if decide (0 < q)%Qc then s else negb s)
  | Finite a, Finite b => Finite (a * b)%Qc
  end.

(** [x / y], a zero divisor being the positive zero that a sum of zeros and
    ones gives: [0/0] is NaN and [x/0] for another [x] is an infinity with
    the sign of [x]. *)
Definition fdiv (x y : float32) : float32 :=
  match x, y with
  | NaN, _ | _, NaN => NaN
  | Infinity _, Infinity _ => NaN
  | Finite _, Infinity _ => Finite 0%Qc
  | Infinity s, Finite r =>
      Infinity (if decide (0 ≤ r)%Qc then s else negb s)
  | Finite q, Finite r =>
      if decide (r = 0%Qc)
      then (if decide (q = 0%Qc) then NaN else Infinity (bool_decide (0 < q)%Qc))
      else Finite (q / r)%Qc
  end.

(** ** TensorFlow primitives on nested lists *)

Module tf.

(** [tf.range(limit)], and [tf.range(start=0, limit=limit, delta=1)]. *)
Definition range (limit : nat) : list Z := Z.of_nat <$> seq 0 limit.

(** [x[:, tf.newaxis]] on a rank-1 tensor: shape (n) becomes (n, 1). *)
Definition newaxis_last {A} (x : list A) : list (list A) := (λ a, [a]) <$> x.

(** [x[:, tf.newaxis, :]] on a rank-2 tensor: shape (b, n) becomes (b, 1, n). *)
Definition newaxis_mid {A} (x : list (list A)) : list (list (list A)) :=
  (λ row, [row]) <$> x.

(** [tf.cast(_, dtype="int32")] and [tf.cast(_, dtype=tf.float32)] of a
    boolean. *)
Definition cast_int32 (b : bool) : Z := if b then 1%Z else 0%Z.
Definition cast_float32 (b : bool) : float32 :=
  if b then Finite 1%Qc else Finite 0%Qc.

(** Broadcasting along one axis: an axis of size 1 is stretched to the
    other operand's size, equal sizes are paired up, anything else is a
    shape error. *)
Fixpoint zipM {A B C} (f : A → B → result C) (xs : list A) (ys : list B)
  : result (list C) :=
  match xs, ys with
  | [], [] => Ok []
  | x :: xs', y :: ys' =>
      z ← f x y; zs ← zipM f xs' ys'; Ok (z :: zs)
  | _, _ => Raise InvalidArgumentError
  end.

Definition bcast {A B C} (f : A → B → result C) (xs : list A) (ys : list B)
  : result (list C) :=
  match xs, ys with
  | [x], _ => mapM (f x) ys
  | _, [y] => mapM (λ x, f x y) xs
  | _, _ => zipM f xs ys
  end.

Definition bcast1 {A B C} (f : A → B → C) := bcast (λ a b, Ok (f a b)).
Definition bcast2 {A B C} (f : A → B → C) := bcast (bcast1 f).
Definition bcast3 {A B C} (f : A → B → C) := bcast (bcast2 f).

(** [a >= b] between a rank-2 and a rank-1 tensor: the rank-1 operand gets
    a leading axis of size 1. *)
Definition greater_equal_2_1 (a : list (list Z)) (b : list Z)
  : result (list (list bool)) :=
  bcast2 Z.geb a [b].

(** [tf.minimum] on rank-3 integer tensors. *)
Definition minimum (a b : list (list (list Z))) : result (list (list (list Z))) :=
  bcast3 Z.min a b.

(** [a + b] between a rank-3 and a rank-2 float tensor, and between two
    rank-3 float tensors. *)
Definition add_3_2 (a : list (list (list Qc))) (b : list (list Qc))
  : result (list (list (list Qc))) :=
  bcast3 Qcplus a [b].
Definition add (a b : list (list (list Qc))) : result (list (list (list Qc))) :=
  bcast3 Qcplus a b.

(** [a * b] on rank-2 float32 tensors. *)
Definition multiply (a b : list (list float32)) : result (list (list float32)) :=
  bcast2 fmul a b.

(** [tf.math.not_equal(x, 0)] and [x > 0] on rank-2 integer tensors. *)
Definition not_equal_0 (x : list (list Z)) : list (list bool) :=
  fmap (M:=list) (fmap (M:=list) (λ t : Z, negb (t =? 0)%Z)) x.
Definition greater_0 (x : list (list Z)) : list (list bool) :=
  fmap (M:=list) (fmap (M:=list) (λ t : Z, (0 <? t)%Z)) x.

(** [tf.shape(x)[0]] and [tf.shape(x)[1]] of a tensor of rank at least 2. *)
Definition shape0 {A} (x : list (list A)) : nat := length x.
Definition shape1 {A} (x : list (list A)) : nat :=
  match x with
  | [] => 0
  | row :: _ => length row
  end.

(** [tf.reshape(x, (d0, d1, d2))] of a rank-2 tensor: the row-major buffer
    is cut again into [d0] blocks of [d1] rows of [d2] entries. *)
Fixpoint chunks {A} (size count : nat) (buf : list A) : list (list A) :=
  match count with
  | 0 => []
  | S count' => take size buf :: chunks size count' (drop size buf)
  end.

Definition reshape_2_3 {A} (x : list (list A)) (d0 d1 d2 : nat)
  : result (list (list (list A))) :=
  let buf := concat x in
  if decide (length buf = d0 * d1 * d2)
  then Ok (chunks d1 d0 (chunks d2 (d0 * d1) buf))
  else Raise InvalidArgumentError.

(** [tf.tile(x, multiples)] of a rank-3 tensor. *)
Definition tile_axis {A} (m : nat) (x : list A) : list A :=
  concat (replicate m x).

Definition tile {A} (x : list (list (list A))) (multiples : list nat)
  : result (list (list (list A))) :=
  match multiples with
  | [m0; m1; m2] =>
      Ok (tile_axis m0
            ((λ mat, tile_axis m1 (tile_axis m2 <$> mat)) <$> x))
  | _ => Raise InvalidArgumentError
  end.

(** [tf.reduce_sum] of a rank-2 float32 tensor. *)
Definition reduce_sum (x : list (list float32)) : float32 :=
  foldr fadd (Finite 0%Qc) (concat x).

(** A rank-3 integer tensor broadcast against a tensor of shape (b, t, s),
    as in [scores + f(x)]. *)
Definition broadcast_against (x : list (list (list Z))) (b t s : nat)
  : result (list (list (list Z))) :=
  bcast3 (λ v (_ : unit), v) x (replicate b (replicate t (replicate s tt))).

End tf.

(** ** Shared vocabulary of the Keras layers

    The framework layers are collaborators outside the repository: a layer
    object is represented by the function it computes. *)

Abbreviation activations := (list (list (list Qc))) (only parsing).
Abbreviation attention_mask := (list (list (list Z))) (only parsing).

(** [layers.MultiHeadAttention]: [query], [value], [key], [attention_mask]. *)
Definition MultiHeadAttention : Type :=
  activations → activations → activations → option attention_mask → activations.

(** A call of an attention layer, as seen from outside: which layer attribute
    was invoked and the [attention_mask] argument it was given ([None] when the
    argument is left out). *)
Inductive event : Type :=
| MHACall (layer : string) (mask : option attention_mask).

Definition invoke (layer : string) (f : MultiHeadAttention)
    (query value key : activations) (mask : option attention_mask)
  : traced event activations :=
  (emit (MHACall layer mask);;; tret (f query value key mask))%traced.

(** What an attention layer does with its mask argument (the contract of the
    framework's scaled dot-product attention for [batch] rows, [t] queries and
    [s] keys): without a mask every score is kept; a mask is broadcast against
    the (batch, t, s) score tensor, and a score is kept where the entry is 1. *)
Definition applied_mask (batch t s : nat) (mask : option attention_mask)
  : result attention_mask :=
  match mask with
  | None => Ok (replicate batch (replicate t (replicate s 1%Z)))
  | Some m => tf.broadcast_against m batch t s
  end.

(** [layers.Embedding(input_dim, output_dim)]: a trainable table of
    [input_dim] rows, applied to every index of an integer tensor.  [lookup]
    gives the rows of the table; an index outside [0, input_dim) is refused
    with [InvalidArgumentError], as the lookup does on the CPU, where the
    notebooks ran. *)
Record Embedding : Type := {
  input_dim : nat;
  output_dim : nat;
  lookup : Z → list Qc
}.

Definition Embedding_row (e : Embedding) (i : Z) : result (list Qc) :=
  if decide (0 ≤ i < Z.of_nat (input_dim e))%Z then Ok (lookup e i)
  else Raise InvalidArgumentError.

Definition Embedding_call_1 (e : Embedding) (x : list Z)
  : result (list (list Qc)) :=
  mapM (Embedding_row e) x.
Definition Embedding_call_2 (e : Embedding) (x : list (list Z))
  : result activations :=
  mapM (Embedding_call_1 e) x.

(** * neural_machine_translation_with_transformer.ipynb *)

Module TransformerEncoder.

(** The attributes [call] uses. *)
Record t : Type := {
  attention : MultiHeadAttention;
  dense_proj : activations → activations;
  layernorm_1 : activations → activations;
  layernorm_2 : activations → activations
}.

(** [call]: [padding_mask] is a local that only the [if mask is not None]
    branch binds; the attention layer is called with
    [attention_mask=padding_mask]. *)
Definition call (self : t) (inputs : activations) (mask : option (list (list bool)))
  : traced event activations :=
  (* if mask is not None: padding_mask = tf.cast(mask[:, tf.newaxis, :], "int32") *)
  let padding_mask : option attention_mask :=
    match mask with
    | Some mask =>
        Some (fmap (M:=list) (fmap (M:=list) (fmap (M:=list) tf.cast_int32))
                (tf.newaxis_mid mask))
    | None => None
    end in
  (padding_mask ⇐ lift (load_local "padding_mask" padding_mask);;
   attention_output ⇐
     invoke "attention" (attention self) inputs inputs inputs (Some padding_mask);;
   sum_1 ⇐ lift (tf.add inputs attention_output);;
   let proj_input := layernorm_1 self sum_1 in
   let proj_output := dense_proj self proj_input in
   sum_2 ⇐ lift (tf.add proj_input proj_output);;
   tret (layernorm_2 self sum_2))%traced.

End TransformerEncoder.

Module PositionalEmbedding.

Record t : Type := {
  token_embeddings : Embedding;
  position_embeddings : Embedding;
  sequence_length : nat;
  vocab_size : nat;
  embed_dim : nat
}.

Definition call (self : t) (inputs : list (list Z)) : result activations :=
  let length := tf.shape1 inputs in
  let positions := tf.range length in
  embedded_tokens ← Embedding_call_2 (token_embeddings self) inputs;
  embedded_positions ← Embedding_call_1 (position_embeddings self) positions;
  tf.add_3_2 embedded_tokens embedded_positions.

Definition compute_mask (self : t) (inputs : list (list Z))
    (mask : option (list (list bool))) : list (list bool) :=
  tf.not_equal_0 inputs.

End PositionalEmbedding.

Module TransformerDecoder.

(** The attributes [call] uses. *)
Record t : Type := {
  attention_1 : MultiHeadAttention;
  attention_2 : MultiHeadAttention;
  dense_proj : activations → activations;
  layernorm_1 : activations → activations;
  layernorm_2 : activations → activations;
  layernorm_3 : activations → activations
}.

(** <<
    input_shape = tf.shape(inputs)
    batch_size, sequence_length = input_shape[0], input_shape[1]
    i = tf.range(sequence_length)[:, tf.newaxis]
    j = tf.range(sequence_length)
    mask = tf.cast(i >= j, dtype="int32")
    mask = tf.reshape(mask, (1, input_shape[1], input_shape[1]))
    mult = tf.concat([tf.expand_dims(batch_size, -1),
                      tf.constant([1, 1], dtype=tf.int32)], axis=0)
    return tf.tile(mask, mult)
    >> *)
Definition get_causal_attention_mask (inputs : activations)
  : result attention_mask :=
  let batch_size := tf.shape0 inputs in
  let sequence_length := tf.shape1 inputs in
  let i := tf.newaxis_last (tf.range sequence_length) in
  let j := tf.range sequence_length in
  ge ← tf.greater_equal_2_1 i j;
  let mask := fmap (M:=list) (fmap (M:=list) tf.cast_int32) ge in
  mask ← tf.reshape_2_3 mask 1 (tf.shape1 inputs) (tf.shape1 inputs);
  let mult := [batch_size] ++ [1; 1] in
  tf.tile mask mult.

(** The body of the [if mask is not None] branch of [call], that is, the
    value it binds to [padding_mask]: <<
    padding_mask = tf.cast(mask[:, tf.newaxis, :], dtype="int32")
    padding_mask = tf.minimum(padding_mask, causal_mask)
    >> *)
Definition combined_mask (mask : list (list bool)) (causal_mask : attention_mask)
  : result attention_mask :=
  let padding_mask :=
    fmap (M:=list) (fmap (M:=list) (fmap (M:=list) tf.cast_int32))
      (tf.newaxis_mid mask) in
  tf.minimum padding_mask causal_mask.

(** [call]: the self-attention [attention_1] is given [causal_mask], the
    cross-attention [attention_2] is given [padding_mask], a local that only
    the [if mask is not None] branch binds. *)
Definition call (self : t) (inputs encoder_outputs : activations)
    (mask : option (list (list bool))) : traced event activations :=
  (causal_mask ⇐ lift (get_causal_attention_mask inputs);;
   padding_mask ⇐ lift (match mask with
                        | Some mask => Some <$> combined_mask mask causal_mask
                        | None => Ok None
                        end);;
   attention_output_1 ⇐
     invoke "attention_1" (attention_1 self) inputs inputs inputs (Some causal_mask);;
   sum_1 ⇐ lift (tf.add inputs attention_output_1);;
   let out_1 := layernorm_1 self sum_1 in
   padding_mask ⇐ lift (load_local "padding_mask" padding_mask);;
   attention_output_2 ⇐
     invoke "attention_2" (attention_2 self) out_1 encoder_outputs encoder_outputs
       (Some padding_mask);;
   sum_2 ⇐ lift (tf.add out_1 attention_output_2);;
   let out_2 := layernorm_2 self sum_2 in
   let proj_output := dense_proj self out_2 in
   sum_3 ⇐ lift (tf.add out_2 proj_output);;
   tret (layernorm_3 self sum_3))%traced.

End TransformerDecoder.

(** [x < y] on floats, as a boolean. *)
Definition Qcltb (x y : Qc) : bool :=
  (Qnum (this x) * Zpos (Qden (this y)) <? Qnum (this y) * Zpos (Qden (this x)))%Z.

(** [np.argmax] of a vector: the index of the first occurrence of the
    maximum; NumPy raises [ValueError] on an empty vector. *)
Fixpoint argmax_from (best_index : nat) (best : Qc) (index : nat) (v : list Qc)
  : nat :=
  match v with
  | [] => best_index
  | x :: v' =>
      if Qcltb best x
      then argmax_from index x (S index) v'
      else argmax_from best_index best (S index) v'
  end.

Definition argmax (v : list Qc) : result nat :=
  match v with
  | [] => Raise ValueError
  | x :: v' => Ok (argmax_from 0 x 1 v')
  end.

(** [dict(pairs)]: later pairs overwrite earlier ones. *)
Definition dict `{Countable K} {V} (pairs : list (K * V)) : gmap K V :=
  foldl (λ d kv, <[kv.1 := kv.2]> d) ∅ pairs.

(** [dict[key]]: [KeyError] when the key is absent. *)
Definition getitem `{Countable K} {V} (d : gmap K V) (key : K) : result V :=
  of_option KeyError (d !! key).

(** One iteration of the decoding loop that got as far as sampling a token. *)
Inductive iteration : Type :=
| Sampled (i : nat) (sampled_token : string).

Section decoding.

(** The trained objects the decoding cell reads from the notebook's global
    scope. *)
Variable eng_vectorization : list string → list (list Z).
Variable spa_vectorization : list string → list (list Z).
Variable get_vocabulary : list string.
Variable transformer : list (list Z) → list (list Z) → activations.

Definition spa_vocab : list string := get_vocabulary.
Definition spa_index_lookup : gmap nat string :=
  dict (zip (seq 0 (length spa_vocab)) spa_vocab).
Definition max_decoded_sentence_length : nat := 20.

(** The loop body up to the sampled token. *)
Definition sample (tokenized_input_sentence : list (list Z))
    (decoded_sentence : string) (i : nat) : result string :=
  (* spa_vectorization([decoded_sentence])[:, :-1] *)
  let tokenized_target_sentence :=
    (λ row, take (length row - 1) row) <$> spa_vectorization [decoded_sentence] in
  let predictions := transformer tokenized_input_sentence tokenized_target_sentence in
  (* np.argmax(predictions[0, i, :]) *)
  scores ← of_option IndexError (predictions !! 0 ≫= (.!! i));
  sampled_token_index ← argmax scores;
  getitem spa_index_lookup sampled_token_index.

(** The [for i in range(max_decoded_sentence_length)] loop, over the indices
    still to come; [break] ends it. *)
Fixpoint decode_loop (tokenized_input_sentence : list (list Z))
    (indices : list nat) (decoded_sentence : string) : traced iteration string :=
  match indices with
  | [] => tret decoded_sentence
  | i :: indices' =>
      (sampled_token ⇐ lift (sample tokenized_input_sentence decoded_sentence i);;
       emit (Sampled i sampled_token);;;
       let decoded_sentence := decoded_sentence +:+ " " +:+ sampled_token in
       if bool_decide (sampled_token = "[end]")
       then tret decoded_sentence
       else decode_loop tokenized_input_sentence indices' decoded_sentence)%traced
  end.

Definition decode_sequence (input_sentence : string) : traced iteration string :=
  let tokenized_input_sentence := eng_vectorization [input_sentence] in
  let decoded_sentence := "[start]" in
  decode_loop tokenized_input_sentence (seq 0 max_decoded_sentence_length)
    decoded_sentence.

End decoding.

(** * ner_transformers.ipynb *)

Module TransformerBlock.

Record t : Type := {
  att : MultiHeadAttention;
  ffn : activations → activations;
  layernorm1 : activations → activations;
  layernorm2 : activations → activations;
  dropout1 : activations → bool → activations;
  dropout2 : activations → bool → activations
}.

Definition call (self : t) (inputs : activations) (training : bool)
  : traced event activations :=
  (* self.att(inputs, inputs): query and value; key defaults to value, and
     no attention_mask is given *)
  (attn_output ⇐ invoke "att" (att self) inputs inputs inputs None;;
   let attn_output := dropout1 self attn_output training in
   sum_1 ⇐ lift (tf.add inputs attn_output);;
   let out1 := layernorm1 self sum_1 in
   let ffn_output := ffn self out1 in
   let ffn_output := dropout2 self ffn_output training in
   sum_2 ⇐ lift (tf.add out1 ffn_output);;
   tret (layernorm2 self sum_2))%traced.

End TransformerBlock.

Module TokenAndPositionEmbedding.

Record t : Type := {
  token_emb : Embedding;
  pos_emb : Embedding
}.

Definition call (self : t) (inputs : list (list Z)) : result activations :=
  let maxlen := tf.shape1 inputs in
  let positions := tf.range maxlen in
  position_embeddings ← Embedding_call_1 (pos_emb self) positions;
  token_embeddings ← Embedding_call_2 (token_emb self) inputs;
  tf.add_3_2 token_embeddings position_embeddings.

End TokenAndPositionEmbedding.

Module CustomNonPaddingTokenLoss.

Section loss.

(** [SparseCategoricalCrossentropy(from_logits=True)] for one token: the
    label and the logits of that position give a float32 loss, or the
    framework refuses the label. *)
Variable crossentropy : Z → list float32 → result float32.

(** [reduction=Reduction.NONE]: one loss value per token. *)
Definition loss_fn (y_true : list (list Z)) (y_pred : list (list (list float32)))
  : result (list (list float32)) :=
  tf.zipM (tf.zipM crossentropy) y_true y_pred.

(** <<
    loss = loss_fn(y_true, y_pred)
    mask = tf.cast((y_true > 0), dtype=tf.float32)
    loss = loss * mask
    return tf.reduce_sum(loss) / tf.reduce_sum(mask)
    >> *)
Definition call (y_true : list (list Z)) (y_pred : list (list (list float32)))
  : result float32 :=
  loss ← loss_fn y_true y_pred;
  let mask :=
    fmap (M:=list) (fmap (M:=list) tf.cast_float32) (tf.greater_0 y_true) in
  loss ← tf.multiply loss mask;
  Ok (fdiv (tf.reduce_sum loss) (tf.reduce_sum mask)).

End loss.

End CustomNonPaddingTokenLoss.

(** * Character-level addition notebook: [CharacterTable] *)

(** A two-dimensional [np.ndarray] of floats: its shape and its rows.  The
    shape is kept because a (0, n) array and a (0, 0) array have the same
    (empty) list of rows and NumPy still tells them apart. *)
Record ndarray : Type := {
  shape : nat * nat;
  rows : list (list Qc)
}.

Module np.

(** [np.zeros((n, m))]. *)
Definition zeros (n m : nat) : ndarray :=
  {| shape := (n, m); rows := replicate n (replicate m 0%Qc) |}.

(** [x[i, j] = v], with NumPy's bounds check. *)
Definition setitem (x : ndarray) (i j : nat) (v : Qc) : result ndarray :=
  if decide (i < (shape x).1 ∧ j < (shape x).2)
  then Ok {| shape := shape x; rows := alter (<[j := v]>) i (rows x) |}
  else Raise IndexError.

(** [x.argmax(axis=-1)]: NumPy refuses to reduce over an axis of size 0,
    whatever the other axis is, with [ValueError]. *)
Definition argmax_last_axis (x : ndarray) : result (list nat) :=
  if decide ((shape x).2 = 0)
  then Raise ValueError
  else mapM argmax (rows x).

End np.

Module CharacterTable.

(** Characters are ordered by their code, as Python orders one-character
    strings. *)
Definition ascii_le (a b : ascii) : Prop := (N_of_ascii a ≤ N_of_ascii b)%N.
#[global] Instance ascii_le_dec a b : Decision (ascii_le a b) := N.le_dec _ _.

Record t : Type := {
  chars : list ascii;
  char_indices : gmap ascii nat;
  indices_char : gmap nat ascii
}.

(** [enumerate(l)]. *)
Definition enumerate {A} (l : list A) : list (nat * A) :=
  zip (seq 0 (length l)) l.

(** [__init__]: [sorted(set(chars))] and the two dictionaries built from its
    enumeration. *)
Definition init (chars : string) : t :=
  let chars := merge_sort ascii_le (remove_dups (list_ascii_of_string chars)) in
  {| chars := chars;
     char_indices := dict ((λ ic, (ic.2, ic.1)) <$> enumerate chars);
     indices_char := dict (enumerate chars) |}.

(** <<
    x = np.zeros((num_rows, len(self.chars)))
    for i, c in enumerate(C):
        x[i, self.char_indices[c]] = 1
    return x
    >> *)
Definition encode (self : t) (C : string) (num_rows : nat) : result ndarray :=
  let x := np.zeros num_rows (length (chars self)) in
  foldl (λ (x : result ndarray) (ic : nat * ascii),
           x ← x;
           column ← getitem (char_indices self) ic.2;
           np.setitem x ic.1 column 1%Qc)
        (Ok x) (enumerate (list_ascii_of_string C)).

(** The argument of [decode]: a 2D array of scores (with [calc_argmax]) or a
    vector of character indices (without). *)
Inductive decode_arg : Type :=
| Scores (x : ndarray)
| Indices (x : list nat).

(** <<
    if calc_argmax:
        x = x.argmax(axis=-1)
    return the join of self.indices_char[x] for x in x
    >> *)
Definition decode (self : t) (x : decode_arg) (calc_argmax : bool)
  : result string :=
  x ← (match calc_argmax, x with
       | true, Scores x => np.argmax_last_axis x
       | false, Indices x => Ok x
       | _, _ => Raise TypeError
       end);
  cs ← mapM (getitem (indices_char self)) x;
  Ok (string_of_list_ascii cs).

End CharacterTable.

(** * Python built-ins used by the data preparation cells

    A Python [str] is a [string] of 8-bit characters; the only character of
    the notebooks beyond ASCII, the inverted question mark, has code 191. *)

Module py.

(** [str(n)] of a non-negative integer and of any integer. *)
Definition str_nat (n : nat) : string := NilEmpty.string_of_uint (Nat.to_uint n).
Definition str_int (z : Z) : string := NilZero.string_of_int (Z.to_int z).

(** [s.split(sep)] for a one-character separator: consecutive separators
    delimit empty strings, and the empty string splits into one empty piece.
    [tf.strings.split(s, sep=sep)] on one string does the same. *)
Fixpoint split (sep : ascii) (s : string) : list string :=
  match s with
  | EmptyString => [EmptyString]
  | String c s' =>
      if decide (c = sep) then EmptyString :: split sep s'
      else match split sep s' with
           | piece :: pieces => String c piece :: pieces
           | [] => [String c EmptyString]
           end
  end.

(** [sep.join(parts)]. *)
Fixpoint join (sep : string) (parts : list string) : string :=
  match parts with
  | [] => EmptyString
  | [part] => part
  | part :: parts' => part +:+ sep +:+ join sep parts'
  end.

(** [l[start:stop]] with integer bounds: a negative bound counts from the
    end, and bounds outside the list are clamped. *)
Definition clamp (len : nat) (i : Z) : nat :=
  if (i <? 0)%Z then Z.to_nat (Z.max 0 (Z.of_nat len + i))
  else Z.to_nat (Z.min i (Z.of_nat len)).

Definition slice {A} (l : list A) (start stop : Z) : list A :=
  drop (clamp (length l) start) (take (clamp (length l) stop) l).

(** [l[start:]] and [l[:stop]]. *)
Definition slice_from {A} (l : list A) (start : Z) : list A :=
  drop (clamp (length l) start) l.
Definition slice_to {A} (l : list A) (stop : Z) : list A :=
  take (clamp (length l) stop) l.

(** [s * n] for a one-character string [s]: nothing when [n] is negative. *)
Definition repeat (c : ascii) (n : Z) : string :=
  string_of_list_ascii (replicate (Z.to_nat n) c).

(** [s[::-1]]. *)
Definition reversed (s : string) : string :=
  string_of_list_ascii (reverse (list_ascii_of_string s)).

(** The tab and the newline. *)
(** The value of a decimal digit. *)
Definition digit (c : ascii) : option nat :=
  if decide (48 ≤ nat_of_ascii c ≤ 57) then Some (nat_of_ascii c - 48)
  else None.

(** [int(s)] for a text made of decimal digits, which is all the notebooks
    convert; the empty text is no number. *)
Definition int (s : string) : result nat :=
  digits ← mapM (λ c, of_option ValueError (digit c)) (list_ascii_of_string s);
  if decide (digits = []) then Raise ValueError
  else Ok (foldl (λ n d, 10 * n + d) 0 digits).

Definition tab : ascii := "009"%char.
Definition newline : ascii := "010"%char.

End py.

(** * Character-level addition notebook: generating and vectorizing the data *)

Module addition.

Definition TRAINING_SIZE : Z := 50000.
Definition DIGITS : nat := 3.
Definition REVERSE : bool := true.
Definition MAXLEN : nat := DIGITS + 1 + DIGITS.

Definition chars : string := "0123456789+ ".
Definition ctable : CharacterTable.t := CharacterTable.init chars.

(** <<
    f = lambda: int(
        empty.join(
            np.random.choice(list("0123456789"))
            for i in range(np.random.randint(1, DIGITS + 1))
        )
    )
    >>
    for the characters [choices] that the random generator returned. *)
Definition f (choices : list ascii) : result nat :=
  py.int (py.join EmptyString ((λ c, String c EmptyString) <$> choices)).

(** <<
    q = "{}+{}".format(a, b)
    query = q + " " * (MAXLEN - len(q))
    if REVERSE:
        query = query[::-1]
    >> *)
Definition question (a b : nat) : string :=
  let q := py.str_nat a +:+ "+" +:+ py.str_nat b in
  let query :=
    q +:+ py.repeat " " (Z.of_nat MAXLEN - Z.of_nat (String.length q)) in
  if REVERSE then py.reversed query else query.

(** <<
    ans = str(a + b)
    ans += " " * (DIGITS + 1 - len(ans))
    >> *)
Definition answer (a b : nat) : string :=
  let ans := py.str_nat (a + b) in
  ans +:+ py.repeat " " (Z.of_nat DIGITS + 1 - Z.of_nat (String.length ans)).

(** The lists and the set the generating loop updates. *)
Record state : Type := {
  questions : list string;
  expected : list string;
  seen : gset (nat * nat)
}.

Definition initial : state :=
  {| questions := []; expected := []; seen := ∅ |}.

(** [tuple(sorted((a, b)))]. *)
Definition sorted_pair (ab : nat * nat) : nat * nat :=
  if decide (ab.1 ≤ ab.2) then ab else (ab.2, ab.1).

(** One pass through the body of the [while] loop, for the two numbers [a]
    and [b] that the random generator returned. *)
Definition body (st : state) (ab : nat * nat) : state :=
  let key := sorted_pair ab in
  if decide (key ∈ seen st) then st
  else {| questions := questions st ++ [question ab.1 ab.2];
          expected := expected st ++ [answer ab.1 ab.2];
          seen := {[key]} ∪ seen st |}.

(** [while len(questions) < TRAINING_SIZE], run on the numbers the random
    generator returns, in the order of the draws; the list of draws is the
    part of that stream consumed so far. *)
Fixpoint generate (st : state) (draws : list (nat * nat)) : state :=
  match draws with
  | [] => st
  | ab :: draws' =>
      if decide (Z.of_nat (length (questions st)) < TRAINING_SIZE)%Z
      then generate (body st ab) draws'
      else st
  end.

(** [x[indices]] for an array of indices, as [np.arange] and
    [np.random.shuffle] leave it: the rows of [x] at these indices. *)
Definition take_rows {A} (x : list A) (indices : list nat) : result (list A) :=
  mapM (λ i, of_option IndexError (x !! i)) indices.

(** <<
    indices = np.arange(len(y))
    np.random.shuffle(indices)
    x = x[indices]
    y = y[indices]
    >>
    for the order [indices] that the shuffle left. *)
Definition shuffle_in_unison {A B} (x : list A) (y : list B)
    (indices : list nat) : result (list A * list B) :=
  x ← take_rows x indices;
  y ← take_rows y indices;
  Ok (x, y).

(** <<
    split_at = len(x) - len(x) // 10
    (x_train, x_val) = x[:split_at], x[split_at:]
    (y_train, y_val) = y[:split_at], y[split_at:]
    >> *)
Definition split_validation {A B} (x : list A) (y : list B)
  : (list A * list A) * (list B * list B) :=
  let split_at := (Z.of_nat (length x) - Z.of_nat (length x) / 10)%Z in
  ((py.slice_to x split_at, py.slice_from x split_at),
   (py.slice_to y split_at, py.slice_from y split_at)).

End addition.

(** * Translation notebook: reading, splitting and standardizing the text *)

Module translation.

(** [f.read().split("\n")[:-1]]. *)
Definition read_lines (content : string) : list string :=
  py.slice_to (py.split py.newline content) (-1).

(** <<
    eng, spa = line.split("\t")
    spa = "[start] " + spa + " [end]"
    text_pairs.append((eng, spa))
    >>
    Unpacking anything but two pieces raises [ValueError]. *)
Definition parse_line (line : string) : result (string * string) :=
  match py.split py.tab line with
  | [eng; spa] => Ok (eng, "[start] " +:+ spa +:+ " [end]")
  | _ => Raise ValueError
  end.

Definition text_pairs (content : string) : result (list (string * string)) :=
  mapM parse_line (read_lines content).

(** [int(0.15 * n)], the product taken as the exact rational. *)
Definition num_val_samples (n : nat) : Z :=
  Qfloor ((15 # 100) * inject_Z (Z.of_nat n)).

(** The three slices taken from the shuffled list of pairs. *)
Record datasets (A : Type) : Type := {
  train_pairs : list A;
  val_pairs : list A;
  test_pairs : list A
}.
Arguments train_pairs {A} _.
Arguments val_pairs {A} _.
Arguments test_pairs {A} _.

Definition split_pairs {A} (text_pairs : list A) : datasets A :=
  let num_val_samples := num_val_samples (length text_pairs) in
  let num_train_samples :=
    (Z.of_nat (length text_pairs) - 2 * num_val_samples)%Z in
  {| train_pairs := py.slice_to text_pairs num_train_samples;
     val_pairs :=
       py.slice text_pairs num_train_samples
         (num_train_samples + num_val_samples)%Z;
     test_pairs :=
       py.slice_from text_pairs (num_train_samples + num_val_samples)%Z |}.

(** The standardization works on the characters of a text; a text is the
    list of its Unicode code points, so that the inverted question mark is one
    character, as it is for the regular expression. *)
Abbreviation text := (list nat).

(** The text of a literal made of ASCII characters. *)
Definition literal (s : string) : text :=
  nat_of_ascii <$> list_ascii_of_string s.

(** [string.punctuation]: the ASCII punctuation in the order of its codes. *)
Definition punctuation : text :=
  seq 33 15 ++ seq 58 7 ++ seq 91 6 ++ seq 123 4.

Definition inverted_question_mark : nat := 191.

(** [s.replace(c, empty)] for a one-character [c]. *)
Definition remove_char (c : nat) (s : text) : text :=
  filter (λ x, x ≠ c) s.

(** <<
    strip_chars = string.punctuation + (the inverted question mark)
    strip_chars = strip_chars.replace("[", empty)
    strip_chars = strip_chars.replace("]", empty)
    >> *)
Definition strip_chars : text :=
  remove_char (nat_of_ascii "]")
    (remove_char (nat_of_ascii "[") (punctuation ++ [inverted_question_mark])).

(** [tf.strings.lower] with its default encoding: the letters A to Z are
    lowered, every other character is kept. *)
Definition lower_char (c : nat) : nat :=
  if decide (65 ≤ c ≤ 90) then c + 32 else c.

Definition lower (s : text) : text := lower_char <$> s.

(** [tf.strings.regex_replace(s, "[%s]" % re.escape(class), empty)]: every
    character of the class is deleted. *)
Definition delete_class (class s : text) : text :=
  filter (λ c, c ∉ class) s.

Definition custom_standardization (input_string : text) : text :=
  let lowercase := lower input_string in
  delete_class strip_chars lowercase.

Section format_dataset.

Variable eng_vectorization : list string → list (list Z).
Variable spa_vectorization : list string → list (list Z).

(** What [format_dataset] returns: the two entries of the dictionary and the
    targets. *)
Record example : Type := {
  encoder_inputs : list (list Z);
  decoder_inputs : list (list Z);
  targets : list (list Z)
}.

(** <<
    eng = eng_vectorization(eng)
    spa = spa_vectorization(spa)
    return ({"encoder_inputs": eng, "decoder_inputs": spa[:, :-1],}, spa[:, 1:])
    >> *)
Definition format_dataset (eng spa : list string) : example :=
  let eng := eng_vectorization eng in
  let spa := spa_vectorization spa in
  {| encoder_inputs := eng;
     decoder_inputs := (λ row, py.slice_to row (-1)) <$> spa;
     targets := (λ row, py.slice_from row 1) <$> spa |}.

End format_dataset.

End translation.

(** * Named-entity notebook: the exported records, the tag table, the metrics *)

Module ner.

(** A record of the CoNLL data: its tokens and the ids of their tags. *)
Record record : Type := {
  tokens : list string;
  ner_tags : list Z
}.

(** The text of one [f.write], without the newline that ends it. *)
Definition export_record (r : record) : string :=
  py.str_nat (length (tokens r))
  +:+ String py.tab EmptyString
  +:+ py.join (String py.tab EmptyString) (tokens r)
  +:+ String py.tab EmptyString
  +:+ py.join (String py.tab EmptyString) (py.str_int <$> ner_tags r).

(** The lines [export_to_file] writes, one for each record with a token. *)
Definition export_to_file (data : list record) : list string :=
  export_record <$> filter (λ r, 0 < length (tokens r)) data.

(** Arithmetic of a signed integer tensor of the given width. *)
Definition wrap (bits : Z) (z : Z) : Z :=
  ((z + 2 ^ (bits - 1)) mod 2 ^ bits - 2 ^ (bits - 1))%Z.

Section map_record.

(** [tf.strings.to_number] for the two integer types, which fails on a text
    that is no number of the type. *)
Variable to_int32 : string → result Z.
Variable to_int64 : string → result Z.

(** <<
    record = tf.strings.split(record, sep="\t")
    length = tf.strings.to_number(record[0], out_type=tf.int32)
    tokens = record[1 : length + 1]
    tags = record[length + 1 :]
    tags = tf.strings.to_number(tags, out_type=tf.int64)
    tags += 1
    return tokens, tags
    >> *)
Definition map_record_to_training_data (record : string)
  : result (list string * list Z) :=
  let record := py.split py.tab record in
  first ← of_option IndexError (record !! 0);
  length ← to_int32 first;
  let tokens := py.slice record 1 (wrap 32 (length + 1)) in
  let tags := py.slice_from record (wrap 32 (length + 1)) in
  tags ← mapM to_int64 tags;
  let tags := (λ tag, wrap 64 (tag + 1)) <$> tags in
  Ok (tokens, tags).

End map_record.

(** <<
    iob_labels = ["B", "I"]
    ner_labels = ["PER", "ORG", "LOC", "MISC"]
    all_labels = [(label1, label2) for label2 in ner_labels for label1 in iob_labels]
    all_labels = ["-".join([a, b]) for a, b in all_labels]
    all_labels = ["[PAD]", "O"] + all_labels
    return dict(zip(range(0, len(all_labels) + 1), all_labels))
    >> *)
Definition make_tag_lookup_table : gmap Z string :=
  let iob_labels := ["B"; "I"] in
  let ner_labels := ["PER"; "ORG"; "LOC"; "MISC"] in
  let all_labels :=
    label2 ← ner_labels; label1 ← iob_labels; [(label1, label2)] in
  let all_labels := (λ ab, py.join "-" [ab.1; ab.2]) <$> all_labels in
  let all_labels := ["[PAD]"; "O"] ++ all_labels in
  dict (zip (tf.range (length all_labels + 1)) all_labels).

Definition mapping : gmap Z string := make_tag_lookup_table.

(** [a & b] on two one-dimensional arrays: arrays of one length are combined
    element by element, an array of length one is stretched, and any other
    pair of lengths cannot be broadcast. *)
Definition logical_and (a b : list bool) : result (list bool) :=
  if decide (length a = length b) then Ok (zip_with andb a b)
  else match a, b with
       | [x], _ => Ok (andb x <$> b)
       | _, [y] => Ok ((λ x, andb x y) <$> a)
       | _, _ => Raise ValueError
       end.

(** [a[mask]] for a one-dimensional array and a boolean array, which must
    have the length of [a]. *)
Definition boolean_index {A} (a : list A) (mask : list bool)
  : result (list A) :=
  if decide (length a = length mask)
  then Ok ((filter (λ am, am.2 = true) (zip a mask)).*1)
  else Raise IndexError.

(** [np.concatenate] of a list of one-dimensional arrays, which must not be
    empty. *)
Definition concatenate {A} (arrays : list (list A)) : result (list A) :=
  match arrays with
  | [] => Raise ValueError
  | _ => Ok (concat arrays)
  end.

Section calculate_metrics.

(** [ner_model.predict]: the scores of every tag at every position of every
    sequence of the batch. *)
Variable predict : list (list Z) → list (list (list Qc)).

(** The body of the loop over the batches [(x, y)] of the dataset. *)
Definition batch_tag_ids (xy : list (list Z) * list (list Z))
  : result (list Z * list Z) :=
  let output := predict xy.1 in
  predictions ← mapM (mapM argmax) output;
  let predictions := Z.of_nat <$> concat predictions in
  let true_tag_ids := concat xy.2 in
  mask ← logical_and ((λ tag, bool_decide (0 < tag)%Z) <$> true_tag_ids)
                     ((λ tag, bool_decide (0 < tag)%Z) <$> predictions);
  true_tag_ids ← boolean_index true_tag_ids mask;
  predicted_tag_ids ← boolean_index predictions mask;
  Ok (true_tag_ids, predicted_tag_ids).

(** The two lists of tag names that [calculate_metrics] hands to
    [evaluate]. *)
Definition calculate_metrics
    (dataset : list (list (list Z) * list (list Z)))
  : result (list string * list string) :=
  batches ← mapM batch_tag_ids dataset;
  all_true_tag_ids ← concatenate (batches.*1);
  all_predicted_tag_ids ← concatenate (batches.*2);
  predicted_tags ← mapM (getitem mapping) all_predicted_tag_ids;
  real_tags ← mapM (getitem mapping) all_true_tag_ids;
  Ok (real_tags, predicted_tags).

End calculate_metrics.

End ner.

(** * Vocabulary of the specification *)

(** The causal matrix of the specification: entry (i, j) is 1 if j ≤ i and 0
    otherwise. *)
Definition lower_triangular (L : nat) : list (list Z) :=
  (λ i, (λ j, if decide (j ≤ i) then 1%Z else 0%Z) <$> seq 0 L) <$> seq 0 L.

(** The number of entries of a matrix that are 1. *)
Definition count_ones (m : list (list Z)) : nat :=
  length (filter (λ v, v = 1%Z) (concat m)).

(** Entry (i, j) of a matrix and entry (b, i, j) of a rank-3 tensor. *)
Definition entry2 {A} (m : list (list A)) (i j : nat) : option A :=
  row ← m !! i; row !! j.
Definition entry3 {A} (x : list (list (list A))) (b i j : nat) : option A :=
  m ← x !! b; entry2 m i j.

(** An embedding layer yields vectors of its [output_dim]. *)
Definition Embedding_ok (e : Embedding) : Prop :=
  ∀ i, length (lookup e i) = output_dim e.

(** An index the table of an embedding layer has a row for. *)
Definition valid_index (e : Embedding) (i : Z) : Prop :=
  (0 ≤ i < Z.of_nat (input_dim e))%Z.
#[global] Instance valid_index_dec e i : Decision (valid_index e i).
Proof. unfold valid_index. apply _. Defined.

(** Elementwise sum of two vectors. *)
Definition vector_add (v w : list Qc) : list Qc := zip_with Qcplus v w.

(** A run of a layer whose only attention call applies, to the scores of
    [B] rows of [L] queries and [L] keys, exactly the padding mask [P]: the
    mask entry for (b, i, j) is P[b,j], whatever the query position i. *)
Definition attends_by_padding_only
    (log : list event) (P : list (list bool)) (B L : nat) : Prop :=
  ∃ layer mask effective,
    log = [MHACall layer mask]
    ∧ applied_mask B L L mask = Ok effective
    ∧ ∀ b i j p, entry2 P b j = Some p → i < L →
        entry3 effective b i j = Some (tf.cast_int32 p).

(** Two activation tensors of the same shape. *)
Definition same_shape (x y : activations) : Prop :=
  Forall2 (Forall2 (λ v w : list Qc, length v = length w)) x y.

(** The sum of a list of float32 values, in list order. *)
Definition sum_list (l : list float32) : float32 := foldr fadd (Finite 0%Qc) l.

(** A float32 value that is a number. *)
Definition is_finite (x : float32) : Prop := ∃ q, x = Finite q.

(** The tokens of a batch in row-major order, each label with the loss
    computed at its position. *)
Definition token_losses (y_true : list (list Z)) (loss : list (list float32))
  : list (Z * float32) :=
  concat (zip_with zip y_true loss).

(** A token whose true label is not the padding label 0 (labels are
    non-negative; the code tests [y_true > 0]). *)
Definition non_padding {A} (token : Z * A) : Prop := (0 < token.1)%Z.
#[global] Instance non_padding_dec {A} (token : Z * A) :
  Decision (non_padding token) := Z_lt_dec _ _.

(** The per-token loss summed over the non-padding tokens only, and the
    number of those tokens. *)
Definition restricted_loss_sum
    (y_true : list (list Z)) (loss : list (list float32)) : float32 :=
  sum_list (snd <$> filter non_padding (token_losses y_true loss)).

Definition count_non_padding (y_true : list (list Z)) : nat :=
  length (filter (λ label, (0 < label)%Z) (concat y_true)).

(** The value the masked loss is meant to have: the mean of the per-token
    loss over the non-padding tokens. *)
Definition mean_over_non_padding
    (y_true : list (list Z)) (loss : list (list float32)) : float32 :=
  fdiv (restricted_loss_sum y_true loss)
    (Finite (Qc_of_Z (Z.of_nat (count_non_padding y_true)))).

(** The sentence a decoding run has built from the tokens it sampled. *)
Definition append_token (sentence : string) (it : iteration) : string :=
  match it with
  | Sampled _ sampled_token => sentence +:+ " " +:+ sampled_token
  end.

(** What a run of the decoding loop over [bound] indices starting at [first]
    looks like: iterations are numbered consecutively, at most [bound] of them
    take place, an iteration that samples the end token is the last one, a
    normal return comes after the end token or after [bound] iterations, and
    an exception cuts the run short of the bound. *)
Definition bounded_run (first bound : nat) (start : string)
    (run : traced iteration string) : Prop :=
  length run.1 ≤ bound
  ∧ (∀ k it, run.1 !! k = Some it → ∃ tok, it = Sampled (first + k) tok)
  ∧ (∀ k i tok, run.1 !! k = Some (Sampled i tok) →
       tok = "[end]" → S k = length run.1 ∧ is_Ok run.2)
  ∧ (∀ sentence, run.2 = Ok sentence →
       sentence = foldl append_token start run.1
       ∧ (length run.1 = bound
          ∨ ∃ i, last run.1 = Some (Sampled i "[end]")))
  ∧ (∀ e, run.2 = Raise e → length run.1 < bound).

(** The one-hot row of width [m] with its 1 at column [j]. *)
Definition one_hot (m j : nat) : list Qc := <[j := 1%Qc]> (replicate m 0%Qc).

(** [decode(encode(C, len(C)))] returns [C] for the table built from [chars]. *)
Definition round_trips (chars C : string) : Prop :=
  ∃ x, CharacterTable.encode (CharacterTable.init chars) C (String.length C) = Ok x
       ∧ CharacterTable.decode (CharacterTable.init chars) (CharacterTable.Scores x) true
         = Ok C.

(** ** Small concrete layers on which the statements are exercised *)

(** An embedding into two dimensions: index i goes to (i + offset, offset). *)
Definition sample_embedding (rows : nat) (offset : Z) : Embedding :=
  {| input_dim := rows;
     output_dim := 2;
     lookup := λ i, [Q2Qc (inject_Z (i + offset)); Q2Qc (inject_Z offset)] |}.

Definition sample_positional_embedding : PositionalEmbedding.t :=
  {| PositionalEmbedding.token_embeddings := sample_embedding 10 0;
     PositionalEmbedding.position_embeddings := sample_embedding 3 100;
     PositionalEmbedding.sequence_length := 3;
     PositionalEmbedding.vocab_size := 10;
     PositionalEmbedding.embed_dim := 2 |}.

(** An attention layer that returns its queries, and the other layers as the
    identity. *)
Definition sample_attention : MultiHeadAttention := λ query value key mask, query.

Definition sample_encoder : TransformerEncoder.t :=
  {| TransformerEncoder.attention := sample_attention;
     TransformerEncoder.dense_proj := id;
     TransformerEncoder.layernorm_1 := id;
     TransformerEncoder.layernorm_2 := id |}.

Definition sample_decoder : TransformerDecoder.t :=
  {| TransformerDecoder.attention_1 := sample_attention;
     TransformerDecoder.attention_2 := sample_attention;
     TransformerDecoder.dense_proj := id;
     TransformerDecoder.layernorm_1 := id;
     TransformerDecoder.layernorm_2 := id;
     TransformerDecoder.layernorm_3 := id |}.

Definition sample_block : TransformerBlock.t :=
  {| TransformerBlock.att := sample_attention;
     TransformerBlock.ffn := id;
     TransformerBlock.layernorm1 := id;
     TransformerBlock.layernorm2 := id;
     TransformerBlock.dropout1 := λ x training, x;
     TransformerBlock.dropout2 := λ x training, x |}.

(** A toy translator over a five-word vocabulary (the empty padding word,
    "[UNK]", "[start]", "[end]", "hola"): at step [i] it puts all the weight
    on "[end]" if [i = stop] and on "hola" otherwise. *)
Definition sample_vocabulary : list string :=
  [EmptyString; "[UNK]"; "[start]"; "[end]"; "hola"].

Definition sample_vectorization (width : nat) (sentences : list string)
  : list (list Z) :=
  (λ _, replicate width 0%Z) <$> sentences.

Definition sample_transformer (stop : nat)
    (encoder_inputs decoder_inputs : list (list Z)) : activations :=
  [(λ i, if decide (i = stop)
         then [0%Qc; 0%Qc; 0%Qc; 1%Qc; 0%Qc]
         else [0%Qc; 0%Qc; 0%Qc; 0%Qc; 1%Qc]) <$> seq 0 20].

(** The characters the random generator of the addition notebook draws. *)
Definition is_digit (c : ascii) : Prop := c ∈ list_ascii_of_string "0123456789".

(** What the generating loop of the addition notebook keeps true of its three
    variables, in terms of the pairs of numbers it has accepted so far. *)
Definition generated (accepted : list (nat * nat)) (st : addition.state) : Prop :=
  addition.questions st = (λ ab, addition.question ab.1 ab.2) <$> accepted
  ∧ addition.expected st = (λ ab, addition.answer ab.1 ab.2) <$> accepted
  ∧ addition.seen st = list_to_set (addition.sorted_pair <$> accepted)
  ∧ NoDup (addition.sorted_pair <$> accepted)
  ∧ (Z.of_nat (length accepted) ≤ addition.TRAINING_SIZE)%Z.

(** The text of a file whose lines are [lines], each ended by a newline,
    followed by [rest]. *)
Definition file_of_lines (lines : list string) (rest : string) : string :=
  foldr (λ line content, line +:+ String py.newline content) rest lines.

(** The line of the data file for an English and a Spanish sentence. *)
Definition pair_line (pair : string * string) : string :=
  pair.1 +:+ String py.tab pair.2.

Definition free_of (sep : ascii) (s : string) : Prop :=
  sep ∉ list_ascii_of_string s.

(** A rank-3 tensor of shape (B, T, D). *)
Definition has_shape {A} (B T D : nat) (x : list (list (list A))) : Prop :=
  length x = B
  ∧ Forall (λ m, length m = T ∧ Forall (λ v, length v = D) m) x.

(** An attention mask the attention layer accepts for [B] rows of [T]
    queries and [S] keys: none, one of shape (B, T, S), or one of shape
    (B, 1, S), which stands for every query. *)
Definition mask_fits (B T S : nat) (mask : option attention_mask) : Prop :=
  match mask with
  | None => True
  | Some m => has_shape B T S m ∨ has_shape B 1 S m
  end.

(** A layer built for vectors of width [D] that returns a tensor of the shape
    of its input; and an attention layer built for width [D] that, given
    queries of shape (B, T, D), keys and values of shape (B, S, D) and a mask
    it accepts, returns a tensor of the shape of the queries.  Nothing is
    asked of a layer where the framework's layer refuses its arguments. *)
Definition keeps_shape (D : nat) (f : activations → activations) : Prop :=
  ∀ B T x, has_shape B T D x → has_shape B T D (f x).
Definition attention_keeps_shape (D : nat) (f : MultiHeadAttention) : Prop :=
  ∀ B T S query value key mask,
    has_shape B T D query → has_shape B S D value → has_shape B S D key →
    mask_fits B T S mask →
    has_shape B T D (f query value key mask).

(** A reader of decimal integers, standing for [tf.strings.to_number] where a
    concrete one is needed. *)
Definition sample_to_number (s : string) : result Z :=
  match NilZero.int_of_string s with
  | Some i => Ok (Z.of_int i)
  | None => Raise InvalidArgumentError
  end.

(** A tagger whose scores for a token are 0 for the padding tag, the token
    id for the tag "O" and 1 for the tag "B-PER". *)
Definition sample_predict (x : list (list Z)) : list (list (list Qc)) :=
  (λ row : list Z, (λ token : Z, [0%Qc; Qc_of_Z token; 1%Qc]) <$> row) <$> x.

(** A batch of labels padded further, each row by some number of padding
    labels 0, and a batch of logits that got more positions at the end of
    each row, the logits of every added position satisfying [P]. *)
Definition padded_further (y_true y_true' : list (list Z)) : Prop :=
  Forall2 (λ row row', ∃ k, row' = row ++ replicate k 0%Z) y_true y_true'.
Definition extended (P : list float32 → Prop)
    (y_pred y_pred' : list (list (list float32))) : Prop :=
  Forall2 (λ row row', ∃ more, row' = row ++ more ∧ Forall P more)
    y_pred y_pred'.

(** A per-token loss for exercising the statements: the label plus the sum
    of the logits, refused for a negative label. *)
Definition sample_crossentropy (label : Z) (logits : list float32)
  : result float32 :=
  if decide (label < 0)%Z then Raise InvalidArgumentError
  else Ok (fadd (Finite (Qc_of_Z label)) (sum_list logits)).

(** A translation model whose predictions have a first row with at least
    [positions] positions, each holding a score for at least one and at most
    [words] words. *)
Definition well_formed_predictions (positions words : nat)
    (transformer : list (list Z) → list (list Z) → activations) : Prop :=
  ∀ encoder_inputs decoder_inputs,
    ∃ row rest,
      transformer encoder_inputs decoder_inputs = row :: rest
      ∧ positions ≤ length row
      ∧ Forall (λ scores, scores ≠ [] ∧ length scores ≤ words) row.

(** * Properties *)

(** ** The [result] monad and broadcasting *)

Lemma mapM_Forall2 {A B} (g : A → result B) (xs : list A) (zs : list B) :
  Forall2 (λ x z, g x = Ok z) xs zs → mapM g xs = Ok zs.
Proof.
  induction 1 as [|x z xs zs Hx _ IH]; [done|].
  cbn [mapM]. rewrite Hx. cbn. rewrite IH. done.
Qed.

Lemma zipM_Forall3 {A B C} (f : A → B → result C) xs ys zs :
  Forall3 (λ x y z, f x y = Ok z) xs ys zs → tf.zipM f xs ys = Ok zs.
Proof.
  induction 1 as [|x y z xs ys zs Hx _ IH]; [done|].
  cbn [tf.zipM]. rewrite Hx. cbn. rewrite IH. done.
Qed.

Lemma bcast_left {A B C} (f : A → B → result C) x ys zs :
  Forall2 (λ y z, f x y = Ok z) ys zs → tf.bcast f [x] ys = Ok zs.
Proof. intros H. cbn. by apply mapM_Forall2. Qed.

Lemma bcast_right {A B C} (f : A → B → result C) xs y zs :
  Forall2 (λ x z, f x y = Ok z) xs zs → tf.bcast f xs [y] = Ok zs.
Proof.
  intros H. destruct xs as [|x [|x' xs]].
  - by inversion H.
  - inversion H as [|? z ? zs' Hz Hzs]; subst. inversion Hzs; subst.
    cbn. by rewrite Hz.
  - change (tf.bcast f (x :: x' :: xs) [y])
      with (mapM (λ x, f x y) (x :: x' :: xs)).
    by apply mapM_Forall2.
Qed.

Lemma bcast_zip {A B C} (f : A → B → result C) xs ys zs :
  Forall3 (λ x y z, f x y = Ok z) xs ys zs → tf.bcast f xs ys = Ok zs.
Proof.
  intros H. destruct H as [|x y z xs ys zs Hx H]; [done|].
  destruct H as [|x' y' z' xs ys zs Hx' H].
  - cbn. by rewrite Hx.
  - change (tf.bcast f (x :: x' :: xs) (y :: y' :: ys))
      with (tf.zipM f (x :: x' :: xs) (y :: y' :: ys)).
    apply zipM_Forall3. by repeat constructor.
Qed.

Lemma bcast1_zip {A B C} (f : A → B → C) xs ys :
  length xs = length ys → tf.bcast1 f xs ys = Ok (zip_with f xs ys).
Proof.
  intros Hlen. apply bcast_zip.
  revert ys Hlen. induction xs as [|x xs IH]; intros [|y ys] Hlen;
    simplify_eq/=; constructor; auto.
Qed.

Lemma bcast1_left {A B C} (f : A → B → C) x ys :
  tf.bcast1 f [x] ys = Ok (f x <$> ys).
Proof. apply bcast_left. induction ys; constructor; done. Qed.

(** Index-wise reading of lists built with [Forall2]/[Forall3]. *)
Lemma Forall2_fmap_intro {A B} (P : A → B → Prop) (g : A → B) (xs : list A) :
  (∀ x, x ∈ xs → P x (g x)) → Forall2 P xs (g <$> xs).
Proof.
  induction xs as [|x xs IH]; intros H; constructor.
  - apply H. left.
  - apply IH. intros y Hy. apply H. by right.
Qed.

(** ** The causal mask builder *)

Lemma chunks_one {A} (n : nat) (l : list A) : tf.chunks n 1 l = [take n l].
Proof. done. Qed.

Lemma chunks_concat {A} (n : nat) (m : list (list A)) :
  Forall (λ row, length row = n) m → tf.chunks n (length m) (concat m) = m.
Proof.
  induction 1 as [|row m Hrow _ IH]; [done|].
  cbn [length concat tf.chunks].
  rewrite take_app_length' by done. rewrite drop_app_length' by done.
  by rewrite IH.
Qed.

Lemma length_concat_square {A} (n k : nat) (m : list (list A)) :
  length m = k → Forall (λ row, length row = n) m → length (concat m) = k * n.
Proof.
  intros <- H. induction H as [|row m Hrow _ IH]; [done|].
  cbn. rewrite length_app, IH, Hrow. lia.
Qed.

Lemma tile_axis_one {A} (x : list A) : tf.tile_axis 1 x = x.
Proof. unfold tf.tile_axis. cbn. by rewrite app_nil_r. Qed.

Lemma tile_axis_singleton {A} (m : nat) (x : A) :
  tf.tile_axis m [x] = replicate m x.
Proof. unfold tf.tile_axis. induction m; cbn; by f_equal. Qed.

Lemma greater_equal_range (L : nat) :
  tf.greater_equal_2_1 (tf.newaxis_last (tf.range L)) (tf.range L)
  = Ok ((λ i : Z, Z.geb i <$> tf.range L) <$> tf.range L).
Proof.
  unfold tf.greater_equal_2_1, tf.bcast2, tf.newaxis_last.
  apply bcast_right, Forall2_fmap, Forall_Forall2_diag, Forall_forall.
  intros i _. apply bcast1_left.
Qed.

Lemma cast_geb_range (L : nat) :
  fmap (M:=list) (fmap (M:=list) tf.cast_int32)
    ((λ i : Z, Z.geb i <$> tf.range L) <$> tf.range L)
  = lower_triangular L.
Proof.
  unfold lower_triangular, tf.range.
  rewrite <- !list_fmap_compose. apply list_fmap_ext. intros _ i _. cbn.
  rewrite <- !list_fmap_compose. apply list_fmap_ext. intros _ j _. cbn.
  unfold tf.cast_int32. case_decide.
  - rewrite (proj2 (Z.geb_le _ _)) by lia. done.
  - destruct (Z.geb_spec (Z.of_nat i) (Z.of_nat j)); [lia|done].
Qed.

Lemma lower_triangular_rows (L : nat) :
  length (lower_triangular L) = L
  ∧ Forall (λ row, length row = L) (lower_triangular L).
Proof.
  unfold lower_triangular. split.
  - by rewrite length_fmap, length_seq.
  - apply Forall_fmap, Forall_forall. intros i _. cbn.
    by rewrite length_fmap, length_seq.
Qed.

Lemma get_causal_attention_mask_value (inputs : activations) :
  TransformerDecoder.get_causal_attention_mask inputs
  = Ok (replicate (tf.shape0 inputs) (lower_triangular (tf.shape1 inputs))).
Proof.
  unfold TransformerDecoder.get_causal_attention_mask.
  set (L := tf.shape1 inputs). set (B := tf.shape0 inputs).
  rewrite greater_equal_range. cbn [mbind result_bind].
  rewrite cast_geb_range.
  destruct (lower_triangular_rows L) as [Hlen Hrows].
  unfold tf.reshape_2_3.
  rewrite decide_True by (rewrite (length_concat_square L L); [lia|done|done]).
  cbn [mbind result_bind].
  replace (1 * L) with (length (lower_triangular L)) by lia.
  rewrite chunks_concat by done. rewrite chunks_one.
  rewrite take_ge by lia.
  cbn [app tf.tile fmap list_fmap].
  rewrite !tile_axis_one.
  replace (tf.tile_axis 1 <$> lower_triangular L) with (lower_triangular L).
  - by rewrite tile_axis_singleton.
  - rewrite <- (list_fmap_id (lower_triangular L)) at 1.
    apply list_fmap_ext. intros _ row _. by rewrite tile_axis_one.
Qed.

Lemma lower_triangular_entry (L i j : nat) :
  i < L → j < L →
  entry2 (lower_triangular L) i j = Some (if decide (j ≤ i) then 1%Z else 0%Z).
Proof.
  intros Hi Hj. unfold entry2, lower_triangular.
  rewrite list_lookup_fmap, lookup_seq_lt by done. cbn.
  rewrite list_lookup_fmap, lookup_seq_lt by done. done.
Qed.

Lemma count_row_ones (i n : nat) :
  length (filter (λ v, v = 1%Z)
            ((λ j, if decide (j ≤ i) then 1%Z else 0%Z) <$> seq 0 n))
  = n `min` S i.
Proof.
  induction n as [|n IH]; [done|].
  rewrite seq_S, fmap_app, filter_app, length_app, IH.
  cbn [fmap list_fmap Nat.add]. rewrite filter_singleton by exact [].
  repeat case_decide; cbn [length]; lia.
Qed.

Lemma count_ones_prefix (L n : nat) :
  n ≤ L →
  2 * count_ones
        ((λ i, (λ j, if decide (j ≤ i) then 1%Z else 0%Z) <$> seq 0 L) <$> seq 0 n)
  = n * (n + 1).
Proof.
  unfold count_ones. induction n as [|n IH]; intros Hn; [done|].
  rewrite seq_S, fmap_app, concat_app, filter_app, length_app. cbn.
  rewrite app_nil_r, count_row_ones.
  specialize (IH ltac:(lia)). lia.
Qed.

Lemma count_ones_lower_triangular (L : nat) :
  count_ones (lower_triangular L) = L * (L + 1) / 2.
Proof.
  pose proof (count_ones_prefix L L ltac:(lia)) as H.
  unfold lower_triangular.
  apply Nat.div_unique_exact; lia.
Qed.

(** C2. For a batch of B >= 1 sequences of length L >= 1, the causal mask
    builder returns B copies of one (L, L) matrix whose entry (i, j) is 1 if
    j <= i and 0 otherwise; that matrix holds exactly L*(L+1)/2 ones, and it
    is the same for every batch index and for every other input of sequence
    length L, whatever its batch size and its values. *)
Theorem causal_mask_lower_triangular (inputs : activations) (B L : nat) :
  1 ≤ B → 1 ≤ L → tf.shape0 inputs = B → tf.shape1 inputs = L →
  ∃ mask,
    TransformerDecoder.get_causal_attention_mask inputs = Ok mask
    ∧ length mask = B
    ∧ (∀ b, b < B →
        ∃ slice, mask !! b = Some slice
          ∧ length slice = L
          ∧ Forall (λ row, length row = L) slice
          ∧ (∀ i j, i < L → j < L →
               entry2 slice i j = Some (if decide (j ≤ i) then 1%Z else 0%Z))
          ∧ count_ones slice = L * (L + 1) / 2)
    ∧ (∀ (inputs' : activations) mask' b b' slice slice',
         tf.shape1 inputs' = L →
         TransformerDecoder.get_causal_attention_mask inputs' = Ok mask' →
         mask !! b = Some slice → mask' !! b' = Some slice' →
         slice = slice').
Proof.
  intros HB HL <- <-.
  exists (replicate (tf.shape0 inputs) (lower_triangular (tf.shape1 inputs))).
  split; [apply get_causal_attention_mask_value|].
  split; [apply length_replicate|].
  split.
  - intros b Hb. exists (lower_triangular (tf.shape1 inputs)).
    split; [by apply lookup_replicate_2|].
    destruct (lower_triangular_rows (tf.shape1 inputs)) as [Hlen Hrows].
    repeat split; try done.
    + intros i j. apply lower_triangular_entry.
    + apply count_ones_lower_triangular.
  - intros inputs' mask' b b' slice slice' HL' Hmask' Hb Hb'.
    rewrite get_causal_attention_mask_value, HL' in Hmask'.
    injection Hmask' as <-.
    apply lookup_replicate_1 in Hb as [-> _].
    apply lookup_replicate_1 in Hb' as [-> _]. done.
Qed.

Lemma causal_mask_lower_triangular_witness :
  ∃ mask,
    TransformerDecoder.get_causal_attention_mask
      [[[1%Qc]; [2%Qc]; [0%Qc]]; [[1%Qc]; [0%Qc]; [0%Qc]]] = Ok mask
    ∧ length mask = 2
    ∧ (∀ b, b < 2 →
        ∃ slice, mask !! b = Some slice
          ∧ length slice = 3
          ∧ Forall (λ row, length row = 3) slice
          ∧ (∀ i j, i < 3 → j < 3 →
               entry2 slice i j = Some (if decide (j ≤ i) then 1%Z else 0%Z))
          ∧ count_ones slice = 3 * (3 + 1) / 2)
    ∧ (∀ (inputs' : activations) mask' b b' slice slice',
         tf.shape1 inputs' = 3 →
         TransformerDecoder.get_causal_attention_mask inputs' = Ok mask' →
         mask !! b = Some slice → mask' !! b' = Some slice' →
         slice = slice').
Proof.
  apply (causal_mask_lower_triangular
           [[[1%Qc]; [2%Qc]; [0%Qc]]; [[1%Qc]; [0%Qc]; [0%Qc]]] 2 3);
    [lia | lia | reflexivity | reflexivity].
Defined.

(** ** The decoder's combined mask *)

Lemma combined_mask_value (mask : list (list bool)) (L : nat) :
  Forall (λ row, length row = L) mask →
  TransformerDecoder.combined_mask mask
    (replicate (length mask) (lower_triangular L))
  = Ok ((λ row, (λ c, zip_with Z.min (tf.cast_int32 <$> row) c)
                  <$> lower_triangular L) <$> mask).
Proof.
  intros Hmask. unfold TransformerDecoder.combined_mask, tf.minimum, tf.bcast3.
  apply bcast_zip. induction Hmask as [|row mask Hrow _ IH]; [constructor|].
  cbn [length replicate tf.newaxis_mid fmap list_fmap]. constructor; [|exact IH].
  unfold tf.bcast2. apply bcast_left, Forall2_fmap_intro.
  intros c Hc. apply bcast1_zip.
  rewrite length_fmap, Hrow.
  destruct (lower_triangular_rows L) as [_ Hrows].
  by rewrite (proj1 (Forall_forall _ _) Hrows c Hc).
Qed.

Lemma combined_mask_entry (mask : list (list bool)) (L b i j : nat) (p : bool) :
  entry2 mask b j = Some p → i < L → j < L →
  entry3 ((λ row, (λ c, zip_with Z.min (tf.cast_int32 <$> row) c)
                    <$> lower_triangular L) <$> mask) b i j
  = Some (Z.min (tf.cast_int32 p) (if decide (j ≤ i) then 1%Z else 0%Z)).
Proof.
  unfold entry3, entry2. intros Hp Hi Hj.
  rewrite list_lookup_fmap.
  destruct (mask !! b) as [row|]; [|done]. cbn in Hp |- *.
  rewrite list_lookup_fmap.
  pose proof (lower_triangular_entry L i j Hi Hj) as Hc. unfold entry2 in Hc.
  destruct (lower_triangular L !! i) as [c|]; [|done]. cbn in Hc |- *.
  rewrite lookup_zip_with, list_lookup_fmap, Hp, Hc. done.
Qed.

(** C1. With C the causal mask the decoder builds for its inputs and P the
    padding key mask (1 = attend-allowed), the combined mask of the decoder has
    entry (b, i, j) = min(C[b,i,j], P[b,j]) for every batch row b and all
    positions i, j < L: it is 0 whenever j > i or P[b,j] = 0 and 1 otherwise.
    For L = 4 and P = [1,1,1,0] the last column is all zeros and the first
    3x3 block is lower-triangular. *)
Theorem decoder_combined_mask
    (inputs : activations) (mask : list (list bool)) (B L : nat) :
  tf.shape0 inputs = B → tf.shape1 inputs = L →
  length mask = B → Forall (λ row, length row = L) mask →
  ∃ causal effective,
    TransformerDecoder.get_causal_attention_mask inputs = Ok causal
    ∧ TransformerDecoder.combined_mask mask causal = Ok effective
    ∧ (∀ b i j, b < B → i < L → j < L →
         ∃ c p,
           entry3 causal b i j = Some c
           ∧ entry2 mask b j = Some p
           ∧ entry3 effective b i j = Some (Z.min c (tf.cast_int32 p))
           ∧ entry3 effective b i j
             = Some (if decide (i < j ∨ p = false) then 0%Z else 1%Z))
    ∧ (L = 4 → ∀ b, mask !! b = Some [true; true; true; false] →
         effective !! b
         = Some [[1; 0; 0; 0]; [1; 1; 0; 0]; [1; 1; 1; 0]; [1; 1; 1; 0]]%Z).
Proof.
  intros <- <- HB HL. set (L := tf.shape1 inputs) in *.
  exists (replicate (tf.shape0 inputs) (lower_triangular L)),
    ((λ row, (λ c, zip_with Z.min (tf.cast_int32 <$> row) c)
               <$> lower_triangular L) <$> mask).
  split; [apply get_causal_attention_mask_value|].
  rewrite <- HB. split; [by apply combined_mask_value|].
  split.
  - intros b i j Hb Hi Hj.
    destruct (lookup_lt_is_Some_2 mask b) as [row Hrow]; [lia|].
    assert (length row = L) as Hlen
      by exact (proj1 (Forall_forall _ _) HL row
                  (list_elem_of_lookup_2 _ _ _ Hrow)).
    destruct (lookup_lt_is_Some_2 row j) as [p Hp]; [lia|].
    assert (entry2 mask b j = Some p) as Hbp
      by (unfold entry2; rewrite Hrow; exact Hp).
    exists (if decide (j ≤ i) then 1%Z else 0%Z), p.
    rewrite (combined_mask_entry mask L b i j p Hbp Hi Hj).
    split.
    { unfold entry3. rewrite lookup_replicate_2 by lia.
      by apply lower_triangular_entry. }
    split; [done|]. split; [by rewrite Z.min_comm|].
    destruct p; repeat case_decide; cbn; try done; try lia;
      exfalso; intuition (done || lia).
  - intros HL4 b Hb. rewrite list_lookup_fmap, Hb, HL4. reflexivity.
Qed.

Lemma decoder_combined_mask_witness :
  ∃ causal effective,
    TransformerDecoder.get_causal_attention_mask
      [[[1%Qc]; [1%Qc]; [1%Qc]; [0%Qc]]] = Ok causal
    ∧ TransformerDecoder.combined_mask [[true; true; true; false]] causal
      = Ok effective
    ∧ (∀ b i j, b < 1 → i < 4 → j < 4 →
         ∃ c p,
           entry3 causal b i j = Some c
           ∧ entry2 [[true; true; true; false]] b j = Some p
           ∧ entry3 effective b i j = Some (Z.min c (tf.cast_int32 p))
           ∧ entry3 effective b i j
             = Some (if decide (i < j ∨ p = false) then 0%Z else 1%Z))
    ∧ (4 = 4 → ∀ b, [[true; true; true; false]] !! b
                    = Some [true; true; true; false] →
         effective !! b
         = Some [[1; 0; 0; 0]; [1; 1; 0; 0]; [1; 1; 1; 0]; [1; 1; 1; 0]]%Z).
Proof.
  apply (decoder_combined_mask [[[1%Qc]; [1%Qc]; [1%Qc]; [0%Qc]]]
           [[true; true; true; false]] 1 4);
    [reflexivity | reflexivity | reflexivity | repeat constructor].
Defined.

(** ** Positional embeddings *)

(** C6. The mask the positional-embedding layer derives from a batch of
    token ids has the shape of the batch, and its entry (b, j) is true exactly
    when the token id at (b, j) is not 0. *)
Theorem compute_mask_marks_non_padding
    (self : PositionalEmbedding.t) (inputs : list (list Z))
    (mask : option (list (list bool))) (b j : nat) :
  entry2 (PositionalEmbedding.compute_mask self inputs mask) b j
  = (λ token : Z, bool_decide (token ≠ 0%Z)) <$> entry2 inputs b j.
Proof.
  unfold PositionalEmbedding.compute_mask, tf.not_equal_0, entry2.
  rewrite list_lookup_fmap. destruct (inputs !! b) as [row|]; [|done]. cbn.
  rewrite list_lookup_fmap. destruct (row !! j) as [token|]; [|done]. cbn.
  f_equal. destruct (Z.eqb_spec token 0).
  - by rewrite bool_decide_eq_false_2 by (intros H; apply H, e).
  - by rewrite bool_decide_eq_true_2.
Qed.

Lemma bcast2_zip {A B C} (f : A → B → C) (xs : list (list A)) (ys : list (list B)) :
  Forall2 (λ x y, length x = length y) xs ys →
  tf.bcast2 f xs ys = Ok (zip_with (zip_with f) xs ys).
Proof.
  intros H. apply bcast_zip.
  induction H as [|x y xs ys Hxy _ IH]; cbn; constructor; [|done].
  by apply bcast1_zip.
Qed.

Lemma range_lookup (n p : nat) : p < n → tf.range n !! p = Some (Z.of_nat p).
Proof.
  intros Hp. unfold tf.range. by rewrite list_lookup_fmap, lookup_seq_lt.
Qed.

Lemma rectangular_shape1 {A} (x : list (list A)) (L : nat) :
  Forall (λ row, length row = L) x →
  Forall (λ row, length row = tf.shape1 x) x.
Proof.
  destruct 1 as [|row x Hrow Hx]; [constructor|]. cbn. constructor; [done|].
  eapply Forall_impl; [exact Hx|]. cbn. intros ? ->. done.
Qed.

Lemma Embedding_row_valid (e : Embedding) (i : Z) :
  valid_index e i → Embedding_row e i = Ok (lookup e i).
Proof. intros Hi. unfold Embedding_row. by rewrite decide_True. Qed.

Lemma Embedding_row_invalid (e : Embedding) (i : Z) :
  ¬ valid_index e i → Embedding_row e i = Raise InvalidArgumentError.
Proof. intros Hi. unfold Embedding_row. by rewrite decide_False. Qed.

Lemma Embedding_call_1_value (e : Embedding) (x : list Z) :
  Forall (valid_index e) x → Embedding_call_1 e x = Ok (lookup e <$> x).
Proof.
  intros Hx. apply mapM_Forall2, Forall2_fmap_r, Forall_Forall2_diag.
  eapply Forall_impl; [exact Hx|]. intros i Hi. by apply Embedding_row_valid.
Qed.

Lemma Embedding_call_1_refuses (e : Embedding) (x : list Z) :
  ¬ Forall (valid_index e) x →
  Embedding_call_1 e x = Raise InvalidArgumentError.
Proof.
  unfold Embedding_call_1. induction x as [|i x IH]; intros Hx.
  { destruct Hx. constructor. }
  cbn [mapM]. destruct (decide (valid_index e i)) as [Hi|Hi].
  2:{ by rewrite Embedding_row_invalid. }
  rewrite Embedding_row_valid by done. cbn [mbind result_bind].
  rewrite IH; [done|]. intros Hall. apply Hx. by constructor.
Qed.

Lemma Embedding_call_2_value (e : Embedding) (x : list (list Z)) :
  Forall (Forall (valid_index e)) x →
  Embedding_call_2 e x
  = Ok (fmap (M:=list) (fmap (M:=list) (lookup e)) x).
Proof.
  intros Hx. apply mapM_Forall2, Forall2_fmap_r, Forall_Forall2_diag.
  eapply Forall_impl; [exact Hx|]. intros row Hrow.
  by apply Embedding_call_1_value.
Qed.

Lemma Embedding_call_2_refuses (e : Embedding) (x : list (list Z)) :
  ¬ Forall (Forall (valid_index e)) x →
  Embedding_call_2 e x = Raise InvalidArgumentError.
Proof.
  unfold Embedding_call_2. induction x as [|row x IH]; intros Hx.
  { destruct Hx. constructor. }
  cbn [mapM].
  destruct (decide (Forall (valid_index e) row)) as [Hrow|Hrow].
  - rewrite Embedding_call_1_value by done. cbn [mbind result_bind].
    rewrite IH; [done|]. intros Hall. apply Hx. by constructor.
  - by rewrite Embedding_call_1_refuses.
Qed.

Lemma Embedding_call_1_outcome (e : Embedding) (x : list Z) :
  (∃ v, Embedding_call_1 e x = Ok v)
  ∨ Embedding_call_1 e x = Raise InvalidArgumentError.
Proof.
  destruct (decide (Forall (valid_index e) x)).
  - left. eexists. by apply Embedding_call_1_value.
  - right. by apply Embedding_call_1_refuses.
Qed.

Lemma Embedding_call_2_outcome (e : Embedding) (x : list (list Z)) :
  (∃ v, Embedding_call_2 e x = Ok v)
  ∨ Embedding_call_2 e x = Raise InvalidArgumentError.
Proof.
  destruct (decide (Forall (Forall (valid_index e)) x)).
  - left. eexists. by apply Embedding_call_2_value.
  - right. by apply Embedding_call_2_refuses.
Qed.

Lemma positions_valid (e : Embedding) (L : nat) :
  L ≤ input_dim e → Forall (valid_index e) (tf.range L).
Proof.
  intros HL. apply Forall_fmap, Forall_forall. intros p Hp%elem_of_seq.
  unfold valid_index. cbn. lia.
Qed.

Lemma positions_refused (e : Embedding) (L : nat) :
  input_dim e < L →
  Embedding_call_1 e (tf.range L) = Raise InvalidArgumentError.
Proof.
  intros HL. apply Embedding_call_1_refuses. intros Hall.
  rewrite Forall_forall in Hall.
  specialize (Hall (Z.of_nat (input_dim e))). unfold valid_index in Hall.
  assert (0 ≤ Z.of_nat (input_dim e) < Z.of_nat (input_dim e))%Z; [|lia].
  apply Hall. apply list_elem_of_fmap. exists (input_dim e).
  split; [done|]. apply elem_of_seq. lia.
Qed.

Lemma PositionalEmbedding_call_value
    (self : PositionalEmbedding.t) (inputs : list (list Z)) (L : nat) :
  Embedding_ok (PositionalEmbedding.token_embeddings self) →
  Embedding_ok (PositionalEmbedding.position_embeddings self) →
  output_dim (PositionalEmbedding.token_embeddings self)
  = output_dim (PositionalEmbedding.position_embeddings self) →
  Forall (λ row, length row = L) inputs →
  tf.shape1 inputs ≤ input_dim (PositionalEmbedding.position_embeddings self) →
  Forall (Forall (valid_index (PositionalEmbedding.token_embeddings self))) inputs →
  let out :=
    (λ row,
       zip_with vector_add
         (lookup (PositionalEmbedding.token_embeddings self) <$> row)
         (lookup (PositionalEmbedding.position_embeddings self)
            <$> tf.range (tf.shape1 inputs))) <$> inputs in
  PositionalEmbedding.call self inputs = Ok out
  ∧ TokenAndPositionEmbedding.call
      {| TokenAndPositionEmbedding.token_emb :=
           PositionalEmbedding.token_embeddings self;
         TokenAndPositionEmbedding.pos_emb :=
           PositionalEmbedding.position_embeddings self |} inputs = Ok out.
Proof.
  intros Htok Hpos Hdim Hrect%rectangular_shape1 HL Hvalid out.
  assert (tf.add_3_2
            (fmap (M:=list)
               (fmap (M:=list) (lookup (PositionalEmbedding.token_embeddings self)))
               inputs)
            (lookup (PositionalEmbedding.position_embeddings self)
               <$> tf.range (tf.shape1 inputs)) = Ok out) as Hsum.
  { unfold tf.add_3_2, tf.bcast3.
    apply bcast_right, Forall2_fmap, Forall_Forall2_diag.
    eapply Forall_impl; [exact Hrect|]. cbn. intros row Hrow.
    apply bcast2_zip.
    apply Forall2_fmap, Forall2_true.
    - intros token position. by rewrite Htok, Hpos.
    - unfold tf.range. by rewrite length_fmap, length_seq. }
  unfold PositionalEmbedding.call, TokenAndPositionEmbedding.call.
  cbn [TokenAndPositionEmbedding.token_emb TokenAndPositionEmbedding.pos_emb].
  rewrite Embedding_call_2_value by done.
  rewrite Embedding_call_1_value by (by apply positions_valid).
  cbn [mbind result_bind]. done.
Qed.

Lemma PositionalEmbedding_call_refused
    (self : PositionalEmbedding.t) (inputs : list (list Z)) :
  input_dim (PositionalEmbedding.position_embeddings self) < tf.shape1 inputs
  ∨ ¬ Forall (Forall (valid_index (PositionalEmbedding.token_embeddings self)))
        inputs →
  PositionalEmbedding.call self inputs = Raise InvalidArgumentError
  ∧ TokenAndPositionEmbedding.call
      {| TokenAndPositionEmbedding.token_emb :=
           PositionalEmbedding.token_embeddings self;
         TokenAndPositionEmbedding.pos_emb :=
           PositionalEmbedding.position_embeddings self |} inputs
    = Raise InvalidArgumentError.
Proof.
  intros Hcase.
  unfold PositionalEmbedding.call, TokenAndPositionEmbedding.call.
  cbn [TokenAndPositionEmbedding.token_emb TokenAndPositionEmbedding.pos_emb].
  destruct Hcase as [HL|Hinvalid].
  - rewrite positions_refused by done.
    destruct (Embedding_call_2_outcome
                (PositionalEmbedding.token_embeddings self) inputs)
      as [[v ->]| ->]; split; reflexivity.
  - rewrite Embedding_call_2_refuses by done.
    destruct (Embedding_call_1_outcome
                (PositionalEmbedding.position_embeddings self)
                (tf.range (tf.shape1 inputs)))
      as [[v ->]| ->]; split; reflexivity.
Qed.

Lemma PositionalEmbedding_entry
    (tok pos : Embedding) (inputs : list (list Z)) (L b p : nat) (token : Z) :
  Forall (λ row, length row = L) inputs →
  entry2 inputs b p = Some token →
  entry2 ((λ row, zip_with vector_add (lookup tok <$> row)
                    (lookup pos <$> tf.range (tf.shape1 inputs))) <$> inputs) b p
  = Some (vector_add (lookup tok token) (lookup pos (Z.of_nat p))).
Proof.
  intros Hrect%rectangular_shape1. unfold entry2.
  rewrite list_lookup_fmap.
  destruct (inputs !! b) as [row|] eqn:Hrow; [|done]. cbn. intros Hp.
  assert (length row = tf.shape1 inputs) as Hlen
    by exact (proj1 (Forall_forall _ _) Hrect row
                (list_elem_of_lookup_2 _ _ _ Hrow)).
  rewrite lookup_zip_with, !list_lookup_fmap, Hp.
  rewrite range_lookup by (rewrite <- Hlen; by eapply lookup_lt_Some).
  done.
Qed.

Lemma shape1_le {A} (x : list (list A)) (L : nat) :
  Forall (λ row, length row = L) x → tf.shape1 x ≤ L.
Proof. destruct 1 as [|row x Hrow _]; cbn; lia. Qed.

(** C4 (amended). Given a batch of token ids of shape (B, L) whose ids have a
    row in the token table and whose length L is at most the number of rows
    of the position table, the positional-embedding combiner returns a tensor
    of shape (B, L, D) whose vector at (b, p) is
    token_embedding(token_ids[b,p]) + position_embedding(p), the position p
    being the same for every batch row; hence the vector at (b, p) is the same
    for any other batch of that shape holding the same token at (b, p).  The
    NER notebook's [TokenAndPositionEmbedding] computes the same tensor.  A
    batch longer than the position table, or one holding an id without a row
    in the token table, is refused by both with [InvalidArgumentError]. *)
Theorem positional_embedding_is_token_plus_position
    (self : PositionalEmbedding.t) (inputs : list (list Z)) (B L D : nat) :
  let tok := PositionalEmbedding.token_embeddings self in
  let pos := PositionalEmbedding.position_embeddings self in
  let ner := {| TokenAndPositionEmbedding.token_emb := tok;
                TokenAndPositionEmbedding.pos_emb := pos |} in
  Embedding_ok tok → Embedding_ok pos →
  output_dim tok = D → output_dim pos = D →
  length inputs = B → Forall (λ row, length row = L) inputs →
  (L ≤ input_dim pos → Forall (Forall (valid_index tok)) inputs →
   ∃ out,
     PositionalEmbedding.call self inputs = Ok out
     ∧ TokenAndPositionEmbedding.call ner inputs = Ok out
     ∧ length out = B
     ∧ Forall (λ row, length row = L ∧ Forall (λ v, length v = D) row) out
     ∧ (∀ b p token, entry2 inputs b p = Some token →
          entry2 out b p
          = Some (vector_add (lookup tok token) (lookup pos (Z.of_nat p))))
     ∧ (∀ (inputs' : list (list Z)) out' b p,
          Forall (λ row, length row = L) inputs' →
          PositionalEmbedding.call self inputs' = Ok out' →
          is_Some (entry2 inputs b p) →
          entry2 inputs' b p = entry2 inputs b p →
          entry2 out' b p = entry2 out b p))
  ∧ (0 < B → input_dim pos < L →
     PositionalEmbedding.call self inputs = Raise InvalidArgumentError
     ∧ TokenAndPositionEmbedding.call ner inputs = Raise InvalidArgumentError)
  ∧ (¬ Forall (Forall (valid_index tok)) inputs →
     PositionalEmbedding.call self inputs = Raise InvalidArgumentError
     ∧ TokenAndPositionEmbedding.call ner inputs = Raise InvalidArgumentError).
Proof.
  intros tok pos ner Htok Hpos HtokD HposD HB Hrect.
  assert (output_dim tok = output_dim pos) as Hdim by congruence.
  split_and!.
  - intros HL Hvalid.
    destruct (PositionalEmbedding_call_value self inputs L) as [Hcall Hner];
      [done..|pose proof (shape1_le inputs L Hrect); fold pos; lia|done|].
    eexists. split; [exact Hcall|]. split; [exact Hner|].
    split; [by rewrite length_fmap|].
    split.
    + apply Forall_fmap, Forall_forall. intros row Hin. cbn.
      pose proof (proj1 (Forall_forall _ _) Hrect row Hin) as Hrow.
      pose proof (proj1 (Forall_forall _ _) (rectangular_shape1 _ _ Hrect) row Hin)
        as Hrow'.
      cbn in Hrow, Hrow'. split.
      * rewrite length_zip_with, !length_fmap.
        unfold tf.range. rewrite length_fmap, length_seq. lia.
      * apply Forall_forall. intros v Hv.
        apply elem_of_lookup_zip_with in Hv as (i & x & y & -> & Hx & Hy).
        apply list_lookup_fmap_Some in Hx as (t & -> & _).
        apply list_lookup_fmap_Some in Hy as (q & -> & _).
        unfold vector_add. rewrite length_zip_with.
        fold tok pos. rewrite Htok, Hpos. lia.
    + split.
      * intros b p token Hp. by eapply PositionalEmbedding_entry.
      * intros inputs' out' b p Hrect' Hcall' [token Hp] Heq.
        destruct (decide (Forall (Forall (valid_index tok)) inputs'))
          as [Hvalid'|Hinvalid'].
        2:{ destruct (PositionalEmbedding_call_refused self inputs') as [Hr _];
              [by right|]. congruence. }
        destruct (PositionalEmbedding_call_value self inputs' L) as [Hvalue _];
          [done..|pose proof (shape1_le inputs' L Hrect'); fold pos; lia|done|].
        rewrite Hvalue in Hcall'. injection Hcall' as <-. fold tok pos.
        rewrite (PositionalEmbedding_entry tok pos inputs' L b p token)
          by (done || congruence).
        by rewrite (PositionalEmbedding_entry tok pos inputs L b p token).
  - intros HB0 HL. apply PositionalEmbedding_call_refused. left.
    destruct Hrect as [|row inputs' Hrow _]; [cbn in HB; lia|].
    cbn. fold pos. lia.
  - intros Hinvalid. apply PositionalEmbedding_call_refused. by right.
Qed.

Lemma positional_embedding_is_token_plus_position_witness :
  ∃ out,
    PositionalEmbedding.call sample_positional_embedding [[3; 0; 0]; [5; 7; 2]]%Z
    = Ok out
    ∧ length out = 2
    ∧ entry2 out 1 2
      = Some (vector_add (lookup (sample_embedding 10 0) 2%Z)
                (lookup (sample_embedding 3 100) 2%Z)).
Proof.
  destruct (positional_embedding_is_token_plus_position
              sample_positional_embedding [[3; 0; 0]; [5; 7; 2]]%Z 2 3 2)
    as [Hvalue _];
    [intros i; reflexivity | intros i; reflexivity | reflexivity | reflexivity
    | reflexivity | repeat constructor |].
  destruct Hvalue as (out & Hcall & _ & Hlen & _ & Hentry & _).
  - cbn. lia.
  - repeat constructor; unfold valid_index; cbn; lia.
  - exists out. split; [exact Hcall|]. split; [exact Hlen|].
    exact (Hentry 1 2 2%Z eq_refl).
Defined.

(** C4 as stated, for every batch, fails on a batch longer than the position
    table: the ids of [[1; 2; 3; 4]] all have a row in the token table of ten
    rows, the position table has three rows, and the lookup of position 3 is
    refused, in the translation notebook's layer and in the NER notebook's. *)
Lemma long_batch_is_refused :
  let inputs := [[1; 2; 3; 4]]%Z in
  Forall (Forall (valid_index (sample_embedding 10 0))) inputs
  ∧ input_dim (sample_embedding 3 100) < tf.shape1 inputs
  ∧ PositionalEmbedding.call sample_positional_embedding inputs
    = Raise InvalidArgumentError
  ∧ TokenAndPositionEmbedding.call
      {| TokenAndPositionEmbedding.token_emb := sample_embedding 10 0;
         TokenAndPositionEmbedding.pos_emb := sample_embedding 3 100 |} inputs
    = Raise InvalidArgumentError.
Proof.
  cbn zeta. split_and!.
  - repeat constructor; unfold valid_index; cbn; lia.
  - cbn. lia.
  - reflexivity.
  - reflexivity.
Qed.

(** ** Masks handed to the attention layers *)

(** Case analysis on the outcome of the next residual addition. *)
Ltac case_add :=
  match goal with
  | |- context [tf.add ?a ?b] => destruct (tf.add a b); cbn -[tf.add]
  end.

Lemma zip_with_fst_replicate {A} (l : list A) :
  zip_with (λ v (_ : unit), v) l (replicate (length l) tt) = l.
Proof. induction l; cbn; by f_equal. Qed.

Lemma Forall2_replicate_same {A B} (P : A → B → Prop) (n : nat) x y :
  P x y → Forall2 P (replicate n x) (replicate n y).
Proof. intros H. induction n; cbn; by constructor. Qed.

Lemma padding_mask_applied (mask : list (list bool)) (L : nat) :
  Forall (λ row, length row = L) mask →
  applied_mask (length mask) L L
    (Some (fmap (M:=list) (fmap (M:=list) (fmap (M:=list) tf.cast_int32))
             (tf.newaxis_mid mask)))
  = Ok ((λ row : list bool, replicate L (tf.cast_int32 <$> row)) <$> mask).
Proof.
  intros Hmask. unfold applied_mask, tf.broadcast_against, tf.bcast3.
  apply bcast_zip. induction Hmask as [|row mask Hrow _ IH]; [constructor|].
  cbn [length replicate tf.newaxis_mid fmap list_fmap]. constructor; [|exact IH].
  unfold tf.bcast2. apply bcast_left, Forall2_replicate_same.
  rewrite bcast1_zip by (by rewrite length_fmap, length_replicate).
  f_equal. rewrite <- Hrow, <- (length_fmap tf.cast_int32 row).
  apply zip_with_fst_replicate.
Qed.

Lemma TransformerEncoder_call_log
    (self : TransformerEncoder.t) (inputs : activations) (mask : list (list bool)) :
  (TransformerEncoder.call self inputs (Some mask)).1
  = [MHACall "attention"
       (Some (fmap (M:=list) (fmap (M:=list) (fmap (M:=list) tf.cast_int32))
                (tf.newaxis_mid mask)))].
Proof.
  unfold TransformerEncoder.call. cbn -[tf.add]. by repeat case_add.
Qed.

(** C5 (amended). In the translation notebook's encoder, called with a
    padding mask P of the shape of its batch, the only attention call applies
    the mask effective[b,i,j] = P[b,j] for every query position i: padding
    alone restricts attention, and a non-padding key is visible from earlier
    and later queries alike.  The NER notebook's [TransformerBlock] calls its
    attention layer without a mask, which keeps every score. *)
Theorem encoder_attends_by_padding_only
    (self : TransformerEncoder.t) (inputs : activations)
    (mask : list (list bool)) (B L : nat) :
  tf.shape0 inputs = B → tf.shape1 inputs = L →
  length mask = B → Forall (λ row, length row = L) mask →
  attends_by_padding_only
    (TransformerEncoder.call self inputs (Some mask)).1 mask B L
  ∧ (∀ effective b i j,
       applied_mask B L L
         (Some (fmap (M:=list) (fmap (M:=list) (fmap (M:=list) tf.cast_int32))
                  (tf.newaxis_mid mask))) = Ok effective →
       entry2 mask b j = Some true → i < L →
       entry3 effective b i j = Some 1%Z)
  ∧ (∀ (block : TransformerBlock.t) (x : activations) (training : bool),
       (TransformerBlock.call block x training).1 = [MHACall "att" None])
  ∧ applied_mask B L L None = Ok (replicate B (replicate L (replicate L 1%Z))).
Proof.
  intros _ _ <- Hmask.
  assert (∀ b i j p, entry2 mask b j = Some p → i < L →
            entry3 ((λ row : list bool, replicate L (tf.cast_int32 <$> row)) <$> mask) b i j
            = Some (tf.cast_int32 p)) as Hentry.
  { intros b i j p Hp Hi. unfold entry3, entry2 in *.
    rewrite list_lookup_fmap. destruct (mask !! b) as [row|]; [|done]. cbn in *.
    rewrite lookup_replicate_2 by done. cbn.
    by rewrite list_lookup_fmap, Hp. }
  split_and!.
  - eexists _, _, _. split; [apply TransformerEncoder_call_log|].
    split; [by apply padding_mask_applied|]. exact Hentry.
  - intros effective b i j Heff Hp Hi.
    rewrite padding_mask_applied in Heff by done. injection Heff as <-.
    by apply (Hentry b i j true).
  - intros block x training. unfold TransformerBlock.call. cbn -[tf.add].
    by repeat case_add.
  - reflexivity.
Qed.

Lemma encoder_attends_by_padding_only_witness :
  attends_by_padding_only
    (TransformerEncoder.call sample_encoder [[[1%Qc]; [0%Qc]]]
       (Some [[true; false]])).1
    [[true; false]] 1 2.
Proof.
  apply (encoder_attends_by_padding_only sample_encoder [[[1%Qc]; [0%Qc]]]
           [[true; false]] 1 2);
    [reflexivity | reflexivity | reflexivity | repeat constructor].
Defined.

(** C5 as stated also covers the NER notebook's [TransformerBlock]; there the
    attention layer is called without any mask, so a padded key (token id 0,
    position 1 of the batch [[5; 0]]) stays visible. *)
Lemma ner_block_attends_to_padding :
  ¬ attends_by_padding_only
      (TransformerBlock.call sample_block [[[1%Qc]; [0%Qc]]] false).1
      (tf.not_equal_0 [[5; 0]]%Z) 1 2.
Proof.
  intros (layer & mask & effective & Hlog & Happlied & Hentry).
  injection Hlog as _ <-. injection Happlied as <-.
  specialize (Hentry 0 0 1 false eq_refl ltac:(lia)). discriminate Hentry.
Qed.

Lemma add_same_shape (x y : activations) :
  same_shape x y → ∃ z, tf.add x y = Ok z.
Proof.
  intros H. eexists. unfold tf.add, tf.bcast3. apply bcast_zip.
  instantiate (1 := zip_with (zip_with (zip_with Qcplus)) x y).
  induction H as [|a b x y Hab _ IH]; cbn; constructor; [|done].
  by apply bcast2_zip.
Qed.

(** C9. Called with [mask = None], the encoder of the translation notebook
    raises [UnboundLocalError] for [padding_mask] before its attention layer
    is invoked.  The decoder first runs its self-attention on the causal mask
    and then raises the same error when it builds the arguments of the
    cross-attention call; this is so for every self-attention layer that
    returns a tensor of the shape of its queries.  Whatever the layers are,
    the decoder does not return normally and never invokes the
    cross-attention. *)
Theorem call_without_mask_is_unbound_local
    (encoder : TransformerEncoder.t) (decoder : TransformerDecoder.t)
    (inputs encoder_outputs : activations) :
  (∀ query value key mask,
     same_shape query (TransformerDecoder.attention_1 decoder query value key mask)) →
  TransformerEncoder.call encoder inputs None
  = ([], Raise (UnboundLocalError "padding_mask"))
  ∧ (∃ causal_mask,
       TransformerDecoder.get_causal_attention_mask inputs = Ok causal_mask
       ∧ TransformerDecoder.call decoder inputs encoder_outputs None
         = ([MHACall "attention_1" (Some causal_mask)],
            Raise (UnboundLocalError "padding_mask")))
  ∧ (∀ any_decoder : TransformerDecoder.t,
       ¬ is_Ok (TransformerDecoder.call any_decoder inputs encoder_outputs None).2
       ∧ ∀ m, MHACall "attention_2" m
              ∉ (TransformerDecoder.call any_decoder inputs encoder_outputs None).1).
Proof.
  intros Hshape. split; [done|]. split.
  - eexists. split; [apply get_causal_attention_mask_value|].
    unfold TransformerDecoder.call.
    rewrite get_causal_attention_mask_value. cbn.
    destruct (add_same_shape _ _ (Hshape inputs inputs inputs
      (Some (replicate (tf.shape0 inputs) (lower_triangular (tf.shape1 inputs))))))
      as [sum_1 ->].
    done.
  - intros any_decoder. unfold TransformerDecoder.call.
    rewrite get_causal_attention_mask_value. cbn -[tf.add].
    case_add; (split; [by intros []|]); intros m Hm;
      (apply elem_of_cons in Hm as [Hm|Hm];
       [discriminate Hm | by apply elem_of_nil in Hm]).
Qed.

Lemma call_without_mask_is_unbound_local_witness :
  TransformerEncoder.call sample_encoder [[[1%Qc]; [0%Qc]]] None
  = ([], Raise (UnboundLocalError "padding_mask"))
  ∧ ∃ causal_mask,
      TransformerDecoder.get_causal_attention_mask [[[1%Qc]; [0%Qc]]]
      = Ok causal_mask
      ∧ TransformerDecoder.call sample_decoder [[[1%Qc]; [0%Qc]]]
          [[[2%Qc]; [1%Qc]]] None
        = ([MHACall "attention_1" (Some causal_mask)],
           Raise (UnboundLocalError "padding_mask")).
Proof.
  destruct (call_without_mask_is_unbound_local sample_encoder sample_decoder
              [[[1%Qc]; [0%Qc]]] [[[2%Qc]; [1%Qc]]]) as (Hencoder & Hdecoder & _).
  { intros query value key mask. unfold same_shape. cbn.
    apply Forall_Forall2_diag, Forall_forall. intros m _.
    apply Forall_Forall2_diag, Forall_forall. done. }
  split; [exact Hencoder | exact Hdecoder].
Defined.

(** C3 at its failing input: one target row of length 4 whose last token is
    padding.  Whatever the layers are, the decoder hands its self-attention
    the causal mask alone, in which the padded key 3 is still visible to
    query 3; only the cross-attention receives the combined mask. *)
Theorem decoder_self_attention_ignores_padding
    (decoder : TransformerDecoder.t) (encoder_outputs : activations) :
  let inputs : activations := [[[1%Qc]; [1%Qc]; [1%Qc]; [0%Qc]]] in
  let mask := [[true; true; true; false]] in
  let causal := [[[1; 0; 0; 0]; [1; 1; 0; 0]; [1; 1; 1; 0]; [1; 1; 1; 1]]]%Z in
  let combined := [[[1; 0; 0; 0]; [1; 1; 0; 0]; [1; 1; 1; 0]; [1; 1; 1; 0]]]%Z in
  TransformerDecoder.combined_mask mask causal = Ok combined
  ∧ (∃ rest,
       (TransformerDecoder.call decoder inputs encoder_outputs (Some mask)).1
       = MHACall "attention_1" (Some causal) :: rest
       ∧ ∀ m, MHACall "attention_1" m ∉ rest)
  ∧ (TransformerDecoder.call sample_decoder inputs inputs (Some mask)).1
    = [MHACall "attention_1" (Some causal); MHACall "attention_2" (Some combined)]
  ∧ applied_mask 1 4 4 (Some causal) = Ok causal
  ∧ entry2 mask 0 3 = Some false
  ∧ entry3 causal 0 3 3 = Some 1%Z
  ∧ entry3 combined 0 3 3 = Some 0%Z.
Proof.
  cbn zeta. split; [reflexivity|]. split.
  - unfold TransformerDecoder.call.
    change (TransformerDecoder.get_causal_attention_mask
              [[[1%Qc]; [1%Qc]; [1%Qc]; [0%Qc]]])
      with (Ok [[[1; 0; 0; 0]; [1; 1; 0; 0]; [1; 1; 1; 0]; [1; 1; 1; 1]]]%Z).
    cbn [lift tbind].
    change (TransformerDecoder.combined_mask [[true; true; true; false]]
              [[[1; 0; 0; 0]; [1; 1; 0; 0]; [1; 1; 1; 0]; [1; 1; 1; 1]]]%Z)
      with (Ok [[[1; 0; 0; 0]; [1; 1; 0; 0]; [1; 1; 1; 0]; [1; 1; 1; 0]]]%Z).
    cbn -[tf.add].
    repeat case_add; eexists; (split; [reflexivity|]); intros m Hm;
      repeat (apply elem_of_cons in Hm as [Hm|Hm]; [discriminate Hm|]);
      by apply elem_of_nil in Hm.
  - repeat split; reflexivity.
Qed.

(** ** The masked loss of the NER notebook *)

Lemma fadd_0_l (x : float32) : fadd (Finite 0%Qc) x = x.
Proof. destruct x; cbn; [|done..]. by rewrite Qcplus_0_l. Qed.

Lemma fadd_0_r (x : float32) : fadd x (Finite 0%Qc) = x.
Proof. destruct x; cbn; [|done..]. by rewrite Qcplus_0_r. Qed.

Lemma fadd_NaN_r (x : float32) : fadd x NaN = NaN.
Proof. by destruct x. Qed.

Lemma fadd_assoc (x y z : float32) :
  fadd x (fadd y z) = fadd (fadd x y) z.
Proof.
  destruct x as [a|[]|], y as [b|[]|], z as [c|[]|]; cbn; try done.
  by rewrite Qcplus_assoc.
Qed.

Lemma fmul_1_r (x : float32) : fmul x (Finite 1%Qc) = x.
Proof.
  destruct x as [q|s|]; cbn; [by rewrite Qcmult_1_r| |done].
  rewrite decide_False by done. by rewrite decide_True.
Qed.

Lemma fmul_0_r_finite (x : float32) :
  is_finite x → fmul x (Finite 0%Qc) = Finite 0%Qc.
Proof. intros [q ->]. cbn. by rewrite Qcmult_0_r. Qed.

Lemma fmul_0_r_not_finite (x : float32) :
  ¬ is_finite x → fmul x (Finite 0%Qc) = NaN.
Proof.
  destruct x as [q|s|]; intros Hx; [|done..]. destruct Hx. by exists q.
Qed.

Lemma sum_list_app (l k : list float32) :
  sum_list (l ++ k) = fadd (sum_list l) (sum_list k).
Proof.
  unfold sum_list. induction l as [|x l IH]; cbn [foldr app].
  - by rewrite fadd_0_l.
  - by rewrite IH, fadd_assoc.
Qed.

Lemma sum_list_NaN (l : list float32) : NaN ∈ l → sum_list l = NaN.
Proof.
  unfold sum_list. induction l as [|x l IH]; intros Hin.
  { by apply elem_of_nil in Hin. }
  cbn [foldr]. apply elem_of_cons in Hin as [<-|Hin]; [done|].
  rewrite IH by done. apply fadd_NaN_r.
Qed.

Lemma zipM_Ok_inv {A B C} (f : A → B → result C) xs ys zs :
  tf.zipM f xs ys = Ok zs → Forall3 (λ x y z, f x y = Ok z) xs ys zs.
Proof.
  revert ys zs. induction xs as [|x xs IH]; intros [|y ys] zs H; cbn in H;
    try done.
  { injection H as <-. constructor. }
  destruct (f x y) as [z|] eqn:Hz; cbn [mbind result_bind] in H; [|done].
  destruct (tf.zipM f xs ys) as [zs'|] eqn:Hzs; cbn [mbind result_bind] in H;
    [|done].
  injection H as <-. constructor; [done|by apply IH].
Qed.

Lemma loss_fn_shape (crossentropy : Z → list float32 → result float32)
    (y_true : list (list Z)) (y_pred : list (list (list float32)))
    (loss : list (list float32)) :
  CustomNonPaddingTokenLoss.loss_fn crossentropy y_true y_pred = Ok loss →
  Forall2 (λ labels losses, length labels = length losses) y_true loss.
Proof.
  intros H%zipM_Ok_inv.
  induction H as [|labels logits losses y_true y_pred loss Hrow _ IH];
    constructor; [|done].
  apply zipM_Ok_inv in Hrow. clear -Hrow.
  induction Hrow; cbn; by f_equal.
Qed.

Lemma masked_row_sum (labels : list Z) (losses : list float32) :
  Forall (λ token, ¬ non_padding token → is_finite token.2) (zip labels losses) →
  sum_list (zip_with fmul losses
              (tf.cast_float32 <$> ((λ t : Z, (0 <? t)%Z) <$> labels)))
  = sum_list (snd <$> filter non_padding (zip labels losses)).
Proof.
  revert losses. induction labels as [|label labels IH]; intros [|x losses] Hfin;
    try done.
  cbn [zip_with fmap list_fmap] in *. apply Forall_cons in Hfin as [Hx Hfin].
  unfold sum_list in *. cbn [foldr].
  rewrite IH by done. rewrite filter_cons.
  destruct (Z.ltb_spec 0 label); cbn [tf.cast_float32].
  - rewrite decide_True by done. cbn. by rewrite fmul_1_r.
  - rewrite decide_False by (unfold non_padding; cbn; lia).
    rewrite fmul_0_r_finite by (apply Hx; unfold non_padding; cbn; lia).
    by rewrite fadd_0_l.
Qed.

Lemma masked_sum (y_true : list (list Z)) (loss : list (list float32)) :
  Forall (λ token, ¬ non_padding token → is_finite token.2)
    (token_losses y_true loss) →
  tf.reduce_sum
    (zip_with (zip_with fmul) loss
       (fmap (M:=list) (fmap (M:=list) tf.cast_float32) (tf.greater_0 y_true)))
  = restricted_loss_sum y_true loss.
Proof.
  unfold restricted_loss_sum, token_losses, tf.greater_0.
  change (tf.reduce_sum ?x) with (sum_list (concat x)). revert loss.
  induction y_true as [|labels y_true IH]; intros [|losses loss] Hfin; try done.
  cbn [zip_with fmap list_fmap concat] in *.
  apply Forall_app in Hfin as [Hrow Hfin].
  rewrite filter_app, fmap_app, !sum_list_app, <- IH by done.
  f_equal. by apply masked_row_sum.
Qed.

Lemma masked_row_NaN (labels : list Z) (losses : list float32) :
  Exists (λ token, ¬ non_padding token ∧ ¬ is_finite token.2) (zip labels losses) →
  NaN ∈ zip_with fmul losses
          (tf.cast_float32 <$> ((λ t : Z, (0 <? t)%Z) <$> labels)).
Proof.
  revert losses. induction labels as [|label labels IH]; intros [|x losses] Hbad;
    try by inversion Hbad.
  cbn [zip_with fmap list_fmap] in *.
  apply Exists_cons in Hbad as [[Hpad Hx]|Hbad]; [|right; by apply IH].
  unfold non_padding in Hpad. cbn in Hpad, Hx.
  destruct (Z.ltb_spec 0 label); [lia|]. cbn [tf.cast_float32].
  rewrite fmul_0_r_not_finite by done. left.
Qed.

Lemma masked_sum_NaN (y_true : list (list Z)) (loss : list (list float32)) :
  Exists (λ token, ¬ non_padding token ∧ ¬ is_finite token.2)
    (token_losses y_true loss) →
  tf.reduce_sum
    (zip_with (zip_with fmul) loss
       (fmap (M:=list) (fmap (M:=list) tf.cast_float32) (tf.greater_0 y_true)))
  = NaN.
Proof.
  intros Hbad. apply sum_list_NaN. revert loss Hbad.
  unfold token_losses, tf.greater_0.
  induction y_true as [|labels y_true IH]; intros [|losses loss] Hbad;
    try by inversion Hbad.
  cbn [zip_with fmap list_fmap concat] in *. apply elem_of_app.
  apply Exists_app in Hbad as [Hrow|Hbad]; [left|right; by apply IH].
  by apply masked_row_NaN.
Qed.

Lemma mask_row_sum (labels : list Z) :
  sum_list (tf.cast_float32 <$> ((λ t : Z, (0 <? t)%Z) <$> labels))
  = Finite (Qc_of_Z (Z.of_nat (length (filter (λ label, (0 < label)%Z) labels)))).
Proof.
  unfold sum_list. induction labels as [|label labels IH];
    [exact (f_equal Finite (eq_sym Z2Qc_inj_0))|].
  cbn [fmap list_fmap foldr]. rewrite IH, filter_cons.
  destruct (Z.ltb_spec 0 label); cbn [tf.cast_float32 fadd].
  - rewrite decide_True by done. cbn [length].
    by rewrite Nat2Z.inj_succ, <- Z.add_1_l, Z2Qc_inj_add, Z2Qc_inj_1.
  - rewrite decide_False by lia. by rewrite Qcplus_0_l.
Qed.

Lemma mask_sum (y_true : list (list Z)) :
  tf.reduce_sum
    (fmap (M:=list) (fmap (M:=list) tf.cast_float32) (tf.greater_0 y_true))
  = Finite (Qc_of_Z (Z.of_nat (count_non_padding y_true))).
Proof.
  unfold count_non_padding, tf.greater_0.
  change (tf.reduce_sum ?x) with (sum_list (concat x)).
  induction y_true as [|labels y_true IH];
    [exact (f_equal Finite (eq_sym Z2Qc_inj_0))|].
  cbn [fmap list_fmap concat].
  rewrite sum_list_app, filter_app, length_app, IH, mask_row_sum.
  cbn [fadd]. by rewrite Nat2Z.inj_add, Z2Qc_inj_add.
Qed.

Lemma CustomNonPaddingTokenLoss_call_value
    (crossentropy : Z → list float32 → result float32)
    (y_true : list (list Z)) (y_pred : list (list (list float32)))
    (loss : list (list float32)) :
  CustomNonPaddingTokenLoss.loss_fn crossentropy y_true y_pred = Ok loss →
  CustomNonPaddingTokenLoss.call crossentropy y_true y_pred
  = Ok (fdiv
          (tf.reduce_sum
             (zip_with (zip_with fmul) loss
                (fmap (M:=list) (fmap (M:=list) tf.cast_float32)
                   (tf.greater_0 y_true))))
          (Finite (Qc_of_Z (Z.of_nat (count_non_padding y_true))))).
Proof.
  intros Hloss. pose proof (loss_fn_shape _ _ _ _ Hloss) as Hshape.
  unfold CustomNonPaddingTokenLoss.call. rewrite Hloss.
  cbn [mbind result_bind]. unfold tf.multiply. rewrite bcast2_zip.
  - cbn [mbind result_bind]. by rewrite mask_sum.
  - unfold tf.greater_0. clear Hloss.
    induction Hshape as [|labels losses y_true loss Hlen _ IH]; cbn;
      constructor; [|done].
    rewrite !length_fmap. lia.
Qed.

(** C8. The NER loss is the mean of the per-token cross-entropy over the
    positions with [y_true > 0] only as long as the cross-entropy at every
    padding position is a finite number.  The code multiplies the loss of a
    padding position by 0 instead of leaving it out, so an infinite or NaN
    loss at a padding position turns the whole loss into NaN, whatever the
    losses of the real tokens are.  On the batch of one row with labels
    [2; 0], where the logit of the padding position is NaN, the mean over the
    non-padding position is 3 and the code returns NaN. *)
Theorem masked_loss_propagates_padding_nan
    (crossentropy : Z → list float32 → result float32)
    (y_true : list (list Z)) (y_pred : list (list (list float32)))
    (loss : list (list float32)) :
  CustomNonPaddingTokenLoss.loss_fn crossentropy y_true y_pred = Ok loss →
  (Forall (λ token, ¬ non_padding token → is_finite token.2)
     (token_losses y_true loss) →
   CustomNonPaddingTokenLoss.call crossentropy y_true y_pred
   = Ok (mean_over_non_padding y_true loss))
  ∧ (Exists (λ token, ¬ non_padding token ∧ ¬ is_finite token.2)
       (token_losses y_true loss) →
     CustomNonPaddingTokenLoss.call crossentropy y_true y_pred = Ok NaN)
  ∧ (let labels := [[2; 0]]%Z in
     let logits := [[[Finite 1%Qc]; [NaN]]] in
     let losses := [[Finite (Q2Qc 3); NaN]] in
     CustomNonPaddingTokenLoss.loss_fn sample_crossentropy labels logits
     = Ok losses
     ∧ mean_over_non_padding labels losses = Finite (Q2Qc 3)
     ∧ CustomNonPaddingTokenLoss.call sample_crossentropy labels logits
       = Ok NaN).
Proof.
  intros Hloss. rewrite (CustomNonPaddingTokenLoss_call_value _ _ _ _ Hloss).
  split_and!.
  - intros Hfinite. by rewrite masked_sum.
  - intros Hbad. by rewrite masked_sum_NaN.
  - cbn zeta. split_and!; vm_compute; reflexivity.
Qed.

Lemma masked_loss_propagates_padding_nan_witness :
  CustomNonPaddingTokenLoss.call sample_crossentropy
    [[2; 0; 1]; [1; 0; 0]]%Z
    [[[Finite 1%Qc]; [Finite 2%Qc]; [Finite 0%Qc]];
     [[Finite 0%Qc]; [Infinity true]; [Finite 1%Qc]]]
  = Ok NaN.
Proof.
  destruct (masked_loss_propagates_padding_nan sample_crossentropy
              [[2; 0; 1]; [1; 0; 0]]%Z
              [[[Finite 1%Qc]; [Finite 2%Qc]; [Finite 0%Qc]];
               [[Finite 0%Qc]; [Infinity true]; [Finite 1%Qc]]]
              [[Finite (Q2Qc 3); Finite 2%Qc; Finite 1%Qc];
               [Finite 1%Qc; Infinity true; Finite 1%Qc]])
    as (_ & Hnan & _).
  - vm_compute. reflexivity.
  - apply Hnan. unfold token_losses. cbn [zip_with concat app].
    do 4 right. left. split.
    + unfold non_padding. cbn. lia.
    + by intros [q Hq].
Defined.

(** ** The decoding loop *)

Section decoding_properties.

Variable eng_vectorization : list string → list (list Z).
Variable spa_vectorization : list string → list (list Z).
Variable get_vocabulary : list string.
Variable transformer : list (list Z) → list (list Z) → activations.

Let sampled := sample spa_vectorization get_vocabulary transformer.
Let loop := decode_loop spa_vectorization get_vocabulary transformer.

Lemma decode_loop_raise input i indices sentence e :
  sampled input sentence i = Raise e →
  loop input (i :: indices) sentence = ([], Raise e).
Proof.
  intros H. unfold loop, sampled in *. cbn [decode_loop].
  by rewrite H.
Qed.

Lemma decode_loop_end input i indices sentence :
  sampled input sentence i = Ok "[end]" →
  loop input (i :: indices) sentence
  = ([Sampled i "[end]"], Ok (sentence +:+ " " +:+ "[end]")).
Proof.
  intros H. unfold loop, sampled in *. cbn [decode_loop].
  by rewrite H.
Qed.

Lemma decode_loop_continue input i indices sentence tok :
  sampled input sentence i = Ok tok → tok ≠ "[end]" →
  loop input (i :: indices) sentence
  = (Sampled i tok :: (loop input indices (sentence +:+ " " +:+ tok)).1,
     (loop input indices (sentence +:+ " " +:+ tok)).2).
Proof.
  intros H Hne. unfold loop, sampled in *. cbn [decode_loop].
  rewrite H. cbn. rewrite bool_decide_eq_false_2 by done.
  by destruct (decode_loop _ _ _ _ _ _).
Qed.

Lemma decode_loop_bounded input bound first sentence :
  bounded_run first bound sentence
    (loop input (seq first bound) sentence).
Proof.
  revert first sentence. induction bound as [|bound IH]; intros first sentence.
  { unfold bounded_run. cbn. split_and!; try done.
    intros s [= <-]. split; [done|by left]. }
  cbn [seq].
  destruct (sampled input sentence first) as [tok|e] eqn:Hsample.
  2:{ rewrite (decode_loop_raise _ _ _ _ e) by done.
      unfold bounded_run. cbn. split_and!; try done; lia. }
  destruct (decide (tok = "[end]")) as [->|Hne].
  { rewrite decode_loop_end by done. unfold bounded_run. cbn. split_and!.
    - lia.
    - intros [|k] it; [|done]. intros [= <-]. exists "[end]".
      by rewrite Nat.add_0_r.
    - by intros [|k] i tok Hk; [|done].
    - intros s [= <-]. split; [done|]. right. by exists first.
    - done. }
  rewrite (decode_loop_continue _ _ _ _ tok) by done.
  destruct (IH (S first) (sentence +:+ " " +:+ tok))
    as (Hlen & Hnum & Hend & Hok & Hraise).
  set (run := loop input (seq (S first) bound) (sentence +:+ " " +:+ tok))
    in *.
  unfold bounded_run. cbn [fst snd length]. split_and!.
  - lia.
  - intros [|k] it; cbn.
    + intros [= <-]. exists tok. by rewrite Nat.add_0_r.
    + intros Hk. destruct (Hnum k it Hk) as [tok' ->]. exists tok'.
      f_equal. lia.
  - intros [|k] i tok' Hk Htok; cbn in Hk; [congruence|].
    destruct (Hend k i tok' Hk Htok) as [Hlast Hisok]. by rewrite Hlast.
  - intros s Hs. destruct (Hok s Hs) as [Hs' Hstop]. split; [exact Hs'|].
    destruct Hstop as [Hb|[i Hlast]]; [left; lia|].
    right. exists i. destruct run.1; [done|]. exact Hlast.
  - intros e He. specialize (Hraise e He). lia.
Qed.

End decoding_properties.

(** C7. Whatever the trained objects and the input sentence are, a run of
    [decode_sequence] performs at most max_decoded_sentence_length = 20
    iterations, numbered 0, 1, 2, ...; an iteration that samples "[end]" is
    the last one and the loop then returns; an iteration followed by another
    did not sample "[end]"; and the loop returns either after the end token or
    after the 20th iteration (an exception raised inside an iteration also
    falls within the bound). *)
Theorem decode_sequence_stops_at_end_or_bound
    (eng_vectorization spa_vectorization : list string → list (list Z))
    (get_vocabulary : list string)
    (transformer : list (list Z) → list (list Z) → activations)
    (input_sentence : string) :
  let run :=
    decode_sequence eng_vectorization spa_vectorization get_vocabulary
      transformer input_sentence in
  max_decoded_sentence_length = 20
  ∧ length run.1 ≤ max_decoded_sentence_length
  ∧ (∀ k it, run.1 !! k = Some it → ∃ tok, it = Sampled k tok)
  ∧ (∀ k tok, run.1 !! k = Some (Sampled k tok) →
       tok = "[end]" → S k = length run.1 ∧ is_Ok run.2)
  ∧ (∀ k tok, run.1 !! k = Some (Sampled k tok) →
       S k < length run.1 → tok ≠ "[end]")
  ∧ (∀ sentence, run.2 = Ok sentence →
       sentence = foldl append_token "[start]" run.1
       ∧ (length run.1 = max_decoded_sentence_length
          ∨ ∃ i, last run.1 = Some (Sampled i "[end]")))
  ∧ (∀ e, run.2 = Raise e → length run.1 < max_decoded_sentence_length).
Proof.
  intros run.
  destruct (decode_loop_bounded spa_vectorization get_vocabulary transformer
              (eng_vectorization [input_sentence]) max_decoded_sentence_length
              0 "[start]") as (Hlen & Hnum & Hend & Hok & Hraise).
  fold (decode_sequence eng_vectorization spa_vectorization get_vocabulary
          transformer input_sentence) in *.
  fold run in Hlen, Hnum, Hend, Hok, Hraise.
  split_and!; try done.
  - intros k tok Hk. by eapply Hend.
  - intros k tok Hk Hlt ->. destruct (Hend k k "[end]" Hk eq_refl) as [Hlast _].
    lia.
Qed.

Example decode_sequence_reaches_end :
  decode_sequence (sample_vectorization 20) (sample_vectorization 21)
    sample_vocabulary (sample_transformer 2) "hello"
  = ([Sampled 0 "hola"; Sampled 1 "hola"; Sampled 2 "[end]"],
     Ok "[start] hola hola [end]").
Proof. vm_compute. reflexivity. Qed.

Example decode_sequence_reaches_bound :
  length (decode_sequence (sample_vectorization 20) (sample_vectorization 21)
            sample_vocabulary (sample_transformer 20) "hello").1 = 20.
Proof. vm_compute. reflexivity. Qed.

(** ** The character table *)

Section dictionaries.

Context `{Countable K} {V : Type}.
Implicit Types (pairs : list (K * V)) (d : gmap K V).

Lemma dict_foldl_fresh pairs d k :
  k ∉ pairs.*1 → foldl (λ d kv, <[kv.1 := kv.2]> d) d pairs !! k = d !! k.
Proof.
  revert d. induction pairs as [|[k' v'] pairs IH]; intros d Hk; [done|].
  cbn in *. apply not_elem_of_cons in Hk as [Hne Hk].
  rewrite IH by done. by rewrite lookup_insert_ne.
Qed.

Lemma dict_foldl_lookup pairs d k v :
  NoDup pairs.*1 → (k, v) ∈ pairs →
  foldl (λ d kv, <[kv.1 := kv.2]> d) d pairs !! k = Some v.
Proof.
  revert d. induction pairs as [|[k' v'] pairs IH]; intros d Hnodup Hin.
  { by apply elem_of_nil in Hin. }
  cbn in *. apply NoDup_cons in Hnodup as [Hfresh Hnodup].
  apply elem_of_cons in Hin as [[= -> ->]|Hin].
  - rewrite dict_foldl_fresh by done. apply lookup_insert_eq.
  - by apply IH.
Qed.

Lemma dict_lookup pairs k v :
  NoDup pairs.*1 → (k, v) ∈ pairs → dict pairs !! k = Some v.
Proof. apply dict_foldl_lookup. Qed.

End dictionaries.

Lemma enumerate_elem_of {A} (l : list A) (i : nat) (x : A) :
  l !! i = Some x → (i, x) ∈ CharacterTable.enumerate l.
Proof.
  intros Hi. apply list_elem_of_lookup. exists i.
  unfold CharacterTable.enumerate. apply lookup_zip_Some. split; [|done].
  rewrite lookup_seq_lt; [done|]. by eapply lookup_lt_Some.
Qed.

Lemma enumerate_fst {A} (l : list A) :
  (CharacterTable.enumerate l).*1 = seq 0 (length l).
Proof. unfold CharacterTable.enumerate. apply fst_zip. by rewrite length_seq. Qed.

Lemma enumerate_snd {A} (l : list A) : (CharacterTable.enumerate l).*2 = l.
Proof. unfold CharacterTable.enumerate. apply snd_zip. by rewrite length_seq. Qed.

Lemma indices_char_lookup (chars : string) (i : nat) (c : ascii) :
  CharacterTable.chars (CharacterTable.init chars) !! i = Some c →
  CharacterTable.indices_char (CharacterTable.init chars) !! i = Some c.
Proof.
  intros Hi. cbn in *. apply dict_lookup; [|by apply enumerate_elem_of].
  rewrite enumerate_fst. apply NoDup_seq.
Qed.

Lemma chars_NoDup (chars : string) :
  NoDup (CharacterTable.chars (CharacterTable.init chars)).
Proof.
  cbn. rewrite merge_sort_Permutation. apply NoDup_remove_dups.
Qed.

Lemma char_indices_lookup (chars : string) (i : nat) (c : ascii) :
  CharacterTable.chars (CharacterTable.init chars) !! i = Some c →
  CharacterTable.char_indices (CharacterTable.init chars) !! c = Some i.
Proof.
  intros Hi. pose proof (chars_NoDup chars) as Hnodup. cbn in *.
  apply dict_lookup.
  - rewrite <- list_fmap_compose.
    erewrite list_fmap_ext; [by rewrite enumerate_snd|]. by intros ? [].
  - apply (list_elem_of_fmap_2 (λ ic : nat * ascii, (ic.2, ic.1)) _ (i, c)).
    by apply enumerate_elem_of.
Qed.

Lemma argmax_from_zeros (n best_index index : nat) (best : Qc) :
  Qcltb best 0%Qc = false →
  argmax_from best_index best index (replicate n 0%Qc) = best_index.
Proof.
  intros Hbest. revert index. induction n as [|n IH]; intros index; [done|].
  cbn [replicate argmax_from]. by rewrite Hbest.
Qed.

Lemma argmax_from_skip_zeros (n best_index index : nat) (v : list Qc) :
  argmax_from best_index 0%Qc index (replicate n 0%Qc ++ v)
  = argmax_from best_index 0%Qc (index + n) v.
Proof.
  revert index. induction n as [|n IH]; intros index.
  - by rewrite Nat.add_0_r.
  - cbn [replicate app argmax_from].
    change (Qcltb 0%Qc 0%Qc) with false. cbn iota.
    rewrite IH. f_equal. lia.
Qed.

Lemma argmax_one_hot (m j : nat) : j < m → argmax (one_hot m j) = Ok j.
Proof.
  intros Hj. unfold one_hot. rewrite insert_replicate_lt by done.
  destruct j as [|j].
  - cbn [replicate app argmax]. by rewrite argmax_from_zeros.
  - cbn [replicate app argmax]. rewrite argmax_from_skip_zeros.
    cbn [argmax_from]. change (Qcltb 0%Qc 1%Qc) with true. cbn iota.
    by rewrite argmax_from_zeros.
Qed.

Lemma setitem_in_bounds (n m i j : nat) (r : list (list Qc)) (v : Qc) :
  i < n → j < m →
  np.setitem {| shape := (n, m); rows := r |} i j v
  = Ok {| shape := (n, m); rows := alter (<[j := v]>) i r |}.
Proof.
  intros Hi Hj. unfold np.setitem. cbn [shape rows fst snd].
  by rewrite decide_True.
Qed.

(** The loop of [encode], started in the middle: the rows above [k] are
    already written, the rest of the array is still zero. *)
Lemma encode_loop (self : CharacterTable.t) (n m : nat) :
  ∀ (suffix : list ascii) (columns : list nat) (written : list (list Qc)),
    Forall2 (λ c j, CharacterTable.char_indices self !! c = Some j ∧ j < m)
      suffix columns →
    length written + length suffix ≤ n →
    foldl (λ (x : result ndarray) (ic : nat * ascii),
             x ← x;
             column ← getitem (CharacterTable.char_indices self) ic.2;
             np.setitem x ic.1 column 1%Qc)
      (Ok {| shape := (n, m);
             rows := written
                     ++ replicate (n - length written) (replicate m 0%Qc) |})
      (zip (seq (length written) (length suffix)) suffix)
    = Ok {| shape := (n, m);
            rows := written ++ (one_hot m <$> columns)
                    ++ replicate (n - length written - length suffix)
                         (replicate m 0%Qc) |}.
Proof.
  intros suffix columns written H. revert written.
  induction H as [|c j suffix columns [Hc Hj] _ IH]; intros written Hlen.
  { cbn. by rewrite Nat.sub_0_r. }
  cbn [length seq zip zip_with foldl] in *.
  cbn [mbind result_bind snd fst].
  assert (getitem (CharacterTable.char_indices self) c = Ok j) as ->
    by (unfold getitem; by rewrite Hc).
  cbn [mbind result_bind]. rewrite setitem_in_bounds by lia.
  replace (n - length written) with (S (n - S (length written))) by lia.
  cbn [replicate].
  rewrite <- (Nat.add_0_r (length written)) at 1.
  rewrite alter_app_r. cbn [alter list_alter].
  fold (one_hot m j).
  specialize (IH (written ++ [one_hot m j])).
  rewrite length_app in IH. cbn [length] in IH.
  replace (length written + 1) with (S (length written)) in IH by lia.
  rewrite <- !(assoc_L (++)) in IH. cbn [app] in IH.
  rewrite IH by lia. reflexivity.
Qed.

Lemma length_list_ascii_of_string (s : string) :
  length (list_ascii_of_string s) = String.length s.
Proof. induction s; cbn; by f_equal. Qed.

Lemma chars_columns (chars : string) (cs : list ascii) :
  (∀ c, c ∈ cs → c ∈ CharacterTable.chars (CharacterTable.init chars)) →
  ∃ columns,
    Forall2 (λ c j,
               CharacterTable.chars (CharacterTable.init chars) !! j = Some c)
      cs columns.
Proof.
  induction cs as [|c cs IH]; intros Hcs; [by exists []|].
  destruct IH as [columns Hcolumns].
  { intros c' Hc'. apply Hcs. by right. }
  destruct (list_elem_of_lookup_1 _ c (Hcs c ltac:(left))) as [j Hj].
  exists (j :: columns). by constructor.
Qed.

Lemma encode_value (chars C : string) (columns : list nat) :
  let self := CharacterTable.init chars in
  Forall2 (λ c j, CharacterTable.chars self !! j = Some c)
    (list_ascii_of_string C) columns →
  CharacterTable.encode self C (String.length C)
  = Ok {| shape := (String.length C, length (CharacterTable.chars self));
          rows := one_hot (length (CharacterTable.chars self)) <$> columns |}.
Proof.
  intros self Hcolumns. unfold CharacterTable.encode, CharacterTable.enumerate, np.zeros.
  rewrite <- length_list_ascii_of_string.
  pose proof (encode_loop self (length (list_ascii_of_string C))
                (length (CharacterTable.chars self))
                (list_ascii_of_string C) columns []) as Hloop.
  cbn [length app] in Hloop. rewrite Nat.sub_0_r in Hloop.
  rewrite Hloop; [|..|done].
  - by rewrite Nat.sub_diag, app_nil_r.
  - eapply Forall2_impl; [exact Hcolumns|]. intros c j Hj. cbn beta in *. split.
    + by apply char_indices_lookup.
    + by eapply lookup_lt_Some.
Qed.

Lemma decode_value (chars : string) (cs : list ascii) (columns : list nat) (n : nat) :
  let self := CharacterTable.init chars in
  CharacterTable.chars self ≠ [] →
  Forall2 (λ c j, CharacterTable.chars self !! j = Some c) cs columns →
  CharacterTable.decode self
    (CharacterTable.Scores
       {| shape := (n, length (CharacterTable.chars self));
          rows := one_hot (length (CharacterTable.chars self)) <$> columns |})
    true
  = Ok (string_of_list_ascii cs).
Proof.
  intros self Hne Hcolumns. subst self.
  unfold CharacterTable.decode, np.argmax_last_axis.
  cbn [shape rows snd].
  rewrite decide_False
    by (by destruct (CharacterTable.chars (CharacterTable.init chars))).
  rewrite (mapM_Forall2 argmax _ columns).
  - cbn [mbind result_bind].
    rewrite (mapM_Forall2 _ _ cs); [done|].
    apply Forall2_flip. eapply Forall2_impl; [exact Hcolumns|].
    intros c j Hj. cbn beta in *. unfold getitem.
    by rewrite (indices_char_lookup chars j c Hj).
  - apply Forall2_fmap_l, Forall_Forall2_diag, Forall_forall. intros j Hj.
    apply argmax_one_hot.
    apply list_elem_of_lookup_1 in Hj as [i Hi].
    destruct (Forall2_lookup_r _ _ _ _ _ Hcolumns Hi) as (c & _ & Hc).
    by eapply lookup_lt_Some.
Qed.

#[local] Instance ascii_le_total : Total CharacterTable.ascii_le.
Proof. intros a b. unfold CharacterTable.ascii_le. lia. Qed.

Lemma chars_non_empty (chars : string) :
  chars ≠ EmptyString → CharacterTable.chars (CharacterTable.init chars) ≠ [].
Proof.
  intros Hne Hnil. destruct chars as [|a chars]; [done|].
  assert (a ∈ CharacterTable.chars (CharacterTable.init (String a chars))) as Ha.
  { cbn [CharacterTable.init CharacterTable.chars].
    rewrite merge_sort_Permutation, elem_of_remove_dups. left. }
  rewrite Hnil in Ha. by apply elem_of_nil in Ha.
Qed.

(** C10 (amended). For a table built from at least one character, whose
    character list is the sorted duplicate-free list of the given characters,
    and a string C all of whose characters belong to the table,
    [decode(encode(C, len(C)))] with [calc_argmax = True] returns C. *)
Theorem character_table_round_trip (chars C : string) :
  chars ≠ EmptyString →
  (∀ c, c ∈ list_ascii_of_string C →
        c ∈ CharacterTable.chars (CharacterTable.init chars)) →
  round_trips chars C
  ∧ Sorted CharacterTable.ascii_le (CharacterTable.chars (CharacterTable.init chars))
  ∧ NoDup (CharacterTable.chars (CharacterTable.init chars))
  ∧ (∀ c, c ∈ CharacterTable.chars (CharacterTable.init chars)
          ↔ c ∈ list_ascii_of_string chars).
Proof.
  intros Hne HC. split_and!.
  - destruct (chars_columns chars _ HC) as [columns Hcolumns].
    eexists. split; [by apply encode_value|].
    rewrite (decode_value chars (list_ascii_of_string C)).
    + by rewrite string_of_list_ascii_of_string.
    + by apply chars_non_empty.
    + done.
  - apply (Sorted_merge_sort _).
  - apply chars_NoDup.
  - intros c. cbn [CharacterTable.init CharacterTable.chars].
    by rewrite merge_sort_Permutation, elem_of_remove_dups.
Qed.

Lemma character_table_round_trip_witness : round_trips "0123456789+ " "12+345 ".
Proof.
  apply (character_table_round_trip "0123456789+ " "12+345 "); [done|].
  intros c Hc. vm_compute in Hc |- *.
  repeat (apply elem_of_cons in Hc as [->|Hc];
          [repeat first [by left | right]|]).
  by apply elem_of_nil in Hc.
Defined.

(** C10 as stated fails on the table built from no character at all: the
    empty string is a string over it, its encoding is a (0, 0) array, and
    [argmax] over an axis of size 0 raises [ValueError]. *)
Lemma empty_table_does_not_round_trip :
  let empty := EmptyString in
  (∀ c, c ∈ list_ascii_of_string empty →
        c ∈ CharacterTable.chars (CharacterTable.init empty))
  ∧ CharacterTable.encode (CharacterTable.init empty) empty (String.length empty)
    = Ok (np.zeros 0 0)
  ∧ CharacterTable.decode (CharacterTable.init empty)
      (CharacterTable.Scores (np.zeros 0 0)) true = Raise ValueError
  ∧ ¬ round_trips empty empty.
Proof.
  cbn zeta. split_and!.
  - intros c Hc. by apply elem_of_nil in Hc.
  - reflexivity.
  - reflexivity.
  - intros (x & Hencode & Hdecode).
    change (Ok (np.zeros 0 0) = Ok x) in Hencode. injection Hencode as <-.
    discriminate Hdecode.
Qed.

(** * Further properties of the modelled code *)

(** ** [CharacterTable]: the two dictionaries *)

Section more_dictionaries.

Context `{Countable K} {V : Type}.
Implicit Types (pairs : list (K * V)) (d : gmap K V).

Lemma dict_foldl_inv pairs d k v :
  foldl (λ d kv, <[kv.1 := kv.2]> d) d pairs !! k = Some v →
  (k, v) ∈ pairs ∨ d !! k = Some v.
Proof.
  revert d. induction pairs as [|[k' v'] pairs IH]; intros d Hk; [by right|].
  cbn in Hk. destruct (IH _ Hk) as [Hin|Hd].
  - left. by right.
  - destruct (decide (k' = k)) as [->|Hne].
    + rewrite lookup_insert_eq in Hd. injection Hd as ->. left. left.
    + rewrite lookup_insert_ne in Hd by done. by right.
Qed.

Lemma dict_lookup_inv pairs k v : dict pairs !! k = Some v → (k, v) ∈ pairs.
Proof.
  intros Hk. destruct (dict_foldl_inv pairs ∅ k v Hk) as [Hin|Hd]; [done|].
  by rewrite lookup_empty in Hd.
Qed.

End more_dictionaries.

Lemma enumerate_elem_of_inv {A} (l : list A) (i : nat) (x : A) :
  (i, x) ∈ CharacterTable.enumerate l → l !! i = Some x.
Proof.
  intros Hin. apply list_elem_of_lookup_1 in Hin as [k Hk].
  unfold CharacterTable.enumerate in Hk.
  apply lookup_zip_Some in Hk as [Hseq Hl].
  apply lookup_seq in Hseq as [-> _]. done.
Qed.

Lemma char_indices_lookup_inv (chars : string) (i : nat) (c : ascii) :
  CharacterTable.char_indices (CharacterTable.init chars) !! c = Some i →
  CharacterTable.chars (CharacterTable.init chars) !! i = Some c.
Proof.
  cbn. intros Hc%dict_lookup_inv.
  apply list_elem_of_fmap in Hc as ([i' c'] & [= -> ->] & Hin).
  by apply enumerate_elem_of_inv.
Qed.

Lemma indices_char_lookup_inv (chars : string) (i : nat) (c : ascii) :
  CharacterTable.indices_char (CharacterTable.init chars) !! i = Some c →
  CharacterTable.chars (CharacterTable.init chars) !! i = Some c.
Proof. cbn. intros Hc%dict_lookup_inv. by apply enumerate_elem_of_inv. Qed.

Lemma chars_elem_of (chars : string) (c : ascii) :
  c ∈ CharacterTable.chars (CharacterTable.init chars)
  ↔ c ∈ list_ascii_of_string chars.
Proof. cbn. by rewrite merge_sort_Permutation, elem_of_remove_dups. Qed.

(** X1. In every character table the two dictionaries are exactly the
    enumeration of the sorted character list read in both directions:
    [char_indices[c] = i] iff [chars[i] = c] iff [indices_char[i] = c]; a
    character outside the table and an index beyond it are missing keys. *)
Theorem character_table_dictionaries_mirror_chars
    (chars : string) (c : ascii) (i : nat) :
  let table := CharacterTable.init chars in
  (CharacterTable.char_indices table !! c = Some i
   ↔ CharacterTable.chars table !! i = Some c)
  ∧ (CharacterTable.indices_char table !! i = Some c
     ↔ CharacterTable.chars table !! i = Some c)
  ∧ (c ∉ list_ascii_of_string chars →
     getitem (CharacterTable.char_indices table) c = Raise KeyError)
  ∧ (length (CharacterTable.chars table) ≤ i →
     getitem (CharacterTable.indices_char table) i = Raise KeyError).
Proof.
  intros table. subst table. split_and!.
  - split; [apply char_indices_lookup_inv | apply char_indices_lookup].
  - split; [apply indices_char_lookup_inv | apply indices_char_lookup].
  - intros Hc. unfold getitem.
    destruct (CharacterTable.char_indices (CharacterTable.init chars) !! c)
      as [j|] eqn:Hj; [|done].
    exfalso. apply Hc, chars_elem_of, list_elem_of_lookup. exists j.
    by apply char_indices_lookup_inv.
  - intros Hi. unfold getitem.
    destruct (CharacterTable.indices_char (CharacterTable.init chars) !! i)
      as [c'|] eqn:Hc'; [|done].
    apply indices_char_lookup_inv, lookup_lt_Some in Hc'. lia.
Qed.

Lemma character_table_dictionaries_mirror_chars_witness :
  getitem (CharacterTable.char_indices (CharacterTable.init "0123456789+ "))
    "a"%char
  = Raise KeyError
  ∧ getitem (CharacterTable.indices_char (CharacterTable.init "0123456789+ ")) 12
    = Raise KeyError.
Proof.
  destruct (character_table_dictionaries_mirror_chars "0123456789+ " "a"%char 12)
    as (_ & _ & Hchar & Hindex).
  split.
  - apply Hchar. vm_compute. intros Hin.
    repeat (apply elem_of_cons in Hin as [Hin|Hin]; [discriminate Hin|]).
    by apply elem_of_nil in Hin.
  - apply Hindex. vm_compute. lia.
Defined.

(** ** [CharacterTable.encode]: padding rows and errors *)

Lemma encode_step_raise (self : CharacterTable.t) (e : exn)
    (rest : list (nat * ascii)) :
  foldl (λ (x : result ndarray) (ic : nat * ascii),
           x ← x;
           column ← getitem (CharacterTable.char_indices self) ic.2;
           np.setitem x ic.1 column 1%Qc)
    (Raise e) rest = Raise e.
Proof. induction rest as [|ic rest IH]; [done|]. exact IH. Qed.

Lemma enumerate_app_cons {A} (pre post : list A) (x : A) :
  CharacterTable.enumerate (pre ++ x :: post)
  = zip (seq 0 (length pre)) pre
    ++ (length pre, x) :: zip (seq (S (length pre)) (length post)) post.
Proof.
  unfold CharacterTable.enumerate.
  rewrite length_app. cbn [length]. rewrite seq_app. cbn [seq Nat.add].
  rewrite zip_with_app by (by rewrite length_seq). done.
Qed.

Lemma table_columns (chars : string) (cs : list ascii) (columns : list nat) :
  Forall2 (λ c j, CharacterTable.chars (CharacterTable.init chars) !! j = Some c)
    cs columns →
  Forall2 (λ c j,
             CharacterTable.char_indices (CharacterTable.init chars) !! c = Some j
             ∧ j < length (CharacterTable.chars (CharacterTable.init chars)))
    cs columns.
Proof.
  intros H. eapply Forall2_impl; [exact H|]. intros c j Hj. cbn beta in *. split.
  - by apply char_indices_lookup.
  - by eapply lookup_lt_Some.
Qed.

Lemma encode_rows (chars C : string) (columns : list nat) (num_rows : nat) :
  let self := CharacterTable.init chars in
  Forall2 (λ c j, CharacterTable.chars self !! j = Some c)
    (list_ascii_of_string C) columns →
  String.length C ≤ num_rows →
  CharacterTable.encode self C num_rows
  = Ok {| shape := (num_rows, length (CharacterTable.chars self));
          rows := (one_hot (length (CharacterTable.chars self)) <$> columns)
                  ++ replicate (num_rows - String.length C)
                       (replicate (length (CharacterTable.chars self)) 0%Qc) |}.
Proof.
  intros self Hcolumns Hrows. subst self.
  unfold CharacterTable.encode, CharacterTable.enumerate, np.zeros.
  rewrite <- length_list_ascii_of_string in *.
  pose proof (encode_loop (CharacterTable.init chars) num_rows
                (length (CharacterTable.chars (CharacterTable.init chars)))
                (list_ascii_of_string C) columns []
                (table_columns _ _ _ Hcolumns)) as Hloop.
  cbn [length app] in Hloop. rewrite Nat.sub_0_r in Hloop.
  by rewrite Hloop.
Qed.

(** X2. [encode] fails at the first character it cannot place: a character
    that is not in the table raises [KeyError], and a character of the table
    at a position beyond [num_rows] raises [IndexError]; the characters before
    it do not matter as long as they could be placed. *)
Theorem encode_fails_at_first_bad_character
    (chars C : string) (num_rows : nat) (pre post : list ascii) (c : ascii) :
  let self := CharacterTable.init chars in
  list_ascii_of_string C = pre ++ c :: post →
  (∀ c', c' ∈ pre → c' ∈ CharacterTable.chars self) →
  length pre ≤ num_rows →
  (c ∉ CharacterTable.chars self →
   CharacterTable.encode self C num_rows = Raise KeyError)
  ∧ (c ∈ CharacterTable.chars self → length pre = num_rows →
     CharacterTable.encode self C num_rows = Raise IndexError).
Proof.
  intros self HC Hpre Hrows. subst self.
  destruct (chars_columns chars pre Hpre) as [columns Hcolumns].
  pose proof (encode_loop (CharacterTable.init chars) num_rows
                (length (CharacterTable.chars (CharacterTable.init chars)))
                pre columns [] (table_columns _ _ _ Hcolumns)) as Hloop.
  cbn [length app] in Hloop. rewrite Nat.sub_0_r in Hloop.
  specialize (Hloop ltac:(lia)).
  unfold CharacterTable.encode, np.zeros.
  rewrite HC, enumerate_app_cons, foldl_app, Hloop. cbn [foldl snd fst].
  split.
  - intros Hc.
    assert (getitem (CharacterTable.char_indices (CharacterTable.init chars)) c
            = Raise KeyError) as ->.
    { unfold getitem.
      destruct (CharacterTable.char_indices (CharacterTable.init chars) !! c)
        as [j|] eqn:Hj; [|done].
      exfalso. apply Hc, list_elem_of_lookup. exists j.
      by apply char_indices_lookup_inv. }
    cbn [mbind result_bind]. apply encode_step_raise.
  - intros Hc Hlen. apply list_elem_of_lookup_1 in Hc as [j Hj].
    assert (getitem (CharacterTable.char_indices (CharacterTable.init chars)) c
            = Ok j) as ->
      by (unfold getitem; by rewrite (char_indices_lookup chars j c Hj)).
    cbn [mbind result_bind].
    assert (∀ r, np.setitem
                   {| shape := (num_rows,
                                length (CharacterTable.chars
                                          (CharacterTable.init chars)));
                      rows := r |} (length pre) j 1%Qc = Raise IndexError) as ->.
    { intros r. unfold np.setitem. cbn [shape fst snd].
      by rewrite decide_False by lia. }
    apply encode_step_raise.
Qed.

Lemma encode_fails_at_first_bad_character_witness :
  CharacterTable.encode (CharacterTable.init "0123456789+ ") "1a2" 3
  = Raise KeyError
  ∧ CharacterTable.encode (CharacterTable.init "0123456789+ ") "12+3" 2
    = Raise IndexError.
Proof.
  split.
  - apply (encode_fails_at_first_bad_character "0123456789+ " "1a2" 3
             ["1"%char] ["2"%char] "a"%char); [reflexivity | | cbn; lia | ].
    + intros c' Hc'. apply list_elem_of_singleton in Hc' as ->.
      vm_compute. do 3 right. left.
    + vm_compute. intros Hin.
      repeat (apply elem_of_cons in Hin as [Hin|Hin]; [discriminate Hin|]).
      by apply elem_of_nil in Hin.
  - apply (encode_fails_at_first_bad_character "0123456789+ " "12+3" 2
             ["1"%char; "2"%char] ["3"%char] "+"%char);
      [reflexivity | | cbn; lia | | reflexivity].
    + intros c' Hc'. vm_compute.
      apply elem_of_cons in Hc' as [->|Hc']; [do 3 right; left|].
      apply list_elem_of_singleton in Hc' as ->. do 4 right. left.
    + vm_compute. right. left.
Defined.

Lemma argmax_zeros (m : nat) : 0 < m → argmax (replicate m 0%Qc) = Ok 0.
Proof.
  destruct m as [|m]; [lia|]. intros _. cbn [replicate argmax].
  by rewrite argmax_from_zeros.
Qed.

Lemma string_of_list_ascii_app (l k : list ascii) :
  string_of_list_ascii (l ++ k)
  = string_of_list_ascii l +:+ string_of_list_ascii k.
Proof. induction l as [|c l IH]; [done|]. cbn. by rewrite IH. Qed.

(** X3. When [num_rows] exceeds the length of the string, [encode] leaves the
    remaining rows at zero and [decode] reads each of them as the first
    character of the sorted table: [decode(encode(C, n))] is C followed by
    [n - len(C)] copies of that character.  In the notebook's table that
    character is the space. *)
Theorem decode_pads_with_first_character (chars C : string) (num_rows : nat) :
  chars ≠ EmptyString →
  (∀ c, c ∈ list_ascii_of_string C →
        c ∈ CharacterTable.chars (CharacterTable.init chars)) →
  String.length C ≤ num_rows →
  ∃ x first,
    CharacterTable.encode (CharacterTable.init chars) C num_rows = Ok x
    ∧ shape x = (num_rows, length (CharacterTable.chars (CharacterTable.init chars)))
    ∧ CharacterTable.chars (CharacterTable.init chars) !! 0 = Some first
    ∧ CharacterTable.decode (CharacterTable.init chars) (CharacterTable.Scores x) true
      = Ok (C +:+ string_of_list_ascii
                    (replicate (num_rows - String.length C) first))
    ∧ CharacterTable.chars (CharacterTable.init "0123456789+ ") !! 0
      = Some " "%char.
Proof.
  intros Hne HC Hrows.
  destruct (chars_columns chars _ HC) as [columns Hcolumns].
  assert (0 < length (CharacterTable.chars (CharacterTable.init chars))) as Hpos.
  { pose proof (chars_non_empty chars Hne) as Htable.
    destruct (CharacterTable.chars (CharacterTable.init chars)); [done|cbn; lia]. }
  destruct (lookup_lt_is_Some_2 _ 0 Hpos) as [first Hfirst].
  eexists _, first. split; [by apply encode_rows|].
  split_and!; [done | done | | reflexivity].
  unfold CharacterTable.decode, np.argmax_last_axis. cbn [shape rows snd].
  rewrite decide_False by lia.
  rewrite (mapM_Forall2 argmax _
             (columns ++ replicate (num_rows - String.length C) 0)).
  - cbn [mbind result_bind].
    rewrite (mapM_Forall2 _ _
               (list_ascii_of_string C
                ++ replicate (num_rows - String.length C) first)).
    + cbn [mbind result_bind].
      by rewrite string_of_list_ascii_app, string_of_list_ascii_of_string.
    + apply Forall2_app.
      * apply Forall2_flip. eapply Forall2_impl; [exact Hcolumns|].
        intros c j Hj. cbn beta in *. unfold getitem.
        by rewrite (indices_char_lookup chars j c Hj).
      * apply Forall2_replicate_same. unfold getitem.
        by rewrite (indices_char_lookup chars 0 first Hfirst).
  - apply Forall2_app.
    + apply Forall2_fmap_l, Forall_Forall2_diag, Forall_forall. intros j Hj.
      apply argmax_one_hot.
      apply list_elem_of_lookup_1 in Hj as [i Hi].
      destruct (Forall2_lookup_r _ _ _ _ _ Hcolumns Hi) as (c & _ & Hc).
      by eapply lookup_lt_Some.
    + apply Forall2_replicate_same. by apply argmax_zeros.
Qed.

Lemma decode_pads_with_first_character_witness :
  ∃ x,
    CharacterTable.encode (CharacterTable.init "0123456789+ ") "12+3" 7 = Ok x
    ∧ CharacterTable.decode (CharacterTable.init "0123456789+ ")
        (CharacterTable.Scores x) true = Ok "12+3   ".
Proof.
  destruct (decode_pads_with_first_character "0123456789+ " "12+3" 7)
    as (x & first & Hencode & _ & Hfirst & Hdecode & _).
  - done.
  - intros c Hc. vm_compute in Hc |- *.
    repeat (apply elem_of_cons in Hc as [->|Hc];
            [repeat first [by left | right]|]).
    by apply elem_of_nil in Hc.
  - cbn. lia.
  - exists x. split; [exact Hencode|].
    rewrite Hdecode. vm_compute in Hfirst. injection Hfirst as <-. reflexivity.
Defined.

(** ** [CharacterTable.decode] *)

Lemma mapM_raise {A B} (g : A → result B) (e : exn) (l : list A) (x : A) :
  (∀ y, y ∈ l → g y = Raise e ∨ ∃ v, g y = Ok v) →
  x ∈ l → g x = Raise e → mapM g l = Raise e.
Proof.
  induction l as [|y l IH]; intros Hall Hx Hgx.
  { by apply elem_of_nil in Hx. }
  cbn [mapM]. destruct (Hall y ltac:(left)) as [Hy|[v Hy]]; rewrite Hy; [done|].
  cbn. apply elem_of_cons in Hx as [->|Hx]; [congruence|].
  rewrite IH; [done| |done|done]. intros z Hz. apply Hall. by right.
Qed.

(** X4. Without [calc_argmax], [decode] reads a vector of indices through
    [indices_char]: indices inside the table give the string of their
    characters, so the indices [char_indices] assigns to a string over the
    table decode back to it; an index beyond the table raises [KeyError]. *)
Theorem decode_indices_reads_table (chars : string) (indices : list nat) :
  let self := CharacterTable.init chars in
  (∀ cs, Forall2 (λ j c, CharacterTable.chars self !! j = Some c) indices cs →
         CharacterTable.decode self (CharacterTable.Indices indices) false
         = Ok (string_of_list_ascii cs))
  ∧ (∀ j, j ∈ indices → length (CharacterTable.chars self) ≤ j →
          CharacterTable.decode self (CharacterTable.Indices indices) false
          = Raise KeyError)
  ∧ (∀ C : string,
       mapM (getitem (CharacterTable.char_indices self)) (list_ascii_of_string C)
       = Ok indices →
       CharacterTable.decode self (CharacterTable.Indices indices) false = Ok C).
Proof.
  intros self. subst self.
  assert (∀ cs, Forall2 (λ j c, CharacterTable.chars (CharacterTable.init chars)
                                  !! j = Some c) indices cs →
                CharacterTable.decode (CharacterTable.init chars)
                  (CharacterTable.Indices indices) false
                = Ok (string_of_list_ascii cs)) as Hread.
  { intros cs Hcs. unfold CharacterTable.decode. cbn [mbind result_bind].
    rewrite (mapM_Forall2 _ _ cs); [done|].
    eapply Forall2_impl; [exact Hcs|]. intros j c Hj. cbn beta in *.
    unfold getitem. by rewrite (indices_char_lookup chars j c Hj). }
  split_and!; [exact Hread | |].
  - intros j Hj Hlen. unfold CharacterTable.decode. cbn [mbind result_bind].
    rewrite (mapM_raise _ KeyError indices j); [done| |done|].
    + intros y _. unfold getitem.
      destruct (CharacterTable.indices_char (CharacterTable.init chars) !! y);
        [right; by eexists|by left].
    + unfold getitem.
      destruct (CharacterTable.indices_char (CharacterTable.init chars) !! j)
        as [c|] eqn:Hc; [|done].
      apply indices_char_lookup_inv, lookup_lt_Some in Hc. lia.
  - intros C HC.
    transitivity (Ok (A:=string) (string_of_list_ascii (list_ascii_of_string C)));
      [|by rewrite string_of_list_ascii_of_string].
    apply Hread. clear Hread. revert indices HC.
    induction (list_ascii_of_string C) as [|c cs IH]; intros indices HC.
    { injection HC as <-. constructor. }
    cbn [mapM] in HC.
    destruct (getitem (CharacterTable.char_indices (CharacterTable.init chars)) c)
      as [j|e] eqn:Hj; cbn [mbind result_bind] in HC; [|done].
    destruct (mapM _ cs) as [js|] eqn:Hjs; cbn [mbind result_bind] in HC;
      [|done].
    injection HC as <-. constructor; [|by apply IH].
    apply char_indices_lookup_inv. unfold getitem in Hj.
    destruct (CharacterTable.char_indices (CharacterTable.init chars) !! c);
      [by injection Hj as ->|done].
Qed.

Lemma decode_indices_reads_table_witness :
  CharacterTable.decode (CharacterTable.init "0123456789+ ")
    (CharacterTable.Indices [3; 1; 4; 0]) false = Ok "1+2 "
  ∧ CharacterTable.decode (CharacterTable.init "0123456789+ ")
      (CharacterTable.Indices [3; 12]) false = Raise KeyError.
Proof.
  split.
  - apply (proj1 (decode_indices_reads_table "0123456789+ " [3; 1; 4; 0])
             ["1"; "+"; "2"; " "]%char).
    repeat constructor.
  - apply (proj1 (proj2 (decode_indices_reads_table "0123456789+ " [3; 12])) 12).
    + right. left.
    + vm_compute. lia.
Defined.

Lemma mapM_Ok_inv {A B} (g : A → result B) (xs : list A) (zs : list B) :
  mapM g xs = Ok zs → Forall2 (λ x z, g x = Ok z) xs zs.
Proof.
  revert zs. induction xs as [|x xs IH]; intros zs H.
  { injection H as <-. constructor. }
  cbn [mapM] in H. destruct (g x) as [z|] eqn:Hx; cbn [mbind result_bind] in H;
    [|done].
  destruct (mapM g xs) as [zs'|] eqn:Hxs; cbn [mbind result_bind] in H; [|done].
  injection H as <-. constructor; [done|by apply IH].
Qed.

Lemma Qcltb_lt (x y : Qc) : Qcltb x y = true ↔ (x < y)%Qc.
Proof. unfold Qcltb, Qclt, Qlt. apply Z.ltb_lt. Qed.

Lemma Qcltb_ge (x y : Qc) : Qcltb x y = false ↔ (y ≤ x)%Qc.
Proof. unfold Qcltb, Qcle, Qle. apply Z.ltb_ge. Qed.

Lemma argmax_from_spec (v : list Qc) :
  ∀ best_index best index, best_index < index →
    ∃ m,
      (argmax_from best_index best index v = best_index ∧ m = best
       ∨ ∃ k, argmax_from best_index best index v = index + k ∧ v !! k = Some m)
      ∧ (best ≤ m)%Qc
      ∧ (argmax_from best_index best index v ≠ best_index → (best < m)%Qc)
      ∧ (∀ k y, v !! k = Some y →
           (y ≤ m)%Qc
           ∧ (index + k < argmax_from best_index best index v → (y < m)%Qc)).
Proof.
  induction v as [|x v IH]; intros best_index best index Hlt.
  { exists best. cbn. split_and!; [by left | done | done | done]. }
  cbn [argmax_from]. destruct (Qcltb best x) eqn:Hx.
  - apply Qcltb_lt in Hx.
    destruct (IH index x (S index) ltac:(lia)) as (m & Hpos & Hle & Hne & Hall).
    exists m. split_and!.
    + right. destruct Hpos as [[-> ->]|[k [-> Hk]]].
      * exists 0. by rewrite Nat.add_0_r.
      * exists (S k). split; [lia|done].
    + apply Qclt_le_weak. by eapply Qclt_le_trans.
    + intros _. by eapply Qclt_le_trans.
    + intros [|k] y Hy; cbn in Hy.
      * injection Hy as <-. split; [done|]. intros Hk. apply Hne. lia.
      * destruct (Hall k y Hy) as [Hym Hstrict]. split; [done|].
        intros Hk. apply Hstrict. lia.
  - apply Qcltb_ge in Hx.
    destruct (IH best_index best (S index) ltac:(lia))
      as (m & Hpos & Hle & Hne & Hall).
    exists m. split_and!.
    + destruct Hpos as [[-> ->]|[k [-> Hk]]]; [by left|].
      right. exists (S k). split; [lia|done].
    + done.
    + done.
    + intros [|k] y Hy; cbn in Hy.
      * injection Hy as <-. split; [by eapply Qcle_trans|].
        intros Hk. eapply Qcle_lt_trans; [exact Hx|]. apply Hne. lia.
      * destruct (Hall k y Hy) as [Hym Hstrict]. split; [done|].
        intros Hk. apply Hstrict. lia.
Qed.

Lemma argmax_is_first_maximum (v : list Qc) (j : nat) :
  argmax v = Ok j →
  ∃ m, v !! j = Some m
       ∧ ∀ i y, v !! i = Some y → (y ≤ m)%Qc ∧ (i < j → (y < m)%Qc).
Proof.
  destruct v as [|x v]; [done|]. intros [= <-].
  destruct (argmax_from_spec v 0 x 1 ltac:(lia)) as (m & Hpos & Hle & Hne & Hall).
  exists m. split.
  - destruct Hpos as [[-> ->]|[k [-> Hk]]]; [done|]. exact Hk.
  - intros [|i] y Hy; cbn in Hy.
    + injection Hy as <-. split; [done|]. intros Hj. apply Hne. lia.
    + destruct (Hall i y Hy) as [Hym Hstrict]. split; [done|].
      intros Hj. apply Hstrict. lia.
Qed.

(** X5. With [calc_argmax], whenever [decode] returns, its result has one
    character per row of the score array, and the character of a row is the
    table character at a column holding the row's maximal score, the first
    such column. *)
Theorem decode_takes_first_maximum_of_each_row
    (chars : string) (x : ndarray) (decoded : string) :
  let self := CharacterTable.init chars in
  CharacterTable.decode self (CharacterTable.Scores x) true = Ok decoded →
  String.length decoded = length (rows x)
  ∧ ∀ r row c,
      rows x !! r = Some row → list_ascii_of_string decoded !! r = Some c →
      ∃ j m,
        CharacterTable.chars self !! j = Some c
        ∧ row !! j = Some m
        ∧ ∀ i y, row !! i = Some y → (y ≤ m)%Qc ∧ (i < j → (y < m)%Qc).
Proof.
  intros self. subst self. unfold CharacterTable.decode, np.argmax_last_axis.
  destruct (decide ((shape x).2 = 0)); [done|].
  destruct (mapM argmax (rows x)) as [columns|] eqn:Hcolumns; [|done].
  cbn [mbind result_bind].
  destruct (mapM _ columns) as [cs|] eqn:Hcs; [|done].
  cbn [mbind result_bind]. intros [= <-].
  apply mapM_Ok_inv in Hcolumns, Hcs.
  rewrite <- length_list_ascii_of_string, list_ascii_of_string_of_list_ascii.
  split.
  - rewrite <- (Forall2_length _ _ _ Hcs). by rewrite (Forall2_length _ _ _ Hcolumns).
  - intros r row c Hrow Hc.
    destruct (Forall2_lookup_l _ _ _ _ _ Hcolumns Hrow) as (j & Hj & Hargmax).
    destruct (Forall2_lookup_l _ _ _ _ _ Hcs Hj) as (c' & Hc' & Hget).
    assert (c' = c) as -> by congruence.
    destruct (argmax_is_first_maximum row j Hargmax) as (m & Hm & Hmax).
    exists j, m. split_and!; [|done|done].
    apply indices_char_lookup_inv. unfold getitem in Hget.
    destruct (CharacterTable.indices_char (CharacterTable.init chars) !! j);
      [by injection Hget as ->|done].
Qed.

Lemma decode_takes_first_maximum_of_each_row_witness :
  let x := {| shape := (2, 12);
              rows := [[0; 1; 0; 0; 0; 0; 0; 0; 0; 0; 0; 0];
                       [0; 0; 0; 1; 0; 0; 0; 0; 0; 0; 0; 1]]%Qc |} in
  CharacterTable.decode (CharacterTable.init "0123456789+ ")
    (CharacterTable.Scores x) true = Ok "+1"
  ∧ String.length "+1" = length (rows x).
Proof.
  intros x.
  assert (CharacterTable.decode (CharacterTable.init "0123456789+ ")
            (CharacterTable.Scores x) true = Ok "+1") as Hrun
    by (vm_compute; reflexivity).
  split; [exact Hrun|].
  destruct (decode_takes_first_maximum_of_each_row "0123456789+ " x "+1" Hrun)
    as [Hlength _].
  exact Hlength.
Defined.

(** ** The addition notebook's examples *)

Lemma list_ascii_of_string_app (s t : string) :
  list_ascii_of_string (s +:+ t) = list_ascii_of_string s ++ list_ascii_of_string t.
Proof.
  induction s as [|c s IH]; [done|].
  change (String c s +:+ t) with (String c (s +:+ t)). cbn. by f_equal.
Qed.

Lemma string_length_app (s t : string) :
  String.length (s +:+ t) = String.length s + String.length t.
Proof.
  induction s as [|c s IH]; [done|].
  change (String c s +:+ t) with (String c (s +:+ t)). cbn. by f_equal.
Qed.

Lemma string_length_of_list (l : list ascii) :
  String.length (string_of_list_ascii l) = length l.
Proof. induction l as [|c l IH]; [done|]. cbn. by rewrite IH. Qed.

Lemma string_length_repeat (c : ascii) (n : Z) :
  String.length (py.repeat c n) = Z.to_nat n.
Proof. unfold py.repeat. by rewrite string_length_of_list, length_replicate. Qed.

Lemma string_length_reversed (s : string) :
  String.length (py.reversed s) = String.length s.
Proof.
  unfold py.reversed.
  by rewrite string_length_of_list, length_reverse, length_list_ascii_of_string.
Qed.

Lemma reversed_involutive (s : string) : py.reversed (py.reversed s) = s.
Proof.
  unfold py.reversed.
  by rewrite list_ascii_of_string_of_list_ascii, reverse_involutive,
    string_of_list_ascii_of_string.
Qed.


Lemma string_of_uint_digits (d : Decimal.uint) :
  Forall is_digit (list_ascii_of_string (NilEmpty.string_of_uint d)).
Proof.
  induction d; cbn; [constructor|..];
    (constructor; [unfold is_digit; cbn; set_solver|done]).
Qed.

Lemma str_nat_digits (n : nat) :
  Forall is_digit (list_ascii_of_string (py.str_nat n)).
Proof. apply string_of_uint_digits. Qed.

Lemma str_nat_length_below (bound digits : nat) :
  Forall (λ n, 1 ≤ String.length (py.str_nat n) ≤ digits) (seq 0 bound) →
  ∀ n, n < bound → 1 ≤ String.length (py.str_nat n) ≤ digits.
Proof.
  intros Hall n Hn. rewrite Forall_forall in Hall. apply Hall.
  apply elem_of_seq. lia.
Qed.

Lemma str_nat_length_3 (n : nat) :
  n < 1000 → 1 ≤ String.length (py.str_nat n) ≤ 3.
Proof.
  apply str_nat_length_below.
  apply (bool_decide_unpack _). vm_compute. exact I.
Qed.

Lemma str_nat_length_4 (n : nat) :
  n < 2000 → 1 ≤ String.length (py.str_nat n) ≤ 4.
Proof.
  apply str_nat_length_below.
  apply (bool_decide_unpack _). vm_compute. exact I.
Qed.

Lemma digit_is_digit (c : ascii) : is_digit c → ∃ d, py.digit c = Some d ∧ d < 10.
Proof.
  unfold is_digit. cbn. intros Hc.
  repeat (apply elem_of_cons in Hc as [->|Hc]; [eexists; split; [vm_compute; reflexivity|cbn; lia]|]).
  by apply elem_of_nil in Hc.
Qed.

Lemma int_digits (cs : list ascii) :
  Forall is_digit cs → cs ≠ [] →
  ∃ n, py.int (string_of_list_ascii cs) = Ok n ∧ n < 10 ^ length cs.
Proof.
  intros Hcs Hne. unfold py.int. rewrite list_ascii_of_string_of_list_ascii.
  assert (∃ ds, mapM (λ c, of_option ValueError (py.digit c)) cs = Ok ds
                ∧ length ds = length cs ∧ Forall (λ d, d < 10) ds)
    as (ds & -> & Hlen & Hds).
  { clear Hne. induction Hcs as [|c cs Hc _ (ds & IH & Hlen & Hds)].
    - exists []. by repeat split.
    - destruct (digit_is_digit c Hc) as (d & Hd & Hlt).
      exists (d :: ds). cbn. rewrite Hd. cbn. cbn in IH. rewrite IH. cbn.
      split_and!; [done|by rewrite Hlen|by constructor]. }
  cbn [mbind result_bind].
  rewrite decide_False by (intros ->; by destruct cs).
  eexists. split; [done|]. rewrite <- Hlen. clear Hlen Hcs Hne.
  induction ds as [|d ds IH] using rev_ind; [cbn; lia|].
  apply Forall_app in Hds as [Hds Hd%Forall_inv]. specialize (IH Hds).
  rewrite foldl_app, length_app, Nat.add_1_r. cbn [foldl length].
  rewrite Nat.pow_succ_r'. lia.
Qed.

Lemma join_characters (cs : list ascii) :
  py.join EmptyString ((λ c, String c EmptyString) <$> cs) = string_of_list_ascii cs.
Proof.
  induction cs as [|c [|c' cs] IH]; [done..|].
  cbn [fmap list_fmap py.join] in *. rewrite IH. done.
Qed.

(** X6. The two numbers of an addition example are read from one to
    [DIGITS] random digits, so they lie below [10 ^ DIGITS]; for all such
    numbers the padded question has exactly [MAXLEN] characters and the padded
    answer [DIGITS + 1], and the stored question is the padded text
    [a+b] read backwards. *)
Theorem addition_examples_have_fixed_length (ca cb : list ascii) :
  Forall is_digit ca → 1 ≤ length ca ≤ addition.DIGITS →
  Forall is_digit cb → 1 ≤ length cb ≤ addition.DIGITS →
  ∃ a b,
    addition.f ca = Ok a ∧ addition.f cb = Ok b
    ∧ a < 10 ^ addition.DIGITS ∧ b < 10 ^ addition.DIGITS
    ∧ String.length (addition.question a b) = addition.MAXLEN
    ∧ String.length (addition.answer a b) = addition.DIGITS + 1
    ∧ py.reversed (addition.question a b)
      = (py.str_nat a +:+ "+" +:+ py.str_nat b)
        +:+ py.repeat " " (Z.of_nat (addition.MAXLEN
                                     - String.length (py.str_nat a)
                                     - 1 - String.length (py.str_nat b))).
Proof.
  intros Hca Hla Hcb Hlb. unfold addition.f. rewrite !join_characters.
  destruct (int_digits ca Hca) as (a & -> & Ha); [by destruct ca; cbn in *; [lia|]|].
  destruct (int_digits cb Hcb) as (b & -> & Hb); [by destruct cb; cbn in *; [lia|]|].
  assert (a < 1000) as Ha'.
  { eapply Nat.lt_le_trans; [exact Ha|].
    change 1000 with (10 ^ 3). apply Nat.pow_le_mono_r; [lia|apply Hla]. }
  assert (b < 1000) as Hb'.
  { eapply Nat.lt_le_trans; [exact Hb|].
    change 1000 with (10 ^ 3). apply Nat.pow_le_mono_r; [lia|apply Hlb]. }
  exists a, b. split_and!; [done|done|exact Ha'|exact Hb'|..].
  - pose proof (str_nat_length_3 a Ha'). pose proof (str_nat_length_3 b Hb').
    unfold addition.question, addition.REVERSE, addition.MAXLEN, addition.DIGITS.
    rewrite string_length_reversed, !string_length_app, string_length_repeat.
    cbn [String.length]. lia.
  - assert (a + b < 2000) as Hab by lia.
    pose proof (str_nat_length_4 (a + b) Hab).
    unfold addition.answer, addition.DIGITS.
    rewrite string_length_app, string_length_repeat. lia.
  - unfold addition.question, addition.REVERSE. rewrite reversed_involutive.
    pose proof (str_nat_length_3 a Ha'). pose proof (str_nat_length_3 b Hb').
    do 2 f_equal. rewrite !string_length_app. cbn [String.length].
    unfold addition.MAXLEN, addition.DIGITS. lia.
Qed.

Lemma addition_examples_have_fixed_length_witness :
  ∃ a b,
    addition.f ["0"; "1"; "2"]%char = Ok a ∧ addition.f ["3"]%char = Ok b
    ∧ addition.question a b = "   3+21" ∧ addition.answer a b = "15  ".
Proof.
  destruct (addition_examples_have_fixed_length
              ["0"; "1"; "2"]%char ["3"]%char)
    as (a & b & Ha & Hb & _).
  - unfold is_digit. repeat constructor; cbn; set_solver.
  - unfold addition.DIGITS. cbn. lia.
  - unfold is_digit. repeat constructor; cbn; set_solver.
  - unfold addition.DIGITS. cbn. lia.
  - exists a, b. split; [exact Ha|]. split; [exact Hb|].
    vm_compute in Ha, Hb. injection Ha as <-. injection Hb as <-.
    split; reflexivity.
Defined.

Lemma question_length (a b : nat) :
  a < 1000 → b < 1000 →
  String.length (addition.question a b) = addition.MAXLEN.
Proof.
  intros Ha Hb.
  pose proof (str_nat_length_3 a Ha). pose proof (str_nat_length_3 b Hb).
  unfold addition.question, addition.REVERSE, addition.MAXLEN, addition.DIGITS.
  rewrite string_length_reversed, !string_length_app, string_length_repeat.
  cbn [String.length]. lia.
Qed.

Lemma answer_length (a b : nat) :
  a < 1000 → b < 1000 →
  String.length (addition.answer a b) = addition.DIGITS + 1.
Proof.
  intros Ha Hb. assert (a + b < 2000) as Hab by lia.
  pose proof (str_nat_length_4 (a + b) Hab).
  unfold addition.answer, addition.DIGITS.
  rewrite string_length_app, string_length_repeat. lia.
Qed.

Lemma is_digit_in_table (c : ascii) :
  is_digit c → c ∈ list_ascii_of_string addition.chars.
Proof.
  unfold is_digit. intros Hc.
  change (c ∈ list_ascii_of_string "0123456789" ++ list_ascii_of_string "+ ").
  apply elem_of_app. by left.
Qed.

Lemma repeat_space_in_table (n : Z) :
  Forall (λ c, c ∈ list_ascii_of_string addition.chars)
    (list_ascii_of_string (py.repeat " " n)).
Proof.
  unfold py.repeat. rewrite list_ascii_of_string_of_list_ascii.
  apply Forall_replicate. cbn. set_solver.
Qed.

Lemma question_in_table (a b : nat) :
  Forall (λ c, c ∈ list_ascii_of_string addition.chars)
    (list_ascii_of_string (addition.question a b)).
Proof.
  unfold addition.question, addition.REVERSE, py.reversed.
  rewrite list_ascii_of_string_of_list_ascii, Forall_reverse.
  rewrite !list_ascii_of_string_app, !Forall_app. split_and!.
  - eapply Forall_impl; [apply str_nat_digits|]. apply is_digit_in_table.
  - cbn. repeat constructor.
  - eapply Forall_impl; [apply str_nat_digits|]. apply is_digit_in_table.
  - apply repeat_space_in_table.
Qed.

Lemma answer_in_table (a b : nat) :
  Forall (λ c, c ∈ list_ascii_of_string addition.chars)
    (list_ascii_of_string (addition.answer a b)).
Proof.
  unfold addition.answer. rewrite list_ascii_of_string_app, Forall_app. split.
  - eapply Forall_impl; [apply str_nat_digits|]. apply is_digit_in_table.
  - apply repeat_space_in_table.
Qed.

Lemma table_round_trip (chars C : string) (n : nat) :
  chars ≠ EmptyString →
  Forall (λ c, c ∈ list_ascii_of_string chars) (list_ascii_of_string C) →
  String.length C = n →
  ∃ x,
    CharacterTable.encode (CharacterTable.init chars) C n = Ok x
    ∧ shape x = (n, length (CharacterTable.chars (CharacterTable.init chars)))
    ∧ CharacterTable.decode (CharacterTable.init chars) (CharacterTable.Scores x) true
      = Ok C.
Proof.
  intros Hne HC <-.
  destruct (chars_columns chars (list_ascii_of_string C)) as [columns Hcolumns].
  { intros c Hc. apply chars_elem_of. by rewrite Forall_forall in HC; apply HC. }
  eexists. split_and!; [by apply encode_value|done|].
  rewrite (decode_value chars (list_ascii_of_string C)).
  - by rewrite string_of_list_ascii_of_string.
  - by apply chars_non_empty.
  - done.
Qed.

(** X7. Vectorizing the generated examples never fails: for numbers below
    [10 ^ DIGITS] the question is encoded into a [MAXLEN] by 12 array and the
    answer into a [DIGITS + 1] by 12 array, and [decode] gives each text
    back, padding included. *)
Theorem addition_examples_encode_and_decode (a b : nat) :
  a < 10 ^ addition.DIGITS → b < 10 ^ addition.DIGITS →
  ∃ x y,
    CharacterTable.encode addition.ctable (addition.question a b) addition.MAXLEN
    = Ok x
    ∧ shape x = (addition.MAXLEN, 12)
    ∧ CharacterTable.decode addition.ctable (CharacterTable.Scores x) true
      = Ok (addition.question a b)
    ∧ CharacterTable.encode addition.ctable (addition.answer a b)
        (addition.DIGITS + 1)
      = Ok y
    ∧ shape y = (addition.DIGITS + 1, 12)
    ∧ CharacterTable.decode addition.ctable (CharacterTable.Scores y) true
      = Ok (addition.answer a b).
Proof.
  intros Ha Hb. change (10 ^ addition.DIGITS) with 1000 in Ha, Hb.
  destruct (table_round_trip addition.chars (addition.question a b)
              addition.MAXLEN) as (x & Hx & Hsx & Hdx);
    [done|apply question_in_table|by apply question_length|].
  destruct (table_round_trip addition.chars (addition.answer a b)
              (addition.DIGITS + 1)) as (y & Hy & Hsy & Hdy);
    [done|apply answer_in_table|by apply answer_length|].
  exists x, y. split_and!; done.
Qed.

Lemma addition_examples_encode_and_decode_witness :
  ∃ x,
    CharacterTable.encode addition.ctable "   3+21" 7 = Ok x
    ∧ CharacterTable.decode addition.ctable (CharacterTable.Scores x) true
      = Ok "   3+21".
Proof.
  destruct (addition_examples_encode_and_decode 12 3)
    as (x & y & Hx & _ & Hdx & _).
  - vm_compute. lia.
  - vm_compute. lia.
  - exists x. split; [exact Hx|exact Hdx].
Defined.


Lemma generate_invariant (draws : list (nat * nat)) :
  ∀ (st : addition.state) (accepted : list (nat * nat)),
    generated accepted st →
    ∃ more,
      more `sublist_of` draws
      ∧ generated (accepted ++ more) (addition.generate st draws).
Proof.
  induction draws as [|ab draws IH]; intros st accepted Hst.
  - exists []. by rewrite app_nil_r.
  - cbn [addition.generate].
    destruct Hst as (Hq & He & Hs & Hnodup & Hsize).
    destruct (decide _) as [Hlt|Hge].
    + unfold addition.body.
      destruct (decide (addition.sorted_pair ab ∈ addition.seen st)) as [Hin|Hnotin].
      * destruct (IH st accepted) as (more & Hsub & Hgen); [done|].
        exists more. split; [by apply sublist_cons|done].
      * destruct (IH {| addition.questions :=
                          addition.questions st ++ [addition.question ab.1 ab.2];
                        addition.expected :=
                          addition.expected st ++ [addition.answer ab.1 ab.2];
                        addition.seen :=
                          {[addition.sorted_pair ab]} ∪ addition.seen st |}
                    (accepted ++ [ab])) as (more & Hsub & Hgen).
        { unfold generated. cbn [addition.questions addition.expected addition.seen].
          rewrite !fmap_app, Hq, He, Hs. cbn [fmap list_fmap].
          split_and!; [done|done|..].
          - rewrite list_to_set_app_L. cbn [list_to_set].
            rewrite (right_id_L ∅ (∪)). apply (comm_L (∪)).
          - apply NoDup_app. split_and!; [done| |apply NoDup_singleton].
            intros key Hkey ->%list_elem_of_singleton. apply Hnotin.
            rewrite Hs. by apply elem_of_list_to_set.
          - rewrite Hq, length_fmap in Hlt. rewrite length_app. cbn [length]. lia. }
        exists (ab :: more). split; [by apply sublist_skip|].
        by rewrite <- app_assoc in Hgen.
    + exists []. split; [apply sublist_nil_l|]. by rewrite app_nil_r.
Qed.

(** X8. At every point of the generating loop the questions and the expected
    answers are those of one list of accepted pairs, taken in order from the
    pairs drawn; no two accepted pairs are the same two numbers, in either
    order; [seen] holds exactly their sorted keys; and the loop never collects
    more than [TRAINING_SIZE] examples. *)
Theorem generate_keeps_examples_aligned_and_distinct (draws : list (nat * nat)) :
  let st := addition.generate addition.initial draws in
  ∃ accepted,
    accepted `sublist_of` draws
    ∧ addition.questions st = (λ ab, addition.question ab.1 ab.2) <$> accepted
    ∧ addition.expected st = (λ ab, addition.answer ab.1 ab.2) <$> accepted
    ∧ (∀ key, key ∈ addition.seen st ↔ key ∈ addition.sorted_pair <$> accepted)
    ∧ (∀ i j a b,
         accepted !! i = Some (a, b) →
         (accepted !! j = Some (a, b) ∨ accepted !! j = Some (b, a)) → i = j)
    ∧ (Z.of_nat (length (addition.questions st)) ≤ addition.TRAINING_SIZE)%Z.
Proof.
  intros st. subst st.
  destruct (generate_invariant draws addition.initial []) as (accepted & Hsub & Hgen).
  { unfold generated. cbn. split_and!; [done|done|done|constructor|done]. }
  cbn [app] in Hgen. destruct Hgen as (Hq & He & Hs & Hnodup & Hsize).
  exists accepted. split_and!; [done|done|done|..].
  - intros key. rewrite Hs. apply elem_of_list_to_set.
  - intros i j a b Hi Hj.
    apply (NoDup_lookup _ i j (addition.sorted_pair (a, b)) Hnodup).
    + by rewrite list_lookup_fmap, Hi.
    + rewrite list_lookup_fmap. destruct Hj as [->| ->]; cbn; [done|].
      f_equal. unfold addition.sorted_pair. cbn.
      repeat destruct (decide _); try done; try lia. f_equal; lia.
  - by rewrite Hq, length_fmap.
Qed.

(** ** The translation notebook's text pairs *)

Lemma num_val_samples_value (n : nat) :
  translation.num_val_samples n = (15 * Z.of_nat n / 100)%Z.
Proof. unfold translation.num_val_samples, Qfloor, Qmult, inject_Z. by cbn. Qed.

Lemma clamp_in_range (len : nat) (i : Z) :
  (0 ≤ i ≤ Z.of_nat len)%Z → py.clamp len i = Z.to_nat i.
Proof.
  intros Hi. unfold py.clamp.
  destruct (i <? 0)%Z eqn:Hneg; [apply Z.ltb_lt in Hneg; lia|].
  by rewrite Z.min_l by lia.
Qed.

(** X9. The three slices of the shuffled pairs are consecutive and cover the
    list: joined in the order train, validation, test they give the list
    back. The validation and the test set each have [15 n / 100] pairs,
    rounded down, and the training set has all the others. *)
Theorem split_pairs_is_a_partition {A} (text_pairs : list A) :
  let sets := translation.split_pairs text_pairs in
  let n := Z.of_nat (length text_pairs) in
  translation.train_pairs sets ++ translation.val_pairs sets
    ++ translation.test_pairs sets = text_pairs
  ∧ Z.of_nat (length (translation.val_pairs sets)) = (15 * n / 100)%Z
  ∧ Z.of_nat (length (translation.test_pairs sets)) = (15 * n / 100)%Z
  ∧ Z.of_nat (length (translation.train_pairs sets)) = (n - 2 * (15 * n / 100))%Z.
Proof.
  intros sets n. subst sets.
  unfold translation.split_pairs, py.slice_to, py.slice, py.slice_from.
  cbn [translation.train_pairs translation.val_pairs translation.test_pairs].
  rewrite num_val_samples_value. fold n.
  set (v := (15 * n / 100)%Z).
  assert (0 ≤ v ∧ 2 * v ≤ n)%Z as [Hv0 Hv2].
  { subst v. split; [apply Z.div_pos; lia|].
    assert (15 * n / 100 * 100 ≤ 15 * n)%Z.
    { rewrite Z.mul_comm. apply Z.mul_div_le. lia. }
    lia. }
  rewrite !clamp_in_range by lia.
  rewrite !length_drop, !length_take.
  split_and!; [|lia..].
  rewrite drop_take_drop by lia. apply take_drop.
Qed.


Lemma split_non_empty (sep : ascii) (s : string) : py.split sep s ≠ [].
Proof.
  destruct s as [|c s]; [done|]. cbn [py.split].
  destruct (decide (c = sep)); [done|]. by destruct (py.split sep s).
Qed.

Lemma split_free (sep : ascii) (s : string) :
  free_of sep s → py.split sep s = [s].
Proof.
  unfold free_of. induction s as [|c s IH]; [done|]. cbn. intros Hs.
  apply not_elem_of_cons in Hs as [Hc Hs].
  rewrite decide_False by done. by rewrite IH.
Qed.

Lemma split_app (sep : ascii) (piece rest : string) :
  free_of sep piece →
  py.split sep (piece +:+ String sep rest) = piece :: py.split sep rest.
Proof.
  unfold free_of. induction piece as [|c piece IH]; intros Hpiece.
  - change (EmptyString +:+ String sep rest) with (String sep rest).
    cbn [py.split]. by rewrite decide_True.
  - change (String c piece +:+ String sep rest)
      with (String c (piece +:+ String sep rest)).
    cbn in Hpiece. apply not_elem_of_cons in Hpiece as [Hc Hpiece].
    cbn [py.split]. rewrite decide_False by done. by rewrite IH.
Qed.

Lemma split_pieces_free (sep : ascii) (s : string) :
  Forall (free_of sep) (py.split sep s).
Proof.
  assert (free_of sep EmptyString) as Hempty by apply not_elem_of_nil.
  induction s as [|c s IH]; [by constructor|].
  cbn [py.split]. destruct (decide (c = sep)) as [->|Hc].
  - by constructor.
  - destruct (py.split sep s) as [|piece pieces].
    + constructor; [|done]. unfold free_of. cbn. by apply not_elem_of_cons.
    + apply Forall_cons in IH as [Hpiece Hpieces]. constructor; [|done].
      unfold free_of in *. cbn. by apply not_elem_of_cons.
Qed.

Lemma join_cons (sep part : string) (parts : list string) :
  parts ≠ [] →
  py.join sep (part :: parts) = part +:+ sep +:+ py.join sep parts.
Proof. by destruct parts. Qed.

Lemma join_split (sep : ascii) (s : string) :
  py.join (String sep EmptyString) (py.split sep s) = s.
Proof.
  induction s as [|c s IH]; [done|]. cbn [py.split].
  pose proof (split_non_empty sep s) as Hne.
  destruct (decide (c = sep)) as [->|Hc].
  - rewrite join_cons by done. by rewrite IH.
  - destruct (py.split sep s) as [|piece [|piece' pieces]]; [done|..].
    + cbn in *. by rewrite IH.
    + rewrite join_cons in IH by done. rewrite join_cons by done.
      by rewrite <- IH.
Qed.

Lemma read_lines_of_file (lines : list string) (rest : string) :
  Forall (free_of py.newline) lines → free_of py.newline rest →
  py.split py.newline (file_of_lines lines rest) = lines ++ [rest].
Proof.
  intros Hlines Hrest. induction Hlines as [|line lines Hline _ IH].
  - by apply split_free.
  - cbn [file_of_lines foldr]. rewrite split_app by done.
    cbn [app]. f_equal. exact IH.
Qed.

(** X10. Reading the data file gives one pair for each complete line: for a
    file made of lines [eng TAB spa], each ended by a newline, the result is
    the list of pairs [(eng, "[start] " + spa + " [end]")] in the order of
    the lines. Whatever follows the last newline is not read. *)
Theorem text_pairs_reads_complete_lines
    (pairs : list (string * string)) (rest : string) :
  Forall (λ pair, free_of py.tab pair.1 ∧ free_of py.newline pair.1
                  ∧ free_of py.tab pair.2 ∧ free_of py.newline pair.2) pairs →
  free_of py.newline rest →
  translation.read_lines (file_of_lines (pair_line <$> pairs) rest)
  = pair_line <$> pairs
  ∧ translation.text_pairs (file_of_lines (pair_line <$> pairs) rest)
    = Ok ((λ pair, (pair.1, "[start] " +:+ pair.2 +:+ " [end]")) <$> pairs).
Proof.
  intros Hpairs Hrest.
  assert (translation.read_lines (file_of_lines (pair_line <$> pairs) rest)
          = pair_line <$> pairs) as Hlines.
  { unfold translation.read_lines, py.slice_to. rewrite read_lines_of_file.
    - unfold py.clamp. cbn [Z.ltb Z.compare].
      rewrite length_app, length_fmap. cbn [length].
      replace (Z.to_nat (Z.max 0 (Z.of_nat (length pairs + 1) + -1)))
        with (length (pair_line <$> pairs)) by (rewrite length_fmap; lia).
      by rewrite take_app_length.
    - apply Forall_fmap. eapply Forall_impl; [exact Hpairs|].
      intros [eng spa] (_ & Heng & _ & Hspa). unfold free_of, pair_line in *.
      cbn in *. change (String py.tab spa) with (String py.tab EmptyString +:+ spa).
      rewrite !list_ascii_of_string_app, !not_elem_of_app.
      split_and!; [done| |done]. cbn. apply not_elem_of_cons. split; [done|].
      apply not_elem_of_nil.
    - done. }
  split; [done|]. unfold translation.text_pairs. rewrite Hlines. clear Hlines.
  induction Hpairs as [|[eng spa] pairs (Heng & _ & Hspa & _) _ IH]; [done|].
  cbn [fmap list_fmap mapM] in *. rewrite IH. clear IH.
  unfold translation.parse_line, pair_line. cbn [fst snd].
  rewrite split_app by done. by rewrite (split_free _ spa) by done.
Qed.

Lemma text_pairs_reads_complete_lines_witness :
  translation.text_pairs
    (file_of_lines [pair_line ("Hi.", "Hola."); pair_line ("Go on.", "Sigue.")]
       "Run")
  = Ok [("Hi.", "[start] Hola. [end]"); ("Go on.", "[start] Sigue. [end]")].
Proof.
  destruct (text_pairs_reads_complete_lines
              [("Hi.", "Hola."); ("Go on.", "Sigue.")] "Run") as [_ Hpairs].
  - apply Forall_cons; split; [|apply Forall_cons; split; [|apply Forall_nil]];
      (cbn beta; repeat split; unfold free_of; apply (bool_decide_unpack _);
       vm_compute; exact I).
  - unfold free_of. apply (bool_decide_unpack _). vm_compute. exact I.
  - exact Hpairs.
Defined.

(** X11. A line gives a pair exactly when it holds one tab: [parse_line]
    returns [(eng, spa')] iff the line is [eng TAB spa] with no tab in [eng]
    or [spa] and [spa'] is [spa] between the two markers. Every other line,
    with no tab or with more than one, raises [ValueError]. *)
Theorem parse_line_needs_exactly_one_tab (line : string) :
  (∀ eng spa',
     translation.parse_line line = Ok (eng, spa')
     ↔ ∃ spa, line = eng +:+ String py.tab spa
              ∧ free_of py.tab eng ∧ free_of py.tab spa
              ∧ spa' = "[start] " +:+ spa +:+ " [end]")
  ∧ (∀ e, translation.parse_line line = Raise e → e = ValueError).
Proof.
  split.
  - intros eng spa'. split.
    + unfold translation.parse_line.
      pose proof (join_split py.tab line) as Hjoin.
      pose proof (split_pieces_free py.tab line) as Hfree.
      destruct (py.split py.tab line) as [|e [|s [|]]]; try done.
      intros [= -> <-]. exists s. cbn in Hjoin.
      apply Forall_cons in Hfree as [He Hs%Forall_inv]. done.
    + intros (spa & -> & Heng & Hspa & ->). unfold translation.parse_line.
      rewrite split_app by done. by rewrite split_free by done.
  - intros e. unfold translation.parse_line.
    destruct (py.split py.tab line) as [|? [|? [|]]]; congruence.
Qed.

Lemma lower_char_idempotent (c : nat) :
  translation.lower_char (translation.lower_char c) = translation.lower_char c.
Proof. unfold translation.lower_char. repeat destruct (decide _); lia. Qed.

Lemma lower_char_not_upper (c : nat) : ¬ (65 ≤ translation.lower_char c ≤ 90).
Proof. unfold translation.lower_char. destruct (decide _); lia. Qed.

Lemma custom_standardization_cons (c : nat) (s : translation.text) :
  translation.custom_standardization (c :: s)
  = if decide (translation.lower_char c ∉ translation.strip_chars)
    then translation.lower_char c :: translation.custom_standardization s
    else translation.custom_standardization s.
Proof.
  unfold translation.custom_standardization, translation.delete_class,
    translation.lower.
  reflexivity.
Qed.

Lemma custom_standardization_app (s t : translation.text) :
  translation.custom_standardization (s ++ t)
  = translation.custom_standardization s ++ translation.custom_standardization t.
Proof.
  unfold translation.custom_standardization, translation.delete_class,
    translation.lower.
  by rewrite fmap_app, filter_app.
Qed.

(** X12. The standardization of the Spanish text is idempotent and works
    character by character: it distributes over concatenation, its result
    holds exactly the lowered characters of the input that are outside
    [strip_chars], in order, so no upper-case ASCII letter and no stripped
    character is left. The square brackets are not stripped, so the
    [[start]] and [[end]] markers around a sentence are kept as they are. *)
Theorem custom_standardization_strips_and_keeps_markers (s t : translation.text) :
  translation.custom_standardization (translation.custom_standardization s)
  = translation.custom_standardization s
  ∧ translation.custom_standardization (s ++ t)
    = translation.custom_standardization s ++ translation.custom_standardization t
  ∧ (∀ c, c ∈ translation.custom_standardization s
          ↔ (c ∉ translation.strip_chars)
            ∧ ∃ c0, c0 ∈ s ∧ c = translation.lower_char c0)
  ∧ (∀ c, c ∈ translation.custom_standardization s → ¬ (65 ≤ c ≤ 90))
  ∧ translation.custom_standardization
      (translation.literal "[start] " ++ s ++ translation.literal " [end]")
    = translation.literal "[start] " ++ translation.custom_standardization s
      ++ translation.literal " [end]".
Proof.
  assert (∀ c, c ∈ translation.custom_standardization s
               ↔ (c ∉ translation.strip_chars)
                 ∧ ∃ c0, c0 ∈ s ∧ c = translation.lower_char c0) as Hmem.
  { intros c. unfold translation.custom_standardization, translation.delete_class,
      translation.lower.
    rewrite list_elem_of_filter, list_elem_of_fmap.
    split; intros (Hc & c0 & H1 & H2); (split; [done|by exists c0]). }
  split_and!.
  - clear Hmem. induction s as [|c s IH]; [done|].
    rewrite custom_standardization_cons.
    destruct (decide _) as [Hkeep|Hdrop]; [|exact IH].
    rewrite custom_standardization_cons, lower_char_idempotent.
    rewrite decide_True by done. by f_equal.
  - apply custom_standardization_app.
  - exact Hmem.
  - intros c (_ & c0 & _ & ->)%Hmem. apply lower_char_not_upper.
  - by rewrite !custom_standardization_app.
Qed.

(** X13. [format_dataset] pairs every Spanish sequence with itself shifted
    by one token: for each row of the vectorized Spanish batch, the decoder
    input and the target both have one token less than the row, the decoder
    input holds the tokens but the last, and the target at position [t] is the
    token of the row at position [t + 1], that is the token that follows the
    decoder input at [t]. The English batch is passed on unchanged. *)
Theorem format_dataset_shifts_targets_by_one
    (eng_vectorization spa_vectorization : list string → list (list Z))
    (eng spa : list string) :
  let example :=
    translation.format_dataset eng_vectorization spa_vectorization eng spa in
  translation.encoder_inputs example = eng_vectorization eng
  ∧ length (translation.decoder_inputs example) = length (spa_vectorization spa)
  ∧ length (translation.targets example) = length (spa_vectorization spa)
  ∧ ∀ r row, spa_vectorization spa !! r = Some row →
      ∃ decoder_input target,
        translation.decoder_inputs example !! r = Some decoder_input
        ∧ translation.targets example !! r = Some target
        ∧ length decoder_input = length row - 1
        ∧ length target = length row - 1
        ∧ ∀ t, t < length row - 1 →
            decoder_input !! t = row !! t
            ∧ target !! t = row !! (t + 1)
            ∧ (t + 1 < length row - 1 →
               target !! t = decoder_input !! (t + 1)).
Proof.
  intros example. subst example. unfold translation.format_dataset.
  cbn [translation.encoder_inputs translation.decoder_inputs translation.targets].
  rewrite !length_fmap. split_and!; [done..|].
  intros r row Hrow. rewrite !list_lookup_fmap, Hrow. cbn [fmap option_fmap option_map].
  eexists _, _. split_and!; [done|done|..].
  - unfold py.slice_to, py.clamp. cbn [Z.ltb Z.compare].
    rewrite length_take. lia.
  - unfold py.slice_from, py.clamp. cbn [Z.ltb Z.compare].
    rewrite length_drop. lia.
  - intros t Ht. unfold py.slice_to, py.slice_from, py.clamp.
    cbn [Z.ltb Z.compare].
    replace (Z.to_nat (Z.max 0 (Z.of_nat (length row) + -1)))
      with (length row - 1) by lia.
    replace (Z.to_nat (Z.min 1 (Z.of_nat (length row)))) with 1 by lia.
    rewrite lookup_drop, !lookup_take_lt by lia.
    rewrite (Nat.add_comm 1 t). split_and!; [done|done|].
    intros Ht'. by rewrite lookup_take_lt by lia.
Qed.

(** ** The masks of the translation notebook's decoder and encoder *)

Lemma zipM_mismatch {A B C} (f : A → B → result C) (xs : list A) (ys : list B) :
  (∀ x y, ∃ z, f x y = Ok z) → length xs ≠ length ys →
  tf.zipM f xs ys = Raise InvalidArgumentError.
Proof.
  intros Hf. revert ys. induction xs as [|x xs IH]; intros [|y ys] Hlen;
    cbn in *; [done..|].
  destruct (Hf x y) as [z ->]. cbn. rewrite IH by lia. done.
Qed.

Lemma bcast1_mismatch {A B C} (f : A → B → C) (xs : list A) (ys : list B) :
  2 ≤ length xs → 2 ≤ length ys → length xs ≠ length ys →
  tf.bcast1 f xs ys = Raise InvalidArgumentError.
Proof.
  intros Hxs Hys Hlen.
  destruct xs as [|x [|x' xs]]; cbn in Hxs; [lia..|].
  destruct ys as [|y [|y' ys]]; cbn in Hys; [lia..|].
  apply (zipM_mismatch (λ a b, Ok (f a b))); [by eexists|done].
Qed.

Lemma bcast_all_raise {A B C} (f : A → B → result C) (e : exn)
    (xs : list A) (ys : list B) :
  xs ≠ [] → ys ≠ [] →
  (∀ x y, x ∈ xs → y ∈ ys → f x y = Raise e) →
  tf.bcast f xs ys = Raise e.
Proof.
  intros Hxs Hys Hf.
  destruct xs as [|x xs]; [done|]. destruct ys as [|y ys]; [done|].
  assert (f x y = Raise e) as Hxy by (apply Hf; left).
  destruct xs as [|x' xs], ys as [|y' ys]; cbn; by rewrite Hxy.
Qed.

Lemma zip_with_fst_rows {A} (S : nat) (mat : list (list A)) :
  Forall (λ r, length r = S) mat →
  zip_with (zip_with (λ v (_ : unit), v)) mat
    (replicate (length mat) (replicate S tt)) = mat.
Proof.
  induction 1 as [|r mat Hr _ IH]; [done|]. cbn. rewrite IH. f_equal.
  rewrite <- Hr. apply zip_with_fst_replicate.
Qed.

Lemma Forall3_replicate_mid {A B} (P : A → B → A → Prop) (l : list A) (y : B) :
  Forall (λ x, P x y x) l → Forall3 P l (replicate (length l) y) l.
Proof. induction 1; cbn; by constructor. Qed.

Lemma broadcast_against_same_shape (m : list (list (list Z))) (T S : nat) :
  Forall (λ mat, length mat = T ∧ Forall (λ r, length r = S) mat) m →
  tf.broadcast_against m (length m) T S = Ok m.
Proof.
  intros Hm. unfold tf.broadcast_against, tf.bcast3.
  apply bcast_zip, Forall3_replicate_mid.
  eapply Forall_impl; [exact Hm|]. intros mat [<- Hrows]. cbn beta.
  rewrite bcast2_zip.
  - by rewrite zip_with_fst_rows.
  - clear Hm. induction Hrows as [|r mat Hr _ IH]; cbn; constructor; [|done].
    by rewrite length_replicate.
Qed.

Lemma broadcast_against_other_keys (m : list (list (list Z))) (B T S K : nat) :
  m ≠ [] → 1 ≤ B → 1 ≤ T → 2 ≤ S → 2 ≤ K → K ≠ S →
  Forall (λ mat, mat ≠ [] ∧ Forall (λ r, length r = K) mat) m →
  tf.broadcast_against m B T S = Raise InvalidArgumentError.
Proof.
  intros Hm HB HT HS HK HKS Hshape. unfold tf.broadcast_against, tf.bcast3.
  apply bcast_all_raise; [done|by destruct B; [lia|]|].
  intros mat y Hmat ->%elem_of_replicate_inv.
  rewrite Forall_forall in Hshape. destruct (Hshape mat Hmat) as [Hne Hrows].
  apply bcast_all_raise; [done|by destruct T; [lia|]|].
  intros r y Hr ->%elem_of_replicate_inv.
  rewrite Forall_forall in Hrows.
  apply bcast1_mismatch; rewrite ?length_replicate, ?(Hrows r Hr); lia.
Qed.

Lemma combined_mask_shape (mask : list (list bool)) (T : nat) :
  Forall (λ row, length row = T) mask →
  Forall (λ mat, length mat = T ∧ Forall (λ r, length r = T) mat)
    ((λ row, (λ c, zip_with Z.min (tf.cast_int32 <$> row) c)
               <$> lower_triangular T) <$> mask).
Proof.
  intros Hmask. apply Forall_fmap. eapply Forall_impl; [exact Hmask|].
  intros row Hrow. cbn in Hrow |- *.
  destruct (lower_triangular_rows T) as [Hlen Hrows].
  split; [by rewrite length_fmap|].
  apply Forall_fmap. eapply Forall_impl; [exact Hrows|].
  intros c Hc. cbn in Hc |- *. rewrite length_zip_with, length_fmap. lia.
Qed.

(** X14. The mask the decoder hands to its cross-attention is built from the
    decoder's own sequence: it has one T by T matrix for each row of the
    batch. It fits the attention scores of T queries against T keys, so
    the notebook, whose source and target sequences both have 20 tokens, can
    use it; against encoder outputs of any other length S > 1 it cannot be
    broadcast and the attention fails. *)
Theorem cross_attention_mask_needs_equal_lengths
    (inputs : activations) (mask : list (list bool)) (B T S : nat) :
  tf.shape0 inputs = B → tf.shape1 inputs = T →
  length mask = B → Forall (λ row, length row = T) mask →
  1 ≤ B → 2 ≤ T → 2 ≤ S →
  ∃ causal combined,
    TransformerDecoder.get_causal_attention_mask inputs = Ok causal
    ∧ TransformerDecoder.combined_mask mask causal = Ok combined
    ∧ length combined = B
    ∧ Forall (λ mat, length mat = T ∧ Forall (λ r, length r = T) mat) combined
    ∧ applied_mask B T T (Some combined) = Ok combined
    ∧ (S ≠ T → applied_mask B T S (Some combined) = Raise InvalidArgumentError).
Proof.
  intros <- <- HB Hmask HB1 HT HS. set (T := tf.shape1 inputs) in *.
  pose proof (combined_mask_shape mask T Hmask) as Hshape.
  eexists _, _. split; [apply get_causal_attention_mask_value|].
  split; [rewrite <- HB; by apply combined_mask_value|].
  split; [by rewrite length_fmap|]. split; [done|]. split.
  - unfold applied_mask. rewrite <- HB.
    rewrite <- (length_fmap (λ row, (λ c, zip_with Z.min (tf.cast_int32 <$> row) c)
                                     <$> lower_triangular T) mask) at 1.
    by apply broadcast_against_same_shape.
  - intros HST. unfold applied_mask.
    apply (broadcast_against_other_keys _ _ _ _ T); [|lia..|].
    + destruct mask; [cbn in HB; lia|done].
    + eapply Forall_impl; [exact Hshape|]. intros mat [Hlen Hrows].
      split; [|done]. intros ->. cbn in Hlen. lia.
Qed.

Lemma cross_attention_mask_needs_equal_lengths_witness :
  ∃ combined,
    TransformerDecoder.combined_mask [[true; false]] [[[1; 0]; [1; 1]]]%Z
    = Ok combined
    ∧ applied_mask 1 2 2 (Some combined) = Ok combined
    ∧ applied_mask 1 2 3 (Some combined) = Raise InvalidArgumentError.
Proof.
  destruct (cross_attention_mask_needs_equal_lengths
              [[[1%Qc]; [0%Qc]]] [[true; false]] 1 2 3)
    as (causal & combined & Hcausal & Hcombined & _ & _ & Hfits & Hfails);
    [done|done|done|by repeat constructor|lia|lia|lia|].
  injection Hcausal as <-.
  exists combined. split; [exact Hcombined|]. split; [exact Hfits|].
  apply Hfails. lia.
Defined.


Lemma has_shape_same_shape (B T D : nat) (x y : activations) :
  has_shape B T D x → has_shape B T D y → same_shape x y.
Proof.
  intros [Hx Hxs] [Hy Hys]. unfold same_shape.
  apply Forall2_same_length_lookup_2; [congruence|].
  intros i a b Ha Hb.
  rewrite Forall_forall in Hxs, Hys.
  destruct (Hxs a (list_elem_of_lookup_2 _ _ _ Ha)) as [Hla Hva].
  destruct (Hys b (list_elem_of_lookup_2 _ _ _ Hb)) as [Hlb Hvb].
  apply Forall2_same_length_lookup_2; [congruence|].
  intros j v w Hv Hw. rewrite Forall_forall in Hva, Hvb.
  rewrite (Hva v (list_elem_of_lookup_2 _ _ _ Hv)).
  by rewrite (Hvb w (list_elem_of_lookup_2 _ _ _ Hw)).
Qed.

Lemma residual_sum (B T D : nat) (x y : activations) :
  has_shape B T D x → has_shape B T D y →
  ∃ z, tf.add x y = Ok z ∧ has_shape B T D z.
Proof.
  intros Hx Hy. pose proof (has_shape_same_shape B T D x y Hx Hy) as H.
  exists (zip_with (zip_with (zip_with Qcplus)) x y). split.
  - unfold tf.add, tf.bcast3. apply bcast_zip. clear Hx Hy.
    induction H as [|a b x y Hab _ IH]; cbn; constructor; [|done].
    by apply bcast2_zip.
  - destruct Hx as [Hlx Hxs], Hy as [Hly Hys]. split.
    { rewrite length_zip_with. lia. }
    apply Forall_forall. intros m Hm.
    apply elem_of_lookup_zip_with in Hm as (i & a & b & -> & Ha & Hb).
    rewrite Forall_forall in Hxs, Hys.
    destruct (Hxs a (list_elem_of_lookup_2 _ _ _ Ha)) as [Hla Hva].
    destruct (Hys b (list_elem_of_lookup_2 _ _ _ Hb)) as [Hlb Hvb].
    split; [rewrite length_zip_with; lia|].
    apply Forall_forall. intros v Hv.
    apply elem_of_lookup_zip_with in Hv as (j & v1 & v2 & -> & Hv1 & Hv2).
    rewrite Forall_forall in Hva, Hvb.
    rewrite length_zip_with.
    rewrite (Hva v1 (list_elem_of_lookup_2 _ _ _ Hv1)).
    rewrite (Hvb v2 (list_elem_of_lookup_2 _ _ _ Hv2)). lia.
Qed.

Lemma padding_mask_fits (mask : list (list bool)) (B T : nat) :
  length mask = B → Forall (λ row, length row = T) mask →
  mask_fits B T T
    (Some (fmap (M:=list) (fmap (M:=list) (fmap (M:=list) tf.cast_int32))
             (tf.newaxis_mid mask))).
Proof.
  intros HB Hmask. right. split.
  - unfold tf.newaxis_mid. by rewrite !length_fmap.
  - unfold tf.newaxis_mid. rewrite <- list_fmap_compose.
    apply Forall_fmap. eapply Forall_impl; [exact Hmask|].
    intros row Hrow. cbn. split; [done|]. repeat constructor.
    by rewrite length_fmap.
Qed.

Lemma causal_mask_fits (B T : nat) :
  mask_fits B T T (Some (replicate B (lower_triangular T))).
Proof.
  left. split; [by rewrite length_replicate|].
  apply Forall_replicate. apply lower_triangular_rows.
Qed.

Lemma combined_mask_fits (mask : list (list bool)) (B T : nat) :
  length mask = B → Forall (λ row, length row = T) mask →
  mask_fits B T T
    (Some ((λ row, (λ c, zip_with Z.min (tf.cast_int32 <$> row) c)
                     <$> lower_triangular T) <$> mask)).
Proof.
  intros HB Hmask. left. split; [by rewrite length_fmap|].
  by apply combined_mask_shape.
Qed.

(** X15. Called with a padding mask of the shape of the batch, both layers of
    the translation notebook return normally, as long as each sub-layer
    returns a tensor of the shape of its input wherever the framework's layer
    accepts its arguments: the encoder after one attention call, the decoder
    after exactly two, the self-attention on the causal mask followed by the
    cross-attention on the combined mask, and the result has the shape of the
    inputs.  For the decoder the encoder outputs must have the length of the
    decoder's own sequence, the only length its cross-attention mask fits. *)
Theorem calls_with_mask_return_in_shape
    (encoder : TransformerEncoder.t) (decoder : TransformerDecoder.t)
    (inputs encoder_outputs : activations) (mask : list (list bool))
    (D : nat) :
  let B := tf.shape0 inputs in
  let T := tf.shape1 inputs in
  attention_keeps_shape D (TransformerEncoder.attention encoder) →
  keeps_shape D (TransformerEncoder.layernorm_1 encoder) →
  keeps_shape D (TransformerEncoder.dense_proj encoder) →
  keeps_shape D (TransformerEncoder.layernorm_2 encoder) →
  attention_keeps_shape D (TransformerDecoder.attention_1 decoder) →
  attention_keeps_shape D (TransformerDecoder.attention_2 decoder) →
  keeps_shape D (TransformerDecoder.layernorm_1 decoder) →
  keeps_shape D (TransformerDecoder.layernorm_2 decoder) →
  keeps_shape D (TransformerDecoder.dense_proj decoder) →
  keeps_shape D (TransformerDecoder.layernorm_3 decoder) →
  has_shape B T D inputs →
  has_shape B T D encoder_outputs →
  length mask = B → Forall (λ row, length row = T) mask →
  (∃ padding out,
     TransformerEncoder.call encoder inputs (Some mask)
     = ([MHACall "attention" (Some padding)], Ok out)
     ∧ has_shape B T D out)
  ∧ (∃ causal combined out,
       TransformerDecoder.get_causal_attention_mask inputs = Ok causal
       ∧ TransformerDecoder.combined_mask mask causal = Ok combined
       ∧ TransformerDecoder.call decoder inputs encoder_outputs (Some mask)
         = ([MHACall "attention_1" (Some causal);
             MHACall "attention_2" (Some combined)], Ok out)
       ∧ has_shape B T D out).
Proof.
  intros B T Eatt Eln1 Edense Eln2 Datt1 Datt2 Dln1 Dln2 Ddense Dln3
    Hinputs Houtputs HB Hmask.
  split.
  - unfold TransformerEncoder.call. cbn -[tf.add].
    pose proof (Eatt B T T inputs inputs inputs _ Hinputs Hinputs Hinputs
                  (padding_mask_fits mask B T HB Hmask)) as Hatt.
    destruct (residual_sum B T D _ _ Hinputs Hatt) as (sum_1 & -> & H1).
    cbn -[tf.add].
    pose proof (Eln1 B T _ H1) as Hproj.
    destruct (residual_sum B T D _ _ Hproj (Edense B T _ Hproj))
      as (sum_2 & -> & H2).
    cbn -[tf.add]. eexists _, _. split; [reflexivity|]. by apply Eln2.
  - exists (replicate B (lower_triangular T)),
      ((λ row, (λ c, zip_with Z.min (tf.cast_int32 <$> row) c)
                 <$> lower_triangular T) <$> mask).
    assert (TransformerDecoder.combined_mask mask
              (replicate B (lower_triangular T))
            = Ok ((λ row, (λ c, zip_with Z.min (tf.cast_int32 <$> row) c)
                            <$> lower_triangular T) <$> mask))
      as Hcombined by (rewrite <- HB; by apply combined_mask_value).
    unfold TransformerDecoder.call.
    rewrite get_causal_attention_mask_value. fold B T.
    cbn -[tf.add TransformerDecoder.combined_mask].
    rewrite Hcombined. cbn -[tf.add].
    pose proof (Datt1 B T T inputs inputs inputs _ Hinputs Hinputs Hinputs
                  (causal_mask_fits B T)) as Hatt1.
    destruct (residual_sum B T D _ _ Hinputs Hatt1) as (sum_1 & -> & H1).
    cbn -[tf.add].
    pose proof (Dln1 B T _ H1) as Hout1.
    pose proof (Datt2 B T T _ encoder_outputs encoder_outputs _
                  Hout1 Houtputs Houtputs
                  (combined_mask_fits mask B T HB Hmask)) as Hatt2.
    destruct (residual_sum B T D _ _ Hout1 Hatt2) as (sum_2 & -> & H2).
    cbn -[tf.add].
    pose proof (Dln2 B T _ H2) as Hout2.
    destruct (residual_sum B T D _ _ Hout2 (Ddense B T _ Hout2))
      as (sum_3 & -> & H3).
    cbn -[tf.add]. eexists. split_and!; [reflexivity..|]. by apply Dln3.
Qed.

Lemma calls_with_mask_return_in_shape_witness :
  ∃ out,
    TransformerDecoder.call sample_decoder [[[1%Qc]; [0%Qc]]] [[[1%Qc]; [1%Qc]]]
      (Some [[true; false]])
    = ([MHACall "attention_1" (Some [[[1; 0]; [1; 1]]]%Z);
        MHACall "attention_2" (Some [[[1; 0]; [1; 0]]]%Z)], Ok out).
Proof.
  destruct (calls_with_mask_return_in_shape sample_encoder sample_decoder
              [[[1%Qc]; [0%Qc]]] [[[1%Qc]; [1%Qc]]] [[true; false]] 1)
    as [_ (causal & combined & out & Hcausal & Hcombined & Hcall & _)];
    try (intros B T x Hx; exact Hx);
    try (intros B T S query value key mask Hq _ _ _; exact Hq);
    [by repeat constructor|by repeat constructor|done|by repeat constructor|].
  injection Hcausal as <-. injection Hcombined as <-.
  exists out. exact Hcall.
Defined.

(** ** The named-entity notebook's records *)

Lemma string_app_assoc (a b c : string) : (a +:+ b) +:+ c = a +:+ (b +:+ c).
Proof.
  induction a as [|x a IH]; [done|].
  change (String x a +:+ b) with (String x (a +:+ b)).
  change (String x (a +:+ b) +:+ c) with (String x ((a +:+ b) +:+ c)).
  change (String x a +:+ (b +:+ c)) with (String x (a +:+ (b +:+ c))).
  by rewrite IH.
Qed.

Lemma string_app_singleton (c : ascii) (s : string) :
  String c EmptyString +:+ s = String c s.
Proof. done. Qed.

Lemma split_join_app (sep : ascii) (parts : list string) (rest : string) :
  parts ≠ [] → Forall (free_of sep) parts →
  py.split sep (py.join (String sep EmptyString) parts +:+ String sep rest)
  = parts ++ py.split sep rest.
Proof.
  intros Hne Hfree. induction Hfree as [|part parts Hpart Hparts IH]; [done|].
  destruct parts as [|part' parts].
  - cbn [py.join app]. by rewrite split_app.
  - rewrite join_cons by done. rewrite !string_app_assoc.
    rewrite !string_app_singleton.
    rewrite split_app by done. cbn [app]. f_equal. by apply IH.
Qed.

Lemma split_join (sep : ascii) (parts : list string) :
  parts ≠ [] → Forall (free_of sep) parts →
  py.split sep (py.join (String sep EmptyString) parts) = parts.
Proof.
  intros Hne Hfree. induction Hfree as [|part parts Hpart Hparts IH]; [done|].
  destruct parts as [|part' parts].
  - cbn [py.join]. by apply split_free.
  - rewrite join_cons by done.
    rewrite !string_app_singleton.
    rewrite split_app by done. f_equal. by apply IH.
Qed.

Lemma digits_free_of_tab (s : string) :
  Forall is_digit (list_ascii_of_string s) → free_of py.tab s.
Proof.
  unfold free_of. intros Hs Htab. rewrite Forall_forall in Hs.
  specialize (Hs _ Htab). unfold is_digit in Hs. cbn in Hs.
  repeat (apply elem_of_cons in Hs as [Hs|Hs]; [discriminate Hs|]).
  by apply elem_of_nil in Hs.
Qed.

Lemma str_nat_free_of_tab (n : nat) : free_of py.tab (py.str_nat n).
Proof. apply digits_free_of_tab, str_nat_digits. Qed.

Lemma str_int_free_of_tab (z : Z) : free_of py.tab (py.str_int z).
Proof.
  unfold py.str_int, NilZero.string_of_int.
  assert (∀ d, free_of py.tab (NilZero.string_of_uint d)) as Huint.
  { intros d. unfold NilZero.string_of_uint.
    destruct d; try apply digits_free_of_tab, string_of_uint_digits.
    unfold free_of. cbn. intros H.
    apply elem_of_cons in H as [H|H]; [discriminate H|by apply elem_of_nil in H]. }
  destruct (Z.to_int z) as [d|d]; [apply Huint|].
  unfold free_of. cbn. apply not_elem_of_cons. split; [done|apply Huint].
Qed.

Lemma wrap_in_range (bits z : Z) :
  (0 < bits)%Z → (- 2 ^ (bits - 1) ≤ z < 2 ^ (bits - 1))%Z →
  ner.wrap bits z = z.
Proof.
  intros Hbits Hz. unfold ner.wrap.
  replace (2 ^ bits)%Z with (2 * 2 ^ (bits - 1))%Z
    by (rewrite <- Z.pow_succ_r by lia; f_equal; lia).
  rewrite Z.mod_small by lia. lia.
Qed.

(** X16. A record written by [export_to_file] is read back by
    [map_record_to_training_data]: for a record with at least one token and
    one tag, whose tokens hold no tab, the exported line is parsed into the
    same tokens and into the tags each raised by one. The number parser only
    has to read back the decimal texts that [str] wrote, and the numbers have
    to leave room for the additions in their integer types. *)
Theorem exported_record_is_read_back
    (to_int32 to_int64 : string → result Z) (r : ner.record) :
  to_int32 (py.str_nat (length (ner.tokens r)))
  = Ok (Z.of_nat (length (ner.tokens r))) →
  Forall (λ tag, to_int64 (py.str_int tag) = Ok tag) (ner.ner_tags r) →
  ner.tokens r ≠ [] → ner.ner_tags r ≠ [] →
  Forall (free_of py.tab) (ner.tokens r) →
  (Z.of_nat (length (ner.tokens r)) < 2 ^ 31 - 1)%Z →
  Forall (λ tag, (- 2 ^ 63 ≤ tag < 2 ^ 63 - 1)%Z) (ner.ner_tags r) →
  py.split py.tab (ner.export_record r)
  = py.str_nat (length (ner.tokens r)) :: ner.tokens r
    ++ (py.str_int <$> ner.ner_tags r)
  ∧ ner.map_record_to_training_data to_int32 to_int64 (ner.export_record r)
    = Ok (ner.tokens r, (λ tag, (tag + 1)%Z) <$> ner.ner_tags r).
Proof.
  destruct r as [tokens tags]. cbn [ner.tokens ner.ner_tags].
  intros Hlength Htags Htokens_ne Htags_ne Hfree Hn Hrange.
  assert (py.split py.tab (ner.export_record {| ner.tokens := tokens;
                                                ner.ner_tags := tags |})
          = py.str_nat (length tokens) :: tokens ++ (py.str_int <$> tags))
    as Hsplit.
  { unfold ner.export_record. cbn [ner.tokens ner.ner_tags].
    rewrite !string_app_singleton.
    rewrite split_app by apply str_nat_free_of_tab. f_equal.
    rewrite split_join_app by done. f_equal.
    apply split_join; [by destruct tags|].
    apply Forall_fmap, Forall_forall. intros tag _. apply str_int_free_of_tab. }
  split; [exact Hsplit|].
  unfold ner.map_record_to_training_data. rewrite Hsplit.
  change ((py.str_nat (length tokens) :: tokens ++ (py.str_int <$> tags)) !! 0)
    with (Some (py.str_nat (length tokens))).
  cbn [of_option mbind result_bind]. rewrite Hlength.
  cbn [mbind result_bind].
  rewrite wrap_in_range by lia.
  unfold py.slice, py.slice_from.
  rewrite !clamp_in_range
    by (cbn [length]; rewrite ?length_app, ?length_fmap; lia).
  replace (Z.to_nat (Z.of_nat (length tokens) + 1)) with (S (length tokens)) by lia.
  change (Z.to_nat 1) with 1. cbn [take drop].
  rewrite take_app_length, drop_app_length.
  rewrite (mapM_Forall2 to_int64 _ tags).
  - cbn [mbind result_bind]. do 2 f_equal.
    apply list_fmap_ext. intros _ tag Htag%list_elem_of_lookup_2.
    rewrite Forall_forall in Hrange. specialize (Hrange tag Htag).
    apply wrap_in_range; lia.
  - clear -Htags. induction Htags; cbn; by constructor.
Qed.


Lemma exported_record_is_read_back_witness :
  ner.map_record_to_training_data sample_to_number sample_to_number
    (ner.export_record
       {| ner.tokens := ["EU"; "rejects"; "."]; ner.ner_tags := [3; 0; 0]%Z |})
  = Ok (["EU"; "rejects"; "."], [4; 1; 1]%Z).
Proof.
  destruct (exported_record_is_read_back sample_to_number sample_to_number
              {| ner.tokens := ["EU"; "rejects"; "."];
                 ner.ner_tags := [3; 0; 0]%Z |}) as [_ Hread].
  - reflexivity.
  - repeat constructor.
  - done.
  - done.
  - repeat constructor; unfold free_of; apply (bool_decide_unpack _);
      vm_compute; exact I.
  - cbn. lia.
  - repeat constructor; cbn; lia.
  - exact Hread.
Defined.

(** X17. The guard of [export_to_file] is needed: the line of a record with
    no token cannot be read back, and neither can the line of a record with
    tokens and no tag. In both the reader comes to convert an empty text to a
    number, and fails as the number parser does on the empty text. *)
Theorem record_without_tokens_or_tags_is_not_read_back
    (to_int32 to_int64 : string → result Z) (r : ner.record) (e : exn) :
  to_int32 (py.str_nat (length (ner.tokens r)))
  = Ok (Z.of_nat (length (ner.tokens r))) →
  to_int64 EmptyString = Raise e →
  Forall (free_of py.tab) (ner.tokens r) →
  (Z.of_nat (length (ner.tokens r)) < 2 ^ 31 - 1)%Z →
  ner.tokens r = [] ∨ ner.ner_tags r = [] →
  ner.map_record_to_training_data to_int32 to_int64 (ner.export_record r)
  = Raise e
  ∧ (ner.tokens r = [] → ∀ before after,
       ner.export_to_file (before ++ r :: after)
       = ner.export_to_file before ++ ner.export_to_file after).
Proof.
  destruct r as [tokens tags]. cbn [ner.tokens ner.ner_tags].
  intros Hlength Hempty Hfree Hn Hcase. split.
  - unfold ner.map_record_to_training_data, ner.export_record.
    cbn [ner.tokens ner.ner_tags]. rewrite !string_app_singleton.
    rewrite split_app by apply str_nat_free_of_tab.
    change ((py.str_nat (length tokens) :: ?l) !! 0)
      with (Some (py.str_nat (length tokens))).
    cbn [of_option mbind result_bind]. rewrite Hlength.
    cbn [mbind result_bind]. rewrite wrap_in_range by lia.
    unfold py.slice_from.
    destruct tokens as [|token tokens].
    + cbn [py.join length].
      rewrite (split_app py.tab EmptyString) by apply not_elem_of_nil.
      rewrite clamp_in_range by (cbn [length]; lia).
      change (Z.to_nat (Z.of_nat 0 + 1)) with 1.
      cbn [drop mapM]. by rewrite Hempty.
    + destruct Hcase as [Hnil| ->]; [done|].
      change (py.join (String py.tab EmptyString) (py.str_int <$> []))
        with EmptyString.
      rewrite split_join_app by done.
      rewrite clamp_in_range
        by (cbn [length]; rewrite ?length_app; cbn [py.split length]; lia).
      replace (Z.to_nat (Z.of_nat (length (token :: tokens)) + 1))
        with (S (length (token :: tokens))) by lia.
      cbn [drop]. rewrite drop_app_length. cbn. by rewrite Hempty.
  - intros -> before after. unfold ner.export_to_file.
    rewrite filter_app, filter_cons, fmap_app.
    rewrite decide_False by (cbn; lia). done.
Qed.

Lemma record_without_tokens_or_tags_is_not_read_back_witness :
  ner.map_record_to_training_data sample_to_number sample_to_number
    (ner.export_record {| ner.tokens := []; ner.ner_tags := [] |})
  = Raise InvalidArgumentError.
Proof.
  destruct (record_without_tokens_or_tags_is_not_read_back
              sample_to_number sample_to_number
              {| ner.tokens := []; ner.ner_tags := [] |} InvalidArgumentError)
    as [Hread _].
  - reflexivity.
  - reflexivity.
  - constructor.
  - cbn. lia.
  - by left.
  - exact Hread.
Defined.

Lemma boolean_index_Ok {A} (a : list A) (mask : list bool) (kept : list A) :
  ner.boolean_index a mask = Ok kept →
  length a = length mask
  ∧ kept = (filter (λ am, am.2 = true) (zip a mask)).*1.
Proof.
  unfold ner.boolean_index. destruct (decide _); [|done]. by intros [= <-].
Qed.

Lemma logical_and_same_length (a b mask : list bool) :
  ner.logical_and a b = Ok mask →
  length a = length mask → length b = length mask →
  mask = zip_with andb a b.
Proof.
  unfold ner.logical_and. destruct (decide _) as [|Hne]; [by intros [= <-]|].
  intros Hmask Ha Hb. exfalso. apply Hne. congruence.
Qed.

Lemma kept_tags_positive (xs ys : list Z) :
  length xs = length ys →
  let mask := zip_with andb ((λ tag, bool_decide (0 < tag)%Z) <$> xs)
                            ((λ tag, bool_decide (0 < tag)%Z) <$> ys) in
  let kept_xs := (filter (λ am, am.2 = true) (zip xs mask)).*1 in
  let kept_ys := (filter (λ am, am.2 = true) (zip ys mask)).*1 in
  length kept_xs = length kept_ys
  ∧ Forall (λ tag, 0 < tag)%Z kept_xs ∧ Forall (λ tag, 0 < tag)%Z kept_ys.
Proof.
  revert ys. induction xs as [|x xs IH]; intros [|y ys] Hlen;
    try discriminate Hlen.
  { cbn. split_and!; [done|constructor|constructor]. }
  destruct (IH ys) as (IHlen & IHxs & IHys); [cbn in Hlen; lia|].
  cbn [fmap list_fmap zip_with zip]. rewrite !filter_cons. cbn [snd].
  destruct (bool_decide (0 < x)%Z) eqn:Hx, (bool_decide (0 < y)%Z) eqn:Hy;
    cbn [andb]; try (rewrite !decide_False by done; done).
  rewrite !decide_True by done. cbn [fmap list_fmap fst length].
  apply bool_decide_eq_true in Hx, Hy.
  split_and!; [by f_equal|by constructor|by constructor].
Qed.

Lemma batch_tag_ids_Ok (predict : list (list Z) → list (list (list Qc)))
    (xy : list (list Z) * list (list Z)) (true_tag_ids predicted_tag_ids : list Z) :
  ner.batch_tag_ids predict xy = Ok (true_tag_ids, predicted_tag_ids) →
  length true_tag_ids = length predicted_tag_ids
  ∧ Forall (λ tag, 0 < tag)%Z true_tag_ids
  ∧ Forall (λ tag, 0 < tag)%Z predicted_tag_ids.
Proof.
  unfold ner.batch_tag_ids.
  destruct (mapM (mapM argmax) (predict xy.1)) as [predictions|]; [|done].
  cbn [mbind result_bind].
  destruct (ner.logical_and _ _) as [mask|] eqn:Hmask; [|done].
  cbn [mbind result_bind].
  destruct (ner.boolean_index (concat xy.2) mask) as [t|] eqn:Ht; [|done].
  cbn [mbind result_bind].
  destruct (ner.boolean_index (Z.of_nat <$> _) mask) as [p|] eqn:Hp; [|done].
  cbn [mbind result_bind]. intros [= <- <-].
  apply boolean_index_Ok in Ht as [Hlt ->].
  apply boolean_index_Ok in Hp as [Hlp ->].
  apply logical_and_same_length in Hmask; [|by rewrite length_fmap..].
  subst mask. apply kept_tags_positive. congruence.
Qed.

Lemma mapping_pad (tag : Z) :
  ner.mapping !! tag = Some "[PAD]" → tag = 0%Z.
Proof.
  intros Htag. apply dict_lookup_inv in Htag.
  vm_compute in Htag.
  repeat (apply elem_of_cons in Htag as [Htag|Htag]; [by simplify_eq|]).
  by apply elem_of_nil in Htag.
Qed.

Lemma names_of_positive_tags (ids : list Z) (names : list string) :
  mapM (getitem ner.mapping) ids = Ok names →
  Forall (λ tag, 0 < tag)%Z ids →
  length names = length ids ∧ ("[PAD]" ∉ names).
Proof.
  intros Hnames%mapM_Ok_inv Hids. split; [by rewrite (Forall2_length _ _ _ Hnames)|].
  intros (i & Hi)%list_elem_of_lookup_1.
  destruct (Forall2_lookup_r _ _ _ _ _ Hnames Hi) as (tag & Htag & Hget).
  unfold getitem in Hget.
  destruct (ner.mapping !! tag) as [name|] eqn:Hlookup; [|done].
  injection Hget as ->. apply mapping_pad in Hlookup as ->.
  rewrite Forall_forall in Hids.
  specialize (Hids 0%Z (list_elem_of_lookup_2 _ _ _ Htag)). lia.
Qed.

(** X18. [calculate_metrics] fails with [ValueError] on a dataset without
    batches, where [np.concatenate] gets an empty list. When it comes to
    call [evaluate], the dataset had a batch, the two lists of tag names have
    the same length, and neither holds the padding tag: a position counts only
    if both its true tag and its predicted tag are above 0. *)
Theorem calculate_metrics_compares_non_padding_tags
    (predict : list (list Z) → list (list (list Qc)))
    (dataset : list (list (list Z) * list (list Z))) :
  ner.calculate_metrics predict [] = Raise ValueError
  ∧ ∀ real_tags predicted_tags,
      ner.calculate_metrics predict dataset = Ok (real_tags, predicted_tags) →
      dataset ≠ []
      ∧ length real_tags = length predicted_tags
      ∧ ("[PAD]" ∉ real_tags) ∧ ("[PAD]" ∉ predicted_tags).
Proof.
  split; [done|]. intros real_tags predicted_tags. unfold ner.calculate_metrics.
  destruct (mapM _ dataset) as [batches|] eqn:Hbatches; [|done].
  cbn [mbind result_bind]. apply mapM_Ok_inv in Hbatches.
  destruct batches as [|batch batches]; [done|].
  assert (dataset ≠ []) as Hne by (intros ->; inversion Hbatches).
  remember (batch :: batches) as all_batches eqn:Hall. clear Hall.
  unfold ner.concatenate.
  destruct (all_batches.*1) eqn:H1; [done|]. rewrite <- H1. clear H1.
  cbn [mbind result_bind].
  destruct (all_batches.*2) eqn:H2; [done|]. rewrite <- H2. clear H2.
  cbn [mbind result_bind].
  destruct (mapM _ (concat all_batches.*2)) as [predicted|] eqn:Hpredicted; [|done].
  cbn [mbind result_bind].
  destruct (mapM _ (concat all_batches.*1)) as [real|] eqn:Hreal; [|done].
  cbn [mbind result_bind]. intros [= <- <-].
  assert (length (concat all_batches.*1) = length (concat all_batches.*2)
          ∧ Forall (λ tag, 0 < tag)%Z (concat all_batches.*1)
          ∧ Forall (λ tag, 0 < tag)%Z (concat all_batches.*2))
    as (Hlen & Hpos1 & Hpos2).
  { clear -Hbatches. induction Hbatches as [|xy [t p] ? ? Hxy _ IH].
    - by repeat constructor.
    - destruct IH as (IHlen & IH1 & IH2).
      apply batch_tag_ids_Ok in Hxy as (Hlen & Ht & Hp).
      cbn [fmap list_fmap fst snd concat]. rewrite !length_app, !Forall_app.
      split_and!; [lia|done..]. }
  destruct (names_of_positive_tags _ _ Hreal Hpos1) as [Hlr Hr].
  destruct (names_of_positive_tags _ _ Hpredicted Hpos2) as [Hlp Hp].
  split_and!; [done|lia|done|done].
Qed.


Lemma calculate_metrics_compares_non_padding_tags_witness :
  ner.calculate_metrics sample_predict [([[0; 2; 1]%Z], [[1; 0; 4]%Z])]
  = Ok (["O"; "B-ORG"], ["B-PER"; "O"])
  ∧ length ["O"; "B-ORG"] = length ["B-PER"; "O"].
Proof.
  destruct (calculate_metrics_compares_non_padding_tags
              sample_predict [([[0; 2; 1]%Z], [[1; 0; 4]%Z])]) as [_ Hcompare].
  assert (ner.calculate_metrics sample_predict [([[0; 2; 1]%Z], [[1; 0; 4]%Z])]
          = Ok (["O"; "B-ORG"], ["B-PER"; "O"])) as Hrun by (vm_compute; reflexivity).
  destruct (Hcompare ["O"; "B-ORG"] ["B-PER"; "O"] Hrun) as (_ & Hlen & _ & _).
  split; [exact Hrun|exact Hlen].
Defined.

(** ** The masked loss and the decoding loop *)


Lemma zipM_app {A B C} (f : A → B → result C)
    (xs xs' : list A) (ys ys' : list B) (zs' : list C) :
  length xs = length ys → tf.zipM f xs' ys' = Ok zs' →
  tf.zipM f (xs ++ xs') (ys ++ ys') = (zs ← tf.zipM f xs ys; Ok (zs ++ zs')).
Proof.
  intros Hlen Hzs'. revert ys Hlen.
  induction xs as [|x xs IH]; intros [|y ys] Hlen; try discriminate Hlen.
  { cbn. by rewrite Hzs'. }
  cbn [app tf.zipM]. destruct (f x y) as [z|]; cbn [mbind result_bind]; [|done].
  rewrite IH by (cbn in Hlen; lia).
  by destruct (tf.zipM f xs ys).
Qed.

Lemma padding_row_losses (crossentropy : Z → list float32 → result float32)
    (more : list (list float32)) :
  Forall (λ logits, ∃ q, crossentropy 0%Z logits = Ok (Finite q)) more →
  ∃ pad,
    tf.zipM crossentropy (replicate (length more) 0%Z) more = Ok pad
    ∧ length pad = length more ∧ Forall is_finite pad.
Proof.
  induction 1 as [|logits more [q Hq] _ (pad & Hpad & Hlen & Hfin)].
  - by exists [].
  - exists (Finite q :: pad). cbn [length replicate tf.zipM].
    rewrite Hq. cbn [mbind result_bind]. rewrite Hpad. cbn [mbind result_bind].
    split_and!; [done|by rewrite Hlen|]. constructor; [by exists q|done].
Qed.

Lemma padded_loss_fn (crossentropy : Z → list float32 → result float32)
    (y_true y_true' : list (list Z))
    (y_pred y_pred' : list (list (list float32))) :
  Forall2 (λ labels logits, length labels = length logits) y_true y_pred →
  Forall2 (λ labels logits, length labels = length logits) y_true' y_pred' →
  padded_further y_true y_true' →
  extended (λ logits, ∃ q, crossentropy 0%Z logits = Ok (Finite q))
    y_pred y_pred' →
  match CustomNonPaddingTokenLoss.loss_fn crossentropy y_true y_pred with
  | Raise e =>
      CustomNonPaddingTokenLoss.loss_fn crossentropy y_true' y_pred' = Raise e
  | Ok loss =>
      ∃ pads,
        CustomNonPaddingTokenLoss.loss_fn crossentropy y_true' y_pred'
        = Ok (zip_with app loss pads)
        ∧ y_true' = zip_with (λ row pad, row ++ replicate (length pad) 0%Z)
                      y_true pads
        ∧ length pads = length y_true
        ∧ Forall (Forall is_finite) pads
  end.
Proof.
  unfold CustomNonPaddingTokenLoss.loss_fn.
  intros Hshape Hshape' Hpad. revert y_pred y_pred' Hshape Hshape'.
  induction Hpad as [|labels labels' y_true y_true' [k ->] _ IH];
    intros y_pred y_pred' Hshape Hshape' Hext.
  { inversion Hshape; subst. inversion Hext; subst. cbn. by exists []. }
  inversion Hshape as [|? logits ? y_pred0 Hlen Hshape0]; subst.
  inversion Hext as [|? logits' ? y_pred0' (more & -> & Hmore) Hext0]; subst.
  inversion Hshape' as [|? ? ? ? Hlen' Hshape0']; subst.
  assert (k = length more) as -> by (rewrite !length_app, length_replicate in Hlen'; lia).
  destruct (padding_row_losses crossentropy more Hmore) as (pad & Hrow & Hlp & Hfin).
  specialize (IH _ _ Hshape0 Hshape0' Hext0).
  cbn [tf.zipM]. rewrite (zipM_app _ _ _ _ _ pad) by done.
  destruct (tf.zipM crossentropy labels logits) as [losses|e];
    cbn [mbind result_bind]; [|done].
  destruct (tf.zipM (tf.zipM crossentropy) y_true y_pred0) as [loss|e];
    cbn [mbind result_bind].
  - destruct IH as (pads & -> & -> & Hlen_pads & Hpads).
    cbn [mbind result_bind]. exists (pad :: pads). cbn [zip_with length].
    rewrite Hlp. split_and!; [done|done|by rewrite Hlen_pads|by constructor].
  - by rewrite IH.
Qed.

Lemma padding_row_masked (k : nat) (pad : list float32) :
  Forall is_finite pad →
  sum_list (zip_with fmul pad
              (tf.cast_float32 <$> ((λ t : Z, (0 <? t)%Z) <$> replicate k 0%Z)))
  = Finite 0%Qc.
Proof.
  intros Hpad. revert k. induction Hpad as [|x pad Hx _ IH]; intros [|k];
    try done.
  cbn [replicate fmap list_fmap zip_with]. unfold sum_list in *. cbn [foldr].
  rewrite IH. change (tf.cast_float32 (0 <? 0)%Z) with (Finite 0%Qc).
  rewrite fmul_0_r_finite by done. apply fadd_0_l.
Qed.

Lemma padding_labels_filtered (k : nat) :
  filter (λ label, (0 < label)%Z) (replicate k 0%Z) = [].
Proof.
  induction k as [|k IH]; [done|]. cbn [replicate]. rewrite filter_cons.
  by rewrite decide_False by lia.
Qed.

Lemma padded_masked_sum (y_true : list (list Z)) (loss pads : list (list float32)) :
  Forall2 (λ labels losses, length labels = length losses) y_true loss →
  Forall (Forall is_finite) pads →
  let y_true' :=
    zip_with (λ row pad, row ++ replicate (length pad) 0%Z) y_true pads in
  tf.reduce_sum
    (zip_with (zip_with fmul) (zip_with app loss pads)
       (fmap (M:=list) (fmap (M:=list) tf.cast_float32) (tf.greater_0 y_true')))
  = tf.reduce_sum
      (zip_with (zip_with fmul) (take (length pads) loss)
         (fmap (M:=list) (fmap (M:=list) tf.cast_float32)
            (tf.greater_0 (take (length pads) y_true))))
  ∧ count_non_padding y_true' = count_non_padding (take (length pads) y_true).
Proof.
  intros Hshape Hpads. cbn zeta. unfold count_non_padding, tf.greater_0.
  change (tf.reduce_sum ?x) with (sum_list (concat x)).
  revert pads Hpads.
  induction Hshape as [|labels losses y_true loss Hlen _ IH]; intros pads Hpads.
  { by destruct pads. }
  destruct pads as [|pad pads]; [done|].
  apply Forall_cons in Hpads as [Hpad Hpads].
  destruct (IH pads Hpads) as [IHsum IHcount].
  cbn [zip_with fmap list_fmap concat length take].
  rewrite !sum_list_app, !filter_app, !length_app, IHsum, IHcount.
  rewrite !fmap_app, zip_with_app by (by rewrite !length_fmap).
  rewrite sum_list_app, padding_row_masked, fadd_0_r by done.
  rewrite padding_labels_filtered. cbn [length]. split; [done|lia].
Qed.

(** X19. The NER loss does not depend on how far a batch is padded, as long
    as the added positions have a finite loss: adding padding labels 0 at the
    end of the rows, with logits whose cross-entropy for the label 0 is a
    finite number, leaves the loss unchanged, also when it is an error or
    NaN. *)
Theorem loss_ignores_added_padding
    (crossentropy : Z → list float32 → result float32)
    (y_true y_true' : list (list Z))
    (y_pred y_pred' : list (list (list float32))) :
  Forall2 (λ labels logits, length labels = length logits) y_true y_pred →
  Forall2 (λ labels logits, length labels = length logits) y_true' y_pred' →
  padded_further y_true y_true' →
  extended (λ logits, ∃ q, crossentropy 0%Z logits = Ok (Finite q))
    y_pred y_pred' →
  CustomNonPaddingTokenLoss.call crossentropy y_true' y_pred'
  = CustomNonPaddingTokenLoss.call crossentropy y_true y_pred.
Proof.
  intros Hshape Hshape' Hpad Hext.
  pose proof (padded_loss_fn crossentropy _ _ _ _ Hshape Hshape' Hpad Hext)
    as Hloss.
  destruct (CustomNonPaddingTokenLoss.loss_fn crossentropy y_true y_pred)
    as [loss|e] eqn:Horig.
  - destruct Hloss as (pads & Hloss' & -> & Hlen & Hpads).
    rewrite (CustomNonPaddingTokenLoss_call_value _ _ _ _ Hloss').
    rewrite (CustomNonPaddingTokenLoss_call_value _ _ _ _ Horig).
    pose proof (loss_fn_shape _ _ _ _ Horig) as Hrows.
    destruct (padded_masked_sum y_true loss pads Hrows Hpads) as [-> ->].
    rewrite Hlen, (Forall2_length _ _ _ Hrows) at 1.
    by rewrite !take_ge by (rewrite ?Hlen, <- ?(Forall2_length _ _ _ Hrows); lia).
  - unfold CustomNonPaddingTokenLoss.call. by rewrite Hloss, Horig.
Qed.

Lemma loss_ignores_added_padding_witness :
  CustomNonPaddingTokenLoss.call sample_crossentropy
    [[2; 0; 0; 0]; [1; 1; 0; 0]]%Z
    [[[Finite 1%Qc]; [Finite 2%Qc]; [Finite 2%Qc]; [Finite 1%Qc]];
     [[Finite 0%Qc]; [Finite 1%Qc]; [Finite 1%Qc]; [Finite 2%Qc]]]
  = CustomNonPaddingTokenLoss.call sample_crossentropy
      [[2; 0]; [1; 1]]%Z
      [[[Finite 1%Qc]; [Finite 2%Qc]]; [[Finite 0%Qc]; [Finite 1%Qc]]].
Proof.
  apply loss_ignores_added_padding.
  - repeat constructor.
  - repeat constructor.
  - constructor; [by exists 2|]. constructor; [by exists 2|]. constructor.
  - constructor.
    { exists [[Finite 2%Qc]; [Finite 1%Qc]]. split; [done|].
      repeat constructor; eexists; vm_compute; reflexivity. }
    constructor; [|constructor].
    exists [[Finite 1%Qc]; [Finite 2%Qc]]. split; [done|].
    repeat constructor; eexists; vm_compute; reflexivity.
Defined.

Lemma argmax_defined (v : list Qc) :
  v ≠ [] → ∃ j, argmax v = Ok j ∧ j < length v.
Proof.
  intros Hv. destruct v as [|x v]; [done|].
  eexists. split; [reflexivity|].
  destruct (argmax_is_first_maximum (x :: v) _ eq_refl) as (m & Hm & _).
  by eapply lookup_lt_Some.
Qed.

Lemma spa_index_lookup_defined (get_vocabulary : list string) (j : nat) :
  j < length get_vocabulary →
  ∃ word, getitem (spa_index_lookup get_vocabulary) j = Ok word
          ∧ word ∈ get_vocabulary.
Proof.
  intros Hj. destruct (lookup_lt_is_Some_2 _ _ Hj) as [word Hword].
  exists word. split; [|by eapply list_elem_of_lookup_2].
  unfold getitem, spa_index_lookup, spa_vocab.
  rewrite (dict_lookup _ j word); [done| |].
  - rewrite fst_zip by (rewrite length_seq; lia). apply NoDup_seq.
  - apply list_elem_of_lookup. exists j. apply lookup_zip_Some.
    split; [by apply lookup_seq_lt|done].
Qed.


Lemma decode_loop_returns
    (spa_vectorization : list string → list (list Z))
    (get_vocabulary : list string)
    (transformer : list (list Z) → list (list Z) → activations)
    (input : list (list Z)) (bound : nat) :
  well_formed_predictions bound (length get_vocabulary) transformer →
  ∀ indices sentence,
    Forall (λ i, i < bound) indices →
    let run := decode_loop spa_vectorization get_vocabulary transformer
                 input indices sentence in
    is_Ok run.2
    ∧ Forall (λ it, ∃ i word, it = Sampled i word ∧ word ∈ get_vocabulary) run.1.
Proof.
  intros Hwf indices.
  induction indices as [|i indices IH]; intros sentence Hindices.
  { cbn. split; [done|constructor]. }
  apply Forall_cons in Hindices as [Hi Hindices].
  cbn zeta. cbn [decode_loop].
  assert (∃ word, sample spa_vectorization get_vocabulary transformer
                    input sentence i = Ok word
                  ∧ word ∈ get_vocabulary) as (word & -> & Hword).
  { unfold sample.
    destruct (Hwf input ((λ row, take (length row - 1) row)
                           <$> spa_vectorization [sentence]))
      as (row & rest & -> & Hlen & Hrow).
    destruct (lookup_lt_is_Some_2 row i) as [scores Hscores]; [lia|].
    change ((row :: rest) !! 0 ≫= (.!! i)) with (row !! i). rewrite Hscores.
    cbn [of_option mbind result_bind].
    rewrite Forall_forall in Hrow.
    destruct (Hrow scores (list_elem_of_lookup_2 _ _ _ Hscores)) as [Hne Hwidth].
    destruct (argmax_defined scores Hne) as (j & -> & Hj).
    cbn [mbind result_bind].
    destruct (spa_index_lookup_defined get_vocabulary j) as (word & Hget & Hword);
      [lia|].
    by exists word. }
  cbn [lift emit tbind app].
  destruct (bool_decide (word = "[end]")).
  - cbn. split; [done|]. repeat constructor. by exists i, word.
  - destruct (IH (sentence +:+ " " +:+ word) Hindices) as [Hok Hrun].
    destruct (decode_loop _ _ _ _ _ _) as [log result]. cbn in *.
    split; [done|]. constructor; [by exists i, word|done].
Qed.

(** X20. [decode_sequence] returns a sentence without raising whenever the
    model's predictions have at least [max_decoded_sentence_length] positions
    in their first row, each with scores for no more words than the
    vocabulary holds: every index the loop reads exists, every sampled index
    is a key of the lookup table, and every sampled token is a word of the
    vocabulary. *)
Theorem decode_sequence_returns_on_well_formed_predictions
    (eng_vectorization spa_vectorization : list string → list (list Z))
    (get_vocabulary : list string)
    (transformer : list (list Z) → list (list Z) → activations)
    (input_sentence : string) :
  well_formed_predictions max_decoded_sentence_length (length get_vocabulary)
    transformer →
  let run :=
    decode_sequence eng_vectorization spa_vectorization get_vocabulary
      transformer input_sentence in
  (∃ sentence, run.2 = Ok sentence)
  ∧ ∀ k i word, run.1 !! k = Some (Sampled i word) → word ∈ get_vocabulary.
Proof.
  intros Hwf run. subst run. unfold decode_sequence.
  destruct (decode_loop_returns spa_vectorization get_vocabulary transformer
              (eng_vectorization [input_sentence]) max_decoded_sentence_length
              Hwf (seq 0 max_decoded_sentence_length) "[start]") as [Hok Hrun].
  { apply Forall_forall. intros i Hi%elem_of_seq. lia. }
  split.
  - destruct (decode_loop _ _ _ _ _ _).2 as [sentence|]; [by exists sentence|done].
  - intros k i word Hk. rewrite Forall_forall in Hrun.
    destruct (Hrun _ (list_elem_of_lookup_2 _ _ _ Hk)) as (i' & word' & [= -> ->] & Hword).
    done.
Qed.

Lemma decode_sequence_returns_on_well_formed_predictions_witness :
  (decode_sequence (sample_vectorization 20) (sample_vectorization 21)
     sample_vocabulary (sample_transformer 2) "hello").2
  = Ok "[start] hola hola [end]".
Proof.
  destruct (decode_sequence_returns_on_well_formed_predictions
              (sample_vectorization 20) (sample_vectorization 21)
              sample_vocabulary (sample_transformer 2) "hello")
    as [[sentence Hsentence] _].
  - intros encoder_inputs decoder_inputs. eexists _, _.
    split; [reflexivity|].
    split; [by rewrite length_fmap, length_seq|].
    apply Forall_fmap, Forall_forall. intros i _. cbn.
    destruct (decide (i = 2)); cbn; (split; [done|lia]).
  - rewrite Hsentence. vm_compute in Hsentence. symmetry. exact Hsentence.
Defined.

(** ** Shuffling and splitting the addition examples *)

Lemma take_rows_Ok {A} (x : list A) (indices : list nat) (rows : list A) :
  addition.take_rows x indices = Ok rows ↔
  Forall2 (λ i row, x !! i = Some row) indices rows.
Proof.
  unfold addition.take_rows. split.
  - intros H%mapM_Ok_inv. eapply Forall2_impl; [exact H|].
    intros i row Hi. cbn in Hi. destruct (x !! i); by simplify_eq/=.
  - intros H. apply mapM_Forall2. eapply Forall2_impl; [exact H|].
    intros i row Hi. cbn. by rewrite Hi.
Qed.

Lemma rows_of_all_indices {A} (x : list A) :
  Forall2 (λ i row, x !! i = Some row) (seq 0 (length x)) x.
Proof.
  apply Forall2_same_length_lookup_2; [by rewrite length_seq|].
  intros i j row Hj Hrow. apply lookup_seq in Hj as [-> _]. done.
Qed.

Lemma rows_of_permutation {A} (x : list A) (indices indices' : list nat)
    (rows' : list A) :
  indices ≡ₚ indices' →
  Forall2 (λ i row, x !! i = Some row) indices' rows' →
  ∃ rows, rows ≡ₚ rows' ∧ Forall2 (λ i row, x !! i = Some row) indices rows.
Proof.
  intros Hperm. revert rows'.
  induction Hperm as [|i l l' _ IH|i j l|l l' l'' _ IH1 _ IH2]; intros rows' H.
  - inversion H; subst. by exists [].
  - inversion H as [|? row ? rows0 Hi H']; subst.
    destruct (IH _ H') as (rows & Hrows & Hall).
    exists (row :: rows). split; [by constructor|by constructor].
  - inversion H as [|? row1 ? rows1 Hi H']; subst.
    inversion H' as [|? row2 ? rows2 Hj H'']; subst.
    exists (row2 :: row1 :: rows2). split; [apply perm_swap|by repeat constructor].
  - destruct (IH2 _ H) as (rows2 & Hrows2 & Hall2).
    destruct (IH1 _ Hall2) as (rows1 & Hrows1 & Hall1).
    exists rows1. split; [by etrans|done].
Qed.

Lemma rows_functional {A} (x : list A) (indices : list nat) (rows rows' : list A) :
  Forall2 (λ i row, x !! i = Some row) indices rows →
  Forall2 (λ i row, x !! i = Some row) indices rows' → rows = rows'.
Proof.
  intros H. revert rows'. induction H as [|i row indices rows Hi _ IH];
    intros rows' H'; inversion H'; subst; [done|].
  f_equal; [congruence|by apply IH].
Qed.

(** X21. Shuffling keeps every question with its answer and loses none: for
    an order that is a permutation of the row numbers, both arrays are
    reordered without error, the pairs (x[i], y[i]) after the shuffle are the
    pairs before it in another order, and the split that follows cuts both
    arrays at the same row, leaving one tenth of the rows, rounded down, for
    validation. *)
Theorem shuffle_and_split_keep_pairs {A B} (x : list A) (y : list B)
    (indices : list nat) :
  length x = length y →
  indices ≡ₚ seq 0 (length y) →
  ∃ x' y',
    addition.shuffle_in_unison x y indices = Ok (x', y')
    ∧ zip x' y' ≡ₚ zip x y
    ∧ length x' = length x ∧ length y' = length y
    ∧ let '((x_train, x_val), (y_train, y_val)) := addition.split_validation x' y' in
      x_train ++ x_val = x' ∧ y_train ++ y_val = y'
      ∧ zip x_train y_train ++ zip x_val y_val = zip x' y'
      ∧ length x_val = length x / 10 ∧ length y_val = length x / 10.
Proof.
  intros Hlen Hperm.
  destruct (rows_of_permutation (zip x y) indices (seq 0 (length y)) (zip x y) Hperm)
    as (pairs & Hpairs & Hall).
  { replace (length y) with (length (zip x y))
      by (rewrite length_zip_with; lia).
    apply rows_of_all_indices. }
  assert (Forall2 (λ i row, x !! i = Some row) indices pairs.*1) as Hx.
  { apply Forall2_fmap_r. eapply Forall2_impl; [exact Hall|].
    intros i [a b] [Ha _]%lookup_zip_Some. done. }
  assert (Forall2 (λ i row, y !! i = Some row) indices pairs.*2) as Hy.
  { apply Forall2_fmap_r. eapply Forall2_impl; [exact Hall|].
    intros i [a b] [_ Hb]%lookup_zip_Some. done. }
  exists pairs.*1, pairs.*2.
  assert (length pairs = length x) as Hn.
  { rewrite (Permutation_length Hpairs), length_zip_with. lia. }
  split_and!.
  - unfold addition.shuffle_in_unison.
    rewrite (proj2 (take_rows_Ok x indices pairs.*1) Hx). cbn [mbind result_bind].
    by rewrite (proj2 (take_rows_Ok y indices pairs.*2) Hy).
  - by rewrite zip_fst_snd.
  - by rewrite length_fmap.
  - rewrite length_fmap. lia.
  - unfold addition.split_validation, py.slice_to, py.slice_from.
    rewrite !length_fmap.
    assert (0 ≤ Z.of_nat (length pairs) / 10 ≤ Z.of_nat (length pairs))%Z as Hdiv.
    { split; [apply Z.div_pos; lia|]. apply Z.div_le_upper_bound; lia. }
    rewrite !clamp_in_range by lia.
    set (split_at := Z.to_nat (Z.of_nat (length pairs) - Z.of_nat (length pairs) / 10)).
    assert (length pairs - split_at = length x / 10) as Hval.
    { subst split_at. rewrite <- Hn.
      apply Nat2Z.inj. rewrite Nat2Z.inj_div, Nat2Z.inj_sub by lia.
      rewrite Z2Nat.id by lia. lia. }
    rewrite !take_drop. rewrite !length_drop, !length_fmap.
    split_and!; [done|done| |done|done].
    rewrite <- !fmap_take, <- !fmap_drop, !zip_fst_snd. apply take_drop.
Qed.

Lemma shuffle_and_split_keep_pairs_witness :
  addition.shuffle_in_unison ["1+2"; "3+4"; "5+6"] ["3"; "7"; "11"] [2; 0; 1]
  = Ok (["5+6"; "1+2"; "3+4"], ["11"; "3"; "7"]).
Proof.
  destruct (shuffle_and_split_keep_pairs
              ["1+2"; "3+4"; "5+6"] ["3"; "7"; "11"] [2; 0; 1])
    as (x' & y' & Hshuffle & _).
  - done.
  - cbn. etrans; [apply Permutation_cons_append|]. done.
  - rewrite Hshuffle. vm_compute in Hshuffle. symmetry. exact Hshuffle.
Defined.

Lemma causal_mask_entry (B L b i j : nat) :
  b < B → i < L → j < L →
  entry3 (replicate B (lower_triangular L)) b i j
  = Some (if decide (j ≤ i) then 1%Z else 0%Z).
Proof.
  intros Hb Hi Hj. unfold entry3. rewrite lookup_replicate_2 by done.
  by apply lower_triangular_entry.
Qed.

(** X22. For a query position the combined mask and the causal mask differ
    only through padding at or before that position: row [i] of the combined
    mask of a batch row equals row [i] of the causal mask exactly when none
    of the positions [0..i] of that batch row is padding. With padding at
    the end of the sequences, the two masks therefore agree on the row of
    every real token. *)
Theorem combined_mask_is_causal_before_padding
    (inputs : activations) (mask : list (list bool)) (B L : nat) :
  tf.shape0 inputs = B → tf.shape1 inputs = L →
  length mask = B → Forall (λ row, length row = L) mask →
  ∃ causal combined,
    TransformerDecoder.get_causal_attention_mask inputs = Ok causal
    ∧ TransformerDecoder.combined_mask mask causal = Ok combined
    ∧ ∀ b i, b < B → i < L →
        (∀ j, j < L → entry3 combined b i j = entry3 causal b i j)
        ↔ (∀ j, j ≤ i → entry2 mask b j = Some true).
Proof.
  intros <- <- HB Hmask. set (L := tf.shape1 inputs) in *.
  exists (replicate (tf.shape0 inputs) (lower_triangular L)),
    ((λ row, (λ c, zip_with Z.min (tf.cast_int32 <$> row) c)
               <$> lower_triangular L) <$> mask).
  split; [apply get_causal_attention_mask_value|].
  split; [rewrite <- HB; by apply combined_mask_value|].
  intros b i Hb Hi.
  assert (∀ j, j < L → ∃ p, entry2 mask b j = Some p) as Hentry.
  { intros j Hj. unfold entry2.
    destruct (lookup_lt_is_Some_2 mask b) as [row Hrow]; [lia|].
    rewrite Hrow. cbn. apply lookup_lt_is_Some_2.
    rewrite Forall_forall in Hmask.
    by rewrite (Hmask row (list_elem_of_lookup_2 _ _ _ Hrow)). }
  split.
  - intros Hsame j Hj. destruct (Hentry j) as [p Hp]; [lia|].
    specialize (Hsame j ltac:(lia)).
    rewrite (combined_mask_entry mask L b i j p) in Hsame by (done || lia).
    rewrite causal_mask_entry in Hsame by (done || lia).
    rewrite decide_True in Hsame by done. by destruct p.
  - intros Hreal j Hj. destruct (Hentry j Hj) as [p Hp].
    rewrite (combined_mask_entry mask L b i j p) by done.
    rewrite causal_mask_entry by done.
    destruct (decide (j ≤ i)) as [Hji|Hji].
    + rewrite (Hreal j Hji) in Hp. by injection Hp as <-.
    + by destruct p.
Qed.

Lemma combined_mask_is_causal_before_padding_witness :
  ∃ causal combined,
    TransformerDecoder.get_causal_attention_mask [[[1%Qc]; [1%Qc]; [0%Qc]]]
    = Ok causal
    ∧ TransformerDecoder.combined_mask [[true; true; false]] causal = Ok combined
    ∧ (∀ j, j < 3 → entry3 combined 0 1 j = entry3 causal 0 1 j).
Proof.
  destruct (combined_mask_is_causal_before_padding
              [[[1%Qc]; [1%Qc]; [0%Qc]]] [[true; true; false]] 1 3)
    as (causal & combined & Hcausal & Hcombined & Hrows);
    [done|done|done|by repeat constructor|].
  exists causal, combined. split; [exact Hcausal|]. split; [exact Hcombined|].
  apply (Hrows 0 1); [lia|lia|].
  intros [|[|j]] Hj; [done|done|lia].
Defined.
